(** * chasm: the parser and the statement ordering of the assembler

    A shallow embedding of [src/src/parser.cpp], [src/src/ast.cpp], the token
    model of [include/chasm/lexer.hpp] and the token collection loop of
    [src/src/main.cpp], followed by the properties of the front end that the
    specification states. *)

From Stdlib Require Import String ZArith Bool Arith Lia List Permutation.
From Stdlib Require Import DecimalString DecimalN.
Import ListNotations.

Set Implicit Arguments.
Set Warnings "-register-all".


(** ** Tokens ([lexer.hpp]) *)

Inductive token_type : Type :=
| eof
| numerical
| byte_ascii
| keyword_define
| keyword_config
| keyword_default
| keyword_sprite
| keyword_raw
| keyword_proc_start
| keyword_proc_end
| identifier
| instruction
| register_name
| bracket_open
| bracket_close
| parenthesis_open
| parenthesis_close
| colon
| dot_label
| at_label
| dollar_proc
| hash_sprite
| comma
| equal.

Scheme Equality for token_type.

(** Modelled from the spec: [source_location] is declared in
    [chasm/source_location.hpp], which is not part of the sources; the spec
    describes it as a line/column position. *)
Record source_location : Type := { line : nat; column : nat }.

(** [std::variant<uint16_t, std::string>]. *)
Inductive token_data : Type :=
| uint16_data (n : Z)
| string_data (s : string).

Record token : Type := {
  type : token_type;
  source_loc : source_location;
  data : token_data
}.

(** Equality of two variants: same alternative and same value. *)
Definition token_data_eqb (a b : token_data) : bool :=
  match a, b with
  | uint16_data n, uint16_data m => Z.eqb n m
  | string_data s, string_data t => String.eqb s t
  | _, _ => false
  end.

(** ** Exceptions *)

Inductive exception : Type :=
| expected_more_tokens
    (* chasm_exception: Expected more tokens before end of file. *)
| unexpected_error (t : token)
    (* parser_exception::unexpected_error *)
| unmatching_procedure_names (name_beg name_end : token)
    (* parser_exception::unmatching_procedure_names *)
| sprite_too_much_pixels (name : token) (rows max_rows : nat)
    (* chasm_exception: Sprite ... has too much pixels *)
| sprite_digit_out_of_range
    (* chasm_exception: Sprite digits must be less than 255 *)
| unexpected_eof_in_procedure
    (* chasm_exception: Found unexpected EOF before function end ... *)
| procedure_inside_another
    (* chasm_exception: Cannot define a procedure inside another. *)
| bad_variant_access
    (* std::bad_variant_access, from std::get in token::to_integer *)
| chasm_exception (message : string).
    (* the exceptions of the stages that are not part of the sources *)

(** The result of running a piece of the parser: a value, a thrown exception,
    or the exhaustion of the iteration budget the loops of this model carry. *)
Inductive outcome (A : Type) : Type :=
| Ok (a : A)
| Throw (e : exception)
| OutOfFuel.

Arguments Ok {A} a.
Arguments Throw {A} e.
Arguments OutOfFuel {A}.

(** [uint16_t token::to_integer() const] *)
Definition to_integer (t : token) : outcome Z :=
  match data t with
  | uint16_data n => Ok n
  | string_data _ => Throw bad_variant_access
  end.

(** ** The architecture descriptor ([arch.hpp], not part of the sources) *)

(** Modelled from the spec: the immediate-value bit-format families of the
    architecture descriptor (4-bit, 8-bit, 12-bit); [arch.hpp] is missing. *)
Inductive imm_format : Type := fmt_imm4 | fmt_imm8 | fmt_imm12.

Definition imm_width (f : imm_format) : Z :=
  match f with fmt_imm4 => 4 | fmt_imm8 => 8 | fmt_imm12 => 12 end.

(** Modelled from the spec: [arch::imm_matches_format] is missing; a value
    satisfies an immediate-width format when it fits in that many bits. *)
Definition imm_matches_format (value : Z) (f : imm_format) : bool :=
  (0 <=? value)%Z && (value <? 2 ^ imm_width f)%Z.

(** Modelled from the spec: [arch::sprite] is missing; a sprite is a fixed
    array of 8-bit rows together with the number of rows in use. *)
Record sprite : Type := { sprite_data : list Z; row_count : nat }.

(** Narrowing of a 16-bit value stored into an 8-bit row. *)
Definition to_uint8 (v : Z) : Z := (v mod 256)%Z.

(** [a[i] = v] on an array held as a list; the parser only stores below the
    array's length, an index past the end leaves the list as it is. *)
Fixpoint array_set (a : list Z) (i : nat) (v : Z) : list Z :=
  match a, i with
  | [], _ => []
  | _ :: a', 0 => v :: a'
  | x :: a', S i' => x :: array_set a' i' v
  end.

(** ** The abstract syntax tree *)

Inductive instruction_operand : Type :=
| make_reg (t : token)
| make_immediate (t : token)
| make_label (t : token)
| make_proc (t : token)
| make_sprite (t : token)
| make_indirect (t : token).

Inductive statement : Type :=
| define_statement (name value : token)
| config_statement (name value : token)
| sprite_statement (name : token) (s : sprite)
| raw_statement (t : token)
| label_statement (name : token) (inner_statements : list statement)
| procedure_statement (name_beg name_end : token)
                      (inner_statements : list statement)
| instruction_statement (mnemonic : token)
                        (operands : list instruction_operand).

Definition is_label (s : statement) : bool :=
  match s with label_statement _ _ => true | _ => false end.

Definition is_procedure (s : statement) : bool :=
  match s with procedure_statement _ _ _ => true | _ => false end.

Definition is_sprite (s : statement) : bool :=
  match s with sprite_statement _ _ => true | _ => false end.

(** ** The parser state and its monad

    The parser owns the token vector and an iterator into it; what the code
    can observe is the part of the vector from the iterator on. *)

Definition parser (A : Type) : Type := list token -> outcome (A * list token).

Definition ret {A} (a : A) : parser A := fun ts => Ok (a, ts).

Definition throw {A} (e : exception) : parser A := fun _ => Throw e.

Definition out_of_fuel {A} : parser A := fun _ => OutOfFuel.

Definition bind {A B} (m : parser A) (k : A -> parser B) : parser B :=
  fun ts =>
    match m ts with
    | Ok (a, ts') => k a ts'
    | Throw e => Throw e
    | OutOfFuel => OutOfFuel
    end.

Definition lift {A} (o : outcome A) : parser A :=
  fun ts =>
    match o with
    | Ok a => Ok (a, ts)
    | Throw e => Throw e
    | OutOfFuel => OutOfFuel
    end.

Declare Scope parser_scope.
Delimit Scope parser_scope with parser.
Notation "x <- m ;; k" := (bind m (fun x => k))
  (at level 61, m at next level, right associativity) : parser_scope.
Notation "m ;; k" := (bind m (fun _ => k))
  (at level 61, right associativity) : parser_scope.
Open Scope parser_scope.

Definition any_of (ty : token_type) (types : list token_type) : bool :=
  existsb (token_type_beq ty) types.

(** [token parser::advance()] *)
Definition advance : parser token :=
  fun ts =>
    match ts with
    | [] => Throw expected_more_tokens
    | t :: ts' => Ok (t, ts')
    end.

(** [bool parser::no_more_tokens() const] *)
Definition no_more_tokens : parser bool :=
  fun ts => Ok (match ts with [] => true | _ :: _ => false end, ts).

(** Modelled from the spec: [parser::expect] is declared in [parser.hpp],
    which is missing. It takes the next token with [advance] and returns it
    when its kind is one of the expected kinds; a missing expected token fails
    with the parser exception that carries the unexpected token. *)
Definition expect (types : list token_type) : parser token :=
  t <- advance ;;
  if any_of (type t) types then ret t else throw (unexpected_error t).

(** Modelled from the spec: [parser::advance_if] is declared in [parser.hpp],
    which is missing. It consumes the next token when there is one and it has
    the given kind, and tells whether it did. *)
Definition advance_if (ty : token_type) : parser bool :=
  fun ts =>
    match ts with
    | [] => Ok (false, ts)
    | t :: ts' => if token_type_beq (type t) ty then Ok (true, ts')
                  else Ok (false, ts)
    end.

(** Modelled from the spec: [parser::next_any_of] is declared in [parser.hpp],
    which is missing. It looks at the next token without consuming it and
    tells whether there is one and its kind is among the given kinds. *)
Definition next_any_of (types : list token_type) : parser bool :=
  fun ts =>
    match ts with
    | [] => Ok (false, ts)
    | t :: _ => Ok (any_of (type t) types, ts)
    end.

(** ** The parser ([parser.cpp]) *)

(** [while (auto s = parse_one()) list.push_back(std::move(s));] the loop of
    [make_tree], [parse_procedure] and [parse_label]: statements are collected
    in the order they are parsed until [parse_one] returns the empty handle. *)
Fixpoint parse_statements (fuel : nat) (parse_one : parser (option statement))
  : parser (list statement) :=
  match fuel with
  | 0 => out_of_fuel
  | S fuel' =>
      block <- parse_one ;;
      match block with
      | None => ret []
      | Some s =>
          more <- parse_statements fuel' parse_one ;;
          ret (s :: more)
      end
  end.

(** A parsed statement returned as a non-empty statement handle. *)
Definition present (m : parser statement) : parser (option statement) :=
  s <- m ;; ret (Some s).

(** [ast::statement parser::parse_raw()] *)
Definition parse_raw : parser statement :=
  expect [keyword_raw] ;;
  expect [parenthesis_open] ;;
  tok <- expect [numerical; identifier] ;;
  expect [parenthesis_close] ;;
  ret (raw_statement tok).

(** [ast::statement parser::parse_define()] *)
Definition parse_define : parser statement :=
  expect [keyword_define] ;;
  name <- expect [identifier] ;;
  value <- expect [numerical; keyword_default] ;;
  ret (define_statement name value).

(** [ast::statement parser::parse_config()] *)
Definition parse_config : parser statement :=
  expect [keyword_config] ;;
  name <- expect [identifier] ;;
  expect [equal] ;;
  value <- expect [numerical; keyword_default] ;;
  ret (config_statement name value).

(** [ast::instruction_operand parser::parse_operand()] *)
Definition parse_operand : parser instruction_operand :=
  tok <- expect [register_name; identifier; numerical; at_label;
                 dollar_proc; hash_sprite; bracket_open] ;;
  match type tok with
  | register_name => ret (make_reg tok)
  | at_label =>
      label <- expect [identifier] ;;
      ret (make_label label)
  | dollar_proc =>
      proc <- expect [identifier] ;;
      ret (make_proc proc)
  | hash_sprite =>
      spr <- expect [identifier] ;;
      ret (make_sprite spr)
  | bracket_open =>
      inner_token <- expect [identifier; numerical] ;;
      expect [bracket_close] ;;
      ret (make_indirect inner_token)
  | _ => ret (make_immediate tok)
  end.

(** The kinds of token [parse_operands] accepts as the start of an operand. *)
Definition operand_starters : list token_type :=
  [identifier; register_name; at_label; hash_sprite; dollar_proc;
   numerical; bracket_open].

(** [std::vector<ast::instruction_operand> parser::parse_operands()] *)
Fixpoint parse_operands (fuel : nat) : parser (list instruction_operand) :=
  match fuel with
  | 0 => out_of_fuel
  | S fuel' =>
      starts <- next_any_of operand_starters ;;
      if starts then
        op <- parse_operand ;;
        sep <- advance_if comma ;;
        if sep then
          more <- parse_operands fuel' ;;
          ret (op :: more)
        else ret [op]
      else ret []
  end.

(** [ast::statement parser::parse_instruction()] *)
Definition parse_instruction (fuel : nat) : parser statement :=
  mnemonic <- expect [instruction] ;;
  ops <- parse_operands fuel ;;
  ret (instruction_statement mnemonic ops).

(** The lambda [parse_inner_statement] of [parser::parse_label]: the test
    [no_more_tokens()], then the [switch] on [token_it->type]. *)
Definition parse_label_inner_statement (fuel : nat)
  : parser (option statement) :=
  fun ts =>
    match ts with
    | [] => Ok (None, ts)
    | t :: _ =>
        match type t with
        | keyword_proc_end | dot_label => Ok (None, ts)
        | keyword_define => present parse_define ts
        | keyword_config => present parse_config ts
        | keyword_raw => present parse_raw ts
        | instruction => present (parse_instruction fuel) ts
        | _ => Throw (unexpected_error t)
        end
    end.

(** [ast::statement parser::parse_label()] *)
Definition parse_label (fuel : nat) : parser statement :=
  expect [dot_label] ;;
  name <- expect [identifier] ;;
  expect [colon] ;;
  inner <- parse_statements fuel (parse_label_inner_statement fuel) ;;
  ret (label_statement name inner).

(** The lambda [parse_inner_statement] of [parser::parse_procedure]: the test
    [no_more_tokens()], then the [switch] on [token_it->type]. *)
Definition parse_procedure_inner_statement (fuel : nat)
  : parser (option statement) :=
  fun ts =>
    match ts with
    | [] => Throw unexpected_eof_in_procedure
    | t :: _ =>
        match type t with
        | keyword_proc_end => Ok (None, ts)
        | keyword_define => present parse_define ts
        | keyword_config => present parse_config ts
        | keyword_raw => present parse_raw ts
        | instruction => present (parse_instruction fuel) ts
        | dot_label => present (parse_label fuel) ts
        | keyword_proc_start => Throw procedure_inside_another
        | _ => Throw (unexpected_error t)
        end
    end.

(** [ast::statement parser::parse_procedure()] *)
Definition parse_procedure (fuel : nat) : parser statement :=
  expect [keyword_proc_start] ;;
  proc_name_beg <- expect [identifier] ;;
  inner <- parse_statements fuel (parse_procedure_inner_statement fuel) ;;
  expect [keyword_proc_end] ;;
  proc_name_end <- expect [identifier] ;;
  if negb (token_data_eqb (data proc_name_end) (data proc_name_beg))
  then throw (unmatching_procedure_names proc_name_beg proc_name_end)
  else ret (procedure_statement proc_name_beg proc_name_end inner).

Section Parser.

(** [arch::MAX_SPRITE_ROWS]: the constant is declared in [arch.hpp], which
    is not part of the sources; the parser is defined for any value. *)
Variable MAX_SPRITE_ROWS : nat.

(** [arch::sprite sprite {};] every row zero and no row in use. *)
Definition empty_sprite : sprite :=
  {| sprite_data := repeat 0%Z MAX_SPRITE_ROWS; row_count := 0 |}.

(** The [do { ... } while (advance_if(token_type::comma));] loop of
    [parse_sprite]. *)
Fixpoint parse_sprite_rows (fuel : nat) (name : token) (spr : sprite)
  : parser sprite :=
  match fuel with
  | 0 => out_of_fuel
  | S fuel' =>
      tok <- expect [numerical] ;;
      value <- lift (to_integer tok) ;;
      if MAX_SPRITE_ROWS <=? row_count spr then
        throw (sprite_too_much_pixels name (row_count spr) MAX_SPRITE_ROWS)
      else if negb (imm_matches_format value fmt_imm8) then
        throw sprite_digit_out_of_range
      else
        let spr' :=
          {| sprite_data :=
               array_set (sprite_data spr) (row_count spr) (to_uint8 value);
             row_count := S (row_count spr) |} in
        again <- advance_if comma ;;
        if again then parse_sprite_rows fuel' name spr' else ret spr'
  end.

(** [ast::statement parser::parse_sprite()] *)
Definition parse_sprite (fuel : nat) : parser statement :=
  expect [keyword_sprite] ;;
  name <- expect [identifier] ;;
  expect [bracket_open] ;;
  spr <- parse_sprite_rows fuel name empty_sprite ;;
  expect [bracket_close] ;;
  ret (sprite_statement name spr).

(** [ast::statement parser::parse_primary_statement()]: the test
    [no_more_tokens()], then the [switch] on [token_it->type]. *)
Definition parse_primary_statement (fuel : nat)
  : parser (option statement) :=
  fun ts =>
    match ts with
    | [] => Ok (None, ts)
    | t :: _ =>
        match type t with
        | keyword_define => present parse_define ts
        | keyword_config => present parse_config ts
        | keyword_sprite => present (parse_sprite fuel) ts
        | keyword_raw => present parse_raw ts
        | dot_label => present (parse_label fuel) ts
        | keyword_proc_start => present (parse_procedure fuel) ts
        | instruction => present (parse_instruction fuel) ts
        | _ => Throw (unexpected_error t)
        end
    end.

(** [ast::abstract_tree parser::make_tree()] with an explicit bound on the
    iterations of every loop; the tree is its top-level statement vector. *)
Definition make_tree_fuel (fuel : nat) : parser (list statement) :=
  parse_statements fuel (parse_primary_statement fuel).

(** [parser(tokens).make_tree()]: every loop iteration that does not end its
    loop consumes a token, so one more iteration than there are tokens is
    enough ([make_tree_total] below). *)
Definition make_tree (tokens : list token) : outcome (list statement) :=
  match make_tree_fuel (S (length tokens)) tokens with
  | Ok (branches, _) => Ok branches
  | Throw e => Throw e
  | OutOfFuel => OutOfFuel
  end.

End Parser.

(** ** The token collection loop of the entry point ([main.cpp])

    [for (auto token = lexer->next_token(); token.type != eof;
          token = lexer->next_token()) tokens.push_back(std::move(token));]
    over the sequence of tokens the successive calls of [next_token] return. *)
Fixpoint collect_tokens (stream : list token) : list token :=
  match stream with
  | [] => []
  | t :: stream' =>
      if token_type_beq (type t) eof then [] else t :: collect_tokens stream'
  end.

(** ** Statement ordering and generation ([ast.cpp]) *)

Section StableSort.

Variable A : Type.

(** The comparator handed to the sort: [comp a b] tells that [a] must come
    before [b]. *)
Variable comp : A -> A -> bool.

(** One step of the sort: [x], which stood before every element of [l] in
    the input, moves behind the elements that must come before it and stops
    in front of the first element that need not. *)
Fixpoint insert_stable (x : A) (l : list A) : list A :=
  match l with
  | [] => [x]
  | y :: l' => if comp y x then y :: insert_stable x l' else x :: l
  end.

(** [std::ranges::stable_sort(range, comp)]: the library algorithm is
    specified by its contract (a permutation ordered by [comp] in which
    equivalent elements keep their order); this is the stable insertion
    sort, which meets that contract and is the only list that does
    ([stable_sort_unique] below). *)
Definition stable_sort (l : list A) : list A :=
  fold_right insert_stable [] l.

End StableSort.

Section SortContract.

Variable A : Type.
Variable key : A -> Z.

(** The comparator of [generate]: a greater key comes first. *)
Definition by_key_desc (a b : A) : bool := (key b <? key a)%Z.

(** [l] is ordered by descending key: no element has a greater key than
    an element in front of it. *)
Inductive descending : list A -> Prop :=
| descending_nil : descending []
| descending_cons (x : A) (l : list A) :
    Forall (fun y => (key y <= key x)%Z) l ->
    descending l -> descending (x :: l).

(** The elements of key [p], in the order they have in [l]. *)
Definition with_key (p : Z) (l : list A) : list A :=
  filter (fun x => (key x =? p)%Z) l.

End SortContract.

Section Generate.

(** [statement::priority()] is declared in [ast.hpp], which is not part of
    the sources; the ordering is defined for any priority function. *)
Variable priority : statement -> Z.

(** [symbol_sanitizer::traverse], not part of the sources: it returns
    normally ([None]) or throws. *)
Variable sanitizer_traverse : list statement -> option exception.

(** [generator::generate], not part of the sources: it throws or returns
    the machine words. *)
Variable generator_generate : list statement -> exception + list Z.

(** The lambda handed to the sort:
    [a->priority() > b->priority()]. *)
Definition priority_greater (a b : statement) : bool :=
  (priority b <? priority a)%Z.

(** [void abstract_tree::sanitize() const] *)
Definition sanitize (statements : list statement) : option exception :=
  sanitizer_traverse statements.

(** The statement vector after the sort of [generate]. *)
Definition sorted_statements (statements : list statement)
  : list statement :=
  stable_sort priority_greater statements.

(** [std::vector<uint16_t> abstract_tree::generate()] *)
Definition generate (statements : list statement) : outcome (list Z) :=
  match sanitize statements with
  | Some e => Throw e
  | None =>
      match generator_generate (sorted_statements statements) with
      | inl e => Throw e
      | inr words => Ok words
      end
  end.

End Generate.

(** ** Moving a declaration inside its statement sequence *)

(** The statement kinds the specification calls declarations. *)
Definition is_declaration (s : statement) : bool :=
  match s with
  | define_statement _ _ | config_statement _ _ | sprite_statement _ _
  | label_statement _ _ | procedure_statement _ _ _ => true
  | raw_statement _ | instruction_statement _ _ => false
  end.

(** [moved_declaration l l']: [l'] is [l] with one declaration taken out and
    put back at another position, behind ([moved_later]) or in front
    ([moved_earlier]) of the statements [mid] it moves across. *)
Inductive moved_declaration : list statement -> list statement -> Prop :=
| moved_later (pre mid post : list statement) (s : statement) :
    is_declaration s = true ->
    moved_declaration (pre ++ s :: mid ++ post) (pre ++ mid ++ s :: post)
| moved_earlier (pre mid post : list statement) (s : statement) :
    is_declaration s = true ->
    moved_declaration (pre ++ mid ++ s :: post) (pre ++ s :: mid ++ post).

(** [moved_across x mid l l']: [l'] is [l] with the piece [x] moved across
    the piece [mid] next to it, behind it or in front of it. The pieces are
    the tokens of statements in a program, or statements in a tree. *)
Inductive moved_across {A : Type} (x mid : list A)
  : list A -> list A -> Prop :=
| moved_behind (pre post : list A) :
    moved_across x mid (pre ++ x ++ mid ++ post) (pre ++ mid ++ x ++ post)
| moved_in_front (pre post : list A) :
    moved_across x mid (pre ++ mid ++ x ++ post) (pre ++ x ++ mid ++ post).

(** ** Stages that are not part of the sources *)

(** The statement kinds, for a priority that depends on the kind alone. *)
Inductive statement_kind : Type :=
| kind_define | kind_config | kind_sprite | kind_raw
| kind_label | kind_procedure | kind_instruction.

Definition kind_of (s : statement) : statement_kind :=
  match s with
  | define_statement _ _ => kind_define
  | config_statement _ _ => kind_config
  | sprite_statement _ _ => kind_sprite
  | raw_statement _ => kind_raw
  | label_statement _ _ => kind_label
  | procedure_statement _ _ _ => kind_procedure
  | instruction_statement _ _ => kind_instruction
  end.

Section SpecGenerator.

(** What the specification leaves to the architecture descriptor: the
    opcode table that encodes an instruction, the packing of a sprite's
    rows, and the value a symbol used as a raw word resolves to. Each may
    look at the whole ordered program. *)
Variable encode_instruction :
  list statement -> token -> list instruction_operand -> exception + Z.
Variable sprite_words : list statement -> sprite -> list Z.
Variable symbol_value : list statement -> string -> exception + Z.

Definition append_words (a b : exception + list Z) : exception + list Z :=
  match a, b with
  | inl e, _ => inl e
  | inr _, inl e => inl e
  | inr x, inr y => inr (x ++ y)
  end.

(** Modelled from the spec: [generator::generate] is not part of the
    sources. Section 4.4 of the specification: the ordered statements are
    walked once; an instruction occupies one word, a raw statement occupies
    one word, emitted verbatim, a sprite its rows; a label or a procedure
    stands at the address of its first emitting statement, so its nested
    statements are laid out where it stands, in their order; defines and
    configs emit nothing. *)
Fixpoint words_of_statement (program : list statement) (s : statement)
  : exception + list Z :=
  match s with
  | define_statement _ _ | config_statement _ _ => inr []
  | sprite_statement _ spr => inr (sprite_words program spr)
  | raw_statement t =>
      match data t with
      | uint16_data n => inr [n]
      | string_data name =>
          match symbol_value program name with
          | inl e => inl e
          | inr v => inr [v]
          end
      end
  | label_statement _ inner | procedure_statement _ _ inner =>
      (fix walk (l : list statement) : exception + list Z :=
         match l with
         | [] => inr []
         | x :: l' => append_words (words_of_statement program x) (walk l')
         end) inner
  | instruction_statement mnemonic ops =>
      match encode_instruction program mnemonic ops with
      | inl e => inl e
      | inr w => inr [w]
      end
  end.

Definition spec_generator (program : list statement) : exception + list Z :=
  fold_right (fun s acc => append_words (words_of_statement program s) acc)
             (inr []) program.

End SpecGenerator.

Section Pipeline.

Variable MAX_SPRITE_ROWS : nat.
Variable priority : statement -> Z.
Variable sanitizer_traverse : list statement -> option exception.
Variable generator_generate : list statement -> exception + list Z.

(** The lexer's implementation is not part of the sources: the sequence of
    tokens its [next_token] returns for a source text, or the exception it
    throws. *)
Variable lexer_tokens : string -> exception + list token.

(** Modelled from the spec: the composition of the stages is not part of
    the sources ([main] stops after collecting the tokens). Section 2 of the
    specification: Lexer, token sequence, Parser, AST, Symbol Resolver,
    statement reordering, Generator; the first error ends the run. *)
Definition compile_fuel (fuel : nat) (source : string) : outcome (list Z) :=
  match lexer_tokens source with
  | inl e => Throw e
  | inr stream =>
      match make_tree_fuel MAX_SPRITE_ROWS fuel (collect_tokens stream) with
      | Ok (branches, _) =>
          generate priority sanitizer_traverse generator_generate branches
      | Throw e => Throw e
      | OutOfFuel => OutOfFuel
      end
  end.

Definition compile (source : string) : outcome (list Z) :=
  match lexer_tokens source with
  | inl e => Throw e
  | inr stream =>
      match make_tree MAX_SPRITE_ROWS (collect_tokens stream) with
      | Ok branches =>
          generate priority sanitizer_traverse generator_generate branches
      | Throw e => Throw e
      | OutOfFuel => OutOfFuel
      end
  end.

End Pipeline.

(** ** Tokens and programs used in the examples *)

Definition tk (ty : token_type) (d : token_data) : token :=
  {| type := ty; source_loc := {| line := 0; column := 0 |}; data := d |}.

Definition punct (ty : token_type) : token := tk ty (string_data "").

Definition ident (s : string) : token := tk identifier (string_data s).

Definition num (n : Z) : token := tk numerical (uint16_data n).

Definition raw_word (n : Z) : statement := raw_statement (num n).

(** The token [t] as the lexer returns it at a line and a column. *)
Definition located (l c : nat) (t : token) : token :=
  {| type := type t; source_loc := {| line := l; column := c |};
     data := data t |}.

(** [proc f raw(1) endp f  proc g raw(2) endp g] as a tree, and the same with
    the procedure [g] moved in front of the procedure [f]. *)
Definition two_procedures : list statement :=
  [procedure_statement (ident "f") (ident "f") [raw_word 1];
   procedure_statement (ident "g") (ident "g") [raw_word 2]].

Definition two_procedures_moved : list statement :=
  [procedure_statement (ident "g") (ident "g") [raw_word 2];
   procedure_statement (ident "f") (ident "f") [raw_word 1]].

Definition raw_tokens (n : Z) : list token :=
  [punct keyword_raw; punct parenthesis_open; num n; punct parenthesis_close].

Definition label_tokens (name : string) : list token :=
  [punct dot_label; ident name; punct colon].


(** ** Vocabulary for the statements about the parser *)

Definition not_kind (kind : token_type) (t : token) : Prop :=
  type t <> kind.

Definition not_eof (t : token) : Prop := not_kind eof t.

(** [eats bad strict m]: whenever [m] returns, the tokens it leaves are what
    it was given without a prefix it consumed; no consumed token has the kind
    [bad]; with [strict], something was consumed. *)
Definition eats {A} (bad : token_type) (strict : bool) (m : parser A)
  : Prop :=
  forall ts a ts',
    m ts = Ok (a, ts') ->
    exists used,
      ts = used ++ ts' /\ Forall (not_kind bad) used /\
      (strict = true -> used <> []).

(** The same for the body of a statement loop: a statement costs tokens, the
    empty handle leaves the tokens alone. *)
Definition eats_statement (bad : token_type)
           (step : parser (option statement)) : Prop :=
  forall ts o ts',
    step ts = Ok (o, ts') ->
    match o with
    | Some _ =>
        exists used,
          ts = used ++ ts' /\ Forall (not_kind bad) used /\ used <> []
    | None => ts' = ts
    end.

(** [m] does not run out of iterations on [ts]. *)
Definition finishes {A} (m : parser A) (ts : list token) : Prop :=
  m ts <> OutOfFuel.

(** [m] does not run out of iterations, whatever the tokens. *)
Definition always_finishes {A} (m : parser A) : Prop :=
  forall ts, finishes m ts.

(** A family of parsers indexed by its iteration bound gives the same result
    under every greater bound once it does not run out. *)
Definition fuel_stable {A} (f : nat -> parser A) : Prop :=
  forall n n' ts, n <= n' -> f n ts <> OutOfFuel -> f n' ts = f n ts.

(** The statements a label may hold: defines, configs, raw words and
    instructions. *)
Definition is_simple (s : statement) : bool :=
  match s with
  | define_statement _ _ | config_statement _ _ | raw_statement _
  | instruction_statement _ _ => true
  | sprite_statement _ _ | label_statement _ _ | procedure_statement _ _ _ =>
      false
  end.

(** [P] holds of every sprite of the statement, nested statements included. *)
Fixpoint all_sprites (P : sprite -> bool) (s : statement) : bool :=
  match s with
  | sprite_statement _ spr => P spr
  | label_statement _ inner | procedure_statement _ _ inner =>
      forallb (all_sprites P) inner
  | define_statement _ _ | config_statement _ _ | raw_statement _
  | instruction_statement _ _ => true
  end.

(** A sprite has at least one row and at most the architecture's maximum. *)
Definition rows_in_range (max_rows : nat) (spr : sprite) : bool :=
  (1 <=? row_count spr) && (row_count spr <=? max_rows).

(** The tokens of a row list: the items with a comma between neighbours. *)
Fixpoint separated (sep : token) (items : list token) : list token :=
  match items with
  | [] => []
  | [x] => [x]
  | x :: items' => x :: sep :: separated sep items'
  end.

(** The tokens of a row list in which every comma is a token of its own, as
    a lexer returns them: the first row, then each further row behind its
    comma. *)
Definition row_list (first : token) (more : list (token * token))
  : list token :=
  first :: flat_map (fun cr => [fst cr; snd cr]) more.

(** The rows of such a list, and its commas. *)
Definition row_items (first : token) (more : list (token * token))
  : list token :=
  first :: map snd more.

Definition row_commas (more : list (token * token)) : list token :=
  map fst more.

(** A numerical token and the value it carries. *)
Definition is_number (t : token) (n : Z) : Prop :=
  type t = numerical /\ data t = uint16_data n.

(** What the row loop of [parse_sprite] does with the values of the rows,
    one after the other: the first row that finds the sprite full or that
    does not fit the 8-bit format ends the loop with its exception. *)
Fixpoint store_rows (max_rows : nat) (name : token) (spr : sprite)
         (values : list Z) : exception + sprite :=
  match values with
  | [] => inr spr
  | value :: values' =>
      if max_rows <=? row_count spr then
        inl (sprite_too_much_pixels name (row_count spr) max_rows)
      else if negb (imm_matches_format value fmt_imm8) then
        inl sprite_digit_out_of_range
      else
        store_rows max_rows name
          {| sprite_data :=
               array_set (sprite_data spr) (row_count spr) (to_uint8 value);
             row_count := S (row_count spr) |}
          values'
  end.

(** The tokens of [sprite name [ n, n, ... ]]. *)
Definition sprite_tokens (keyword name open sep close : token)
           (items : list token) : list token :=
  keyword :: name :: open :: separated sep items ++ [close].

(** [survives t m]: when [m] returns on [ts], on [ts] followed by the token
    [t] it returns the same value with [t] left behind, unless it had used
    up [ts] and now throws [t] back as unexpected. *)
Definition survives {A} (t : token) (m : parser A) : Prop :=
  forall ts a ts',
    m ts = Ok (a, ts') ->
    m (ts ++ [t]) = Ok (a, ts' ++ [t]) \/
    (ts' = [] /\ m (ts ++ [t]) = Throw (unexpected_error t)).

(** The same for the body of a statement loop, which may return the empty
    handle at the end of the tokens. *)
Definition survives_statement (t : token) (step : parser (option statement))
  : Prop :=
  forall ts o ts',
    step ts = Ok (o, ts') ->
    match o with
    | Some _ =>
        step (ts ++ [t]) = Ok (o, ts' ++ [t]) \/
        (ts' = [] /\ step (ts ++ [t]) = Throw (unexpected_error t))
    | None =>
        (ts <> [] -> step (ts ++ [t]) = Ok (None, ts' ++ [t])) /\
        (ts = [] -> step (ts ++ [t]) = Throw (unexpected_error t))
    end.

Definition procedure_tokens (name : string) (body : list token)
  : list token :=
  punct keyword_proc_start :: ident name
    :: body ++ [punct keyword_proc_end; ident name].


(** ** Printing tokens ([lexer.hpp]) *)

(** [std::string token::to_string() const]: [std::to_string] of the 16-bit
    value, its decimal numeral, or the string itself. *)
Definition token_to_string (t : token) : string :=
  match data t with
  | uint16_data n => NilZero.string_of_uint (N.to_uint (Z.to_N n))
  | string_data s => s
  end.

(** [constexpr std::string_view to_string(token_type type)] *)
Definition to_string (ty : token_type) : string :=
  match ty with
  | eof => "eof"
  | numerical => "numerical"
  | byte_ascii => "ascii"
  | keyword_define => "define"
  | keyword_raw => "raw"
  | identifier => "identifier"
  | instruction => "instruction"
  | register_name => "register name"
  | bracket_open => "open bracket"
  | bracket_close => "close bracket"
  | parenthesis_open => "open parenthesis"
  | parenthesis_close => "close parenthesis"
  | colon => "colon"
  | comma => "comma"
  | dot_label => "dot"
  | at_label => "@"
  | dollar_proc => "$"
  | _ => "undefined"
  end.

(** The body of the loop of [to_string(std::initializer_list<token_type>)]:
    [if (!joined.empty()) joined += ", "; joined += to_string(type);] *)
Definition join_type (joined : string) (ty : token_type) : string :=
  ((if String.eqb joined "" then joined else joined ++ ", ")
     ++ to_string ty)%string.

(** [std::string to_string(std::initializer_list<token_type> types)] *)
Definition to_string_types (types : list token_type) : string :=
  ("(" ++ fold_left join_type types "" ++ ")")%string.

(** ** The tree as an object ([ast.cpp])

    [generate] sorts the member [statements] in place, so what [branches]
    returns afterwards is the sorted vector. *)

Record abstract_tree : Type := { statements : list statement }.

(** [abstract_tree::abstract_tree(std::vector<ast::statement> &&branches)] *)
Definition new_abstract_tree (branches : list statement) : abstract_tree :=
  {| statements := branches |}.

(** [const std::vector<ast::statement>& abstract_tree::branches() const] *)
Definition branches (tree : abstract_tree) : list statement :=
  statements tree.

Section GenerateInPlace.

Variable priority : statement -> Z.
Variable sanitizer_traverse : list statement -> option exception.
Variable generator_generate : list statement -> exception + list Z.

(** [std::vector<uint16_t> abstract_tree::generate()] with the object it is
    called on: the result and the tree as the call leaves it. An exception
    of the symbol pass leaves the tree as it was; the sort has run when the
    generator is called. *)
Definition generate_tree (tree : abstract_tree)
  : outcome (list Z) * abstract_tree :=
  match sanitize sanitizer_traverse (statements tree) with
  | Some e => (Throw e, tree)
  | None =>
      let tree' :=
        {| statements :=
             stable_sort (priority_greater priority) (statements tree) |} in
      (match generator_generate (statements tree') with
       | inl e => Throw e
       | inr words => Ok words
       end,
       tree')
  end.

End GenerateInPlace.

(** ** The shape of the trees the parser builds *)

Definition is_kind (ty : token_type) (t : token) : bool :=
  token_type_beq (type t) ty.

(** The token an operand holds has the kind the operand was parsed from. *)
Definition operand_well_formed (o : instruction_operand) : bool :=
  match o with
  | make_reg t => is_kind register_name t
  | make_immediate t => any_of (type t) [identifier; numerical]
  | make_label t | make_proc t | make_sprite t => is_kind identifier t
  | make_indirect t => any_of (type t) [identifier; numerical]
  end.

Definition is_byte (v : Z) : bool := (0 <=? v)%Z && (v <? 256)%Z.

(** The array of a sprite has [max_rows] rows: the rows in use are bytes and
    the rows behind them are zero. *)
Definition sprite_well_formed (max_rows : nat) (spr : sprite) : bool :=
  rows_in_range max_rows spr
  && (length (sprite_data spr) =? max_rows)
  && forallb is_byte (firstn (row_count spr) (sprite_data spr))
  && forallb (Z.eqb 0) (skipn (row_count spr) (sprite_data spr)).

(** A statement without nested statements, with tokens of the kinds its
    parser expects. *)
Definition simple_well_formed (s : statement) : bool :=
  match s with
  | define_statement name value | config_statement name value =>
      is_kind identifier name
      && any_of (type value) [numerical; keyword_default]
  | raw_statement t => any_of (type t) [numerical; identifier]
  | instruction_statement mnemonic ops =>
      is_kind instruction mnemonic && forallb operand_well_formed ops
  | sprite_statement _ _ | label_statement _ _ | procedure_statement _ _ _ =>
      false
  end.

Definition label_well_formed (s : statement) : bool :=
  match s with
  | label_statement name inner =>
      is_kind identifier name && forallb simple_well_formed inner
  | _ => false
  end.

(** In a statement sequence nothing but labels follows a label. *)
Fixpoint labels_last (l : list statement) : bool :=
  match l with
  | [] => true
  | s :: l' => if is_label s then forallb is_label l' else labels_last l'
  end.

(** A top-level statement as the parser builds it: nesting is at most a
    label in a procedure, names of a procedure match, sprites are in
    range. *)
Definition well_formed (max_rows : nat) (s : statement) : bool :=
  match s with
  | sprite_statement name spr =>
      is_kind identifier name && sprite_well_formed max_rows spr
  | label_statement _ _ => label_well_formed s
  | procedure_statement name_beg name_end inner =>
      is_kind identifier name_beg && is_kind identifier name_end
      && token_data_eqb (data name_end) (data name_beg)
      && forallb (fun x => simple_well_formed x || label_well_formed x) inner
      && labels_last inner
  | _ => simple_well_formed s
  end.

(** What the row loop of [parse_sprite] keeps true of the sprite it fills:
    the rows stored so far are bytes in front of zeros. *)
Definition sprite_filled (max_rows : nat) (spr : sprite) : Prop :=
  exists rows,
    sprite_data spr = rows ++ repeat 0%Z (max_rows - length rows) /\
    row_count spr = length rows /\
    length rows <= max_rows /\
    Forall (fun v => is_byte v = true) rows.

(** The tokens start where a label ends: at the end of the tokens, at the
    next label or at the end of the enclosing procedure. *)
Definition at_label_end (ts : list token) : Prop :=
  match ts with
  | [] => True
  | t :: _ => type t = dot_label \/ type t = keyword_proc_end
  end.

(** The next token can start an operand. *)
Definition starts_operand (ts : list token) : bool :=
  match ts with
  | [] => false
  | t :: _ => any_of (type t) operand_starters
  end.

Definition no_sprite_no_procedure (s : statement) : bool :=
  negb (is_sprite s) && negb (is_procedure s).

(** The kinds [to_string] has no case for. *)
Definition unnamed_kinds : list token_type :=
  [keyword_config; keyword_default; keyword_sprite; keyword_proc_start;
   keyword_proc_end; hash_sprite; equal].

(** Reading a decimal numeral. *)
Definition read_decimal (s : string) : option Z :=
  option_map (fun d => Z.of_N (N.of_uint d)) (NilZero.uint_of_string s).

(** ** Writing a tree back as tokens

    The tokens a node holds are written as they are; the keywords, brackets
    and commas between them, which the tree does not keep, are written
    without a position. *)

Definition tokens_of_operand (o : instruction_operand) : list token :=
  match o with
  | make_reg t | make_immediate t => [t]
  | make_label t => [punct at_label; t]
  | make_proc t => [punct dollar_proc; t]
  | make_sprite t => [punct hash_sprite; t]
  | make_indirect t => [punct bracket_open; t; punct bracket_close]
  end.

Fixpoint tokens_of_operands (ops : list instruction_operand) : list token :=
  match ops with
  | [] => []
  | [o] => tokens_of_operand o
  | o :: ops' => tokens_of_operand o ++ punct comma :: tokens_of_operands ops'
  end.

Definition tokens_of_simple (s : statement) : list token :=
  match s with
  | define_statement name value => [punct keyword_define; name; value]
  | config_statement name value =>
      [punct keyword_config; name; punct equal; value]
  | raw_statement t =>
      [punct keyword_raw; punct parenthesis_open; t; punct parenthesis_close]
  | instruction_statement mnemonic ops => mnemonic :: tokens_of_operands ops
  | sprite_statement _ _ | label_statement _ _ | procedure_statement _ _ _ =>
      []
  end.

Definition tokens_of_label (s : statement) : list token :=
  match s with
  | label_statement name inner =>
      punct dot_label :: name :: punct colon
        :: flat_map tokens_of_simple inner
  | _ => []
  end.

(** A statement of a procedure body: a label or a simple statement. *)
Definition tokens_of_inner (s : statement) : list token :=
  match s with
  | label_statement _ _ => tokens_of_label s
  | _ => tokens_of_simple s
  end.

Definition tokens_of_sprite (name : token) (spr : sprite) : list token :=
  punct keyword_sprite :: name :: punct bracket_open
    :: separated (punct comma)
         (map num (firstn (row_count spr) (sprite_data spr)))
    ++ [punct bracket_close].

Definition tokens_of_statement (s : statement) : list token :=
  match s with
  | sprite_statement name spr => tokens_of_sprite name spr
  | procedure_statement name_beg name_end inner =>
      punct keyword_proc_start :: name_beg
        :: flat_map tokens_of_inner inner
        ++ [punct keyword_proc_end; name_end]
  | _ => tokens_of_inner s
  end.

Definition tokens_of_tree (tree : list statement) : list token :=
  flat_map tokens_of_statement tree.

(** The next token neither continues an operand list nor starts an
    operand. *)
Definition stops_operands (ts : list token) : bool :=
  match ts with
  | [] => true
  | t :: _ => negb (any_of (type t) (comma :: operand_starters))
  end.

(** ** Tokens behind the tokens a parser reads

    [carries stop m]: when [m] returns on [ts], it returns the same value on
    [ts] followed by any tokens [rest] and leaves [rest] behind. When [m]
    had used up [ts] it may have looked for one more token and found none,
    so in that case [rest] must be such that it finds nothing there either:
    [stop rest]. *)
Definition carries {A} (stop : list token -> Prop) (m : parser A) : Prop :=
  forall ts a ts' rest,
    m ts = Ok (a, ts') -> (ts' = [] -> stop rest) ->
    m (ts ++ rest) = Ok (a, ts' ++ rest).

(** The same for a statement dispatcher, when it returns a statement. *)
Definition carries_statement (stop : list token -> Prop)
           (step : parser (option statement)) : Prop :=
  forall ts s ts' rest,
    step ts = Ok (Some s, ts') -> (ts' = [] -> stop rest) ->
    step (ts ++ rest) = Ok (Some s, ts' ++ rest).

(** What may stand behind a top-level statement without changing how it is
    parsed: behind a label, nothing or a label (or the end of a procedure);
    behind another statement, nothing that continues an operand list. *)
Definition may_follow (s : statement) (rest : list token) : Prop :=
  if is_label s then at_label_end rest else stops_operands rest = true.

(** [statements_read max_rows ts tree]: [tree] is what reading [ts] from
    left to right as top-level statements gives: each statement is the one
    [parse_primary_statement] returns on the tokens the statements in front
    of it left, and the last one leaves no token. *)
Inductive statements_read (max_rows : nat)
  : list token -> list statement -> Prop :=
| read_nothing : statements_read max_rows [] []
| read_statement (fuel : nat) (ts rest : list token) (s : statement)
                 (tree : list statement) :
    parse_primary_statement max_rows fuel ts = Ok (Some s, rest) ->
    statements_read max_rows rest tree ->
    statements_read max_rows ts (s :: tree).

(** ** Runs of the pipeline

    To compare two runs on one source text, a stage that is not part of the
    sources is taken as a relation between what it is given and what one run
    of it gives, and [std::ranges::stable_sort] is taken by its contract,
    not by an algorithm. *)


Section Runs.

Variable MAX_SPRITE_ROWS : nat.
Variable priority : statement -> Z.

(** One run of the lexer on a source text: the tokens [next_token] returns,
    or the exception thrown. *)
Variable lexer_run : string -> exception + list token -> Prop.

(** One run of [symbol_sanitizer::traverse]. *)
Variable sanitizer_run : list statement -> option exception -> Prop.

(** One run of [generator::generate]. *)
Variable generator_run : list statement -> exception + list Z -> Prop.




End Runs.

(** ** Statements up to where their tokens stand in the text

    A token carries the place in the source text it was read at. Moving a
    piece of text changes the places and nothing else, so programs are
    compared with the places taken out. *)

Definition unlocated (t : token) : token :=
  {| type := type t; source_loc := {| line := 0; column := 0 |};
     data := data t |}.

Definition unlocated_operand (o : instruction_operand)
  : instruction_operand :=
  match o with
  | make_reg t => make_reg (unlocated t)
  | make_immediate t => make_immediate (unlocated t)
  | make_label t => make_label (unlocated t)
  | make_proc t => make_proc (unlocated t)
  | make_sprite t => make_sprite (unlocated t)
  | make_indirect t => make_indirect (unlocated t)
  end.

Fixpoint unlocated_statement (s : statement) : statement :=
  match s with
  | define_statement name value =>
      define_statement (unlocated name) (unlocated value)
  | config_statement name value =>
      config_statement (unlocated name) (unlocated value)
  | sprite_statement name spr => sprite_statement (unlocated name) spr
  | raw_statement t => raw_statement (unlocated t)
  | label_statement name inner =>
      label_statement (unlocated name) (map unlocated_statement inner)
  | procedure_statement name_beg name_end inner =>
      procedure_statement (unlocated name_beg) (unlocated name_end)
        (map unlocated_statement inner)
  | instruction_statement mnemonic ops =>
      instruction_statement (unlocated mnemonic)
        (map unlocated_operand ops)
  end.

Definition unlocated_exception (e : exception) : exception :=
  match e with
  | unexpected_error t => unexpected_error (unlocated t)
  | unmatching_procedure_names name_beg name_end =>
      unmatching_procedure_names (unlocated name_beg) (unlocated name_end)
  | sprite_too_much_pixels name rows max_rows =>
      sprite_too_much_pixels (unlocated name) rows max_rows
  | _ => e
  end.

(** The result of a parser with the places taken out of the value ([f]),
    of the tokens left and of the exception. *)
Definition unlocated_result {A} (f : A -> A) (o : outcome (A * list token))
  : outcome (A * list token) :=
  match o with
  | Ok (a, ts) => Ok (f a, map unlocated ts)
  | Throw e => Throw (unlocated_exception e)
  | OutOfFuel => OutOfFuel
  end.

(** [m] on the tokens without their places gives what [m'] gives on the
    tokens, without the places. *)
Definition blind_pair {A} (f : A -> A) (m m' : parser A) : Prop :=
  forall ts, m (map unlocated ts) = unlocated_result f (m' ts).

(** [m] does not look at the places: on the tokens without their places it
    gives what it gives on the tokens, without the places. *)
Definition blind {A} (f : A -> A) (m : parser A) : Prop :=
  blind_pair f m m.

(** The same for the tree. *)
Definition unlocated_tree (o : outcome (list statement))
  : outcome (list statement) :=
  match o with
  | Ok tree => Ok (map unlocated_statement tree)
  | Throw e => Throw (unlocated_exception e)
  | OutOfFuel => OutOfFuel
  end.

(** A stage that is not part of the sources does not look at the places
    either when it gives one result on statements that differ in them
    only. *)
Definition blind_stage {B} (stage : list statement -> B) : Prop :=
  forall l l',
    map unlocated_statement l = map unlocated_statement l' ->
    stage l = stage l'.

(** ** Tokens a parser leaves behind

    [cut_short m]: what [m] returns does not depend on the tokens it leaves
    behind: with those tokens cut off the end of its input it returns the
    same. [cut_short_inside m] says so when [m] leaves a token of the
    shortened input too, so that it cannot have looked behind it. *)
Definition cut_short {A} (m : parser A) : Prop :=
  forall ts rest a ts',
    m (ts ++ rest) = Ok (a, ts' ++ rest) -> m ts = Ok (a, ts').

Definition cut_short_inside {A} (m : parser A) : Prop :=
  forall ts rest a ts',
    m (ts ++ rest) = Ok (a, ts' ++ rest) -> ts' <> [] ->
    m ts = Ok (a, ts').

(** * Properties *)

(** ** The stable sort *)

Section StableSortFacts.

Variable A : Type.
Variable key : A -> Z.

Local Abbreviation by_key_desc := (by_key_desc key).
Local Abbreviation descending := (descending key).
Local Abbreviation with_key := (with_key key).

Lemma insert_stable_perm (x : A) (l : list A) :
  Permutation (insert_stable by_key_desc x l) (x :: l).
Proof.
  induction l as [|y l IH]; simpl.
  - apply Permutation_refl.
  - destruct (by_key_desc y x).
    + apply Permutation_trans with (y :: x :: l).
      * apply perm_skip. exact IH.
      * apply perm_swap.
    + apply Permutation_refl.
Qed.

Lemma stable_sort_perm (l : list A) :
  Permutation (stable_sort by_key_desc l) l.
Proof.
  induction l as [|x l IH]; simpl.
  - apply perm_nil.
  - eapply Permutation_trans.
    + apply insert_stable_perm.
    + apply perm_skip. exact IH.
Qed.

Lemma insert_stable_descending (x : A) (l : list A) :
  descending l -> descending (insert_stable by_key_desc x l).
Proof.
  induction 1 as [|y l Hy Hl IH]; simpl.
  - constructor; [constructor | constructor].
  - unfold by_key_desc at 1.
    destruct (Z.ltb_spec (key x) (key y)) as [Hlt | Hge].
    + constructor; [| exact IH].
      eapply Permutation_Forall.
      * apply Permutation_sym. apply insert_stable_perm.
      * constructor; [lia | exact Hy].
    + constructor; [| constructor; assumption].
      constructor; [exact Hge |].
      eapply Forall_impl; [| exact Hy].
      simpl. intros a Ha. lia.
Qed.

Lemma stable_sort_descending (l : list A) :
  descending (stable_sort by_key_desc l).
Proof.
  induction l as [|x l IH]; simpl.
  - constructor.
  - apply insert_stable_descending. exact IH.
Qed.

Lemma with_key_insert_stable (p : Z) (x : A) (l : list A) :
  with_key p (insert_stable by_key_desc x l) = with_key p (x :: l).
Proof.
  induction l as [|y l IH]; simpl; [reflexivity |].
  unfold by_key_desc at 1.
  destruct (Z.ltb_spec (key x) (key y)) as [Hlt | Hge]; [| reflexivity].
  simpl. simpl in IH. rewrite IH.
  destruct (Z.eqb_spec (key y) p) as [Hy | Hy];
    destruct (Z.eqb_spec (key x) p) as [Hx | Hx]; try reflexivity.
  lia.
Qed.

(** Stability: the elements of each key are in the order of the input. *)
Lemma stable_sort_stable (p : Z) (l : list A) :
  with_key p (stable_sort by_key_desc l) = with_key p l.
Proof.
  induction l as [|x l IH]; simpl; [reflexivity |].
  rewrite with_key_insert_stable. simpl. rewrite IH. reflexivity.
Qed.

Lemma with_key_In (p : Z) (x : A) (l : list A) :
  In x (with_key p l) <-> In x l /\ key x = p.
Proof.
  unfold with_key. rewrite filter_In. rewrite Z.eqb_eq. reflexivity.
Qed.

Lemma with_key_split (p : Z) (l r1 r2 : list A) (x : A) :
  with_key p l = r1 ++ x :: r2 ->
  exists u v, l = u ++ x :: v /\ with_key p u = r1 /\ with_key p v = r2.
Proof.
  revert r1. induction l as [|y l IH]; intros r1 H; simpl in H.
  - destruct r1; discriminate.
  - destruct (key y =? p)%Z eqn:Ey.
    + destruct r1 as [|z r1]; simpl in H; inversion H; subst.
      * exists [], l. auto.
      * destruct (IH r1 H2) as [u [v [-> [Hu Hv]]]].
        exists (z :: u), v. simpl. rewrite Ey, Hu. auto.
    + destruct (IH r1 H) as [u [v [-> [Hu Hv]]]].
      exists (y :: u), v. simpl. rewrite Ey. auto.
Qed.

Lemma with_key_app (p : Z) (l1 l2 : list A) :
  with_key p (l1 ++ l2) = with_key p l1 ++ with_key p l2.
Proof. apply filter_app. Qed.

Lemma with_key_cons_same (p : Z) (x : A) (l : list A) :
  key x = p -> with_key p (x :: l) = x :: with_key p l.
Proof.
  intros Hx.
  change (with_key p (x :: l))
    with (if (key x =? p)%Z then x :: with_key p l else with_key p l).
  rewrite (proj2 (Z.eqb_eq _ _) Hx). reflexivity.
Qed.

(** Two elements of the same key stand in the sorted list in the order they
    have in the input. *)
Lemma stable_sort_keeps_order (l1 l2 l3 : list A) (a b : A) :
  key a = key b ->
  exists s1 s2 s3,
    stable_sort by_key_desc (l1 ++ a :: l2 ++ b :: l3) = s1 ++ a :: s2 ++ b :: s3.
Proof.
  intros Hab.
  pose proof (stable_sort_stable (key a) (l1 ++ a :: l2 ++ b :: l3)) as Hst.
  rewrite (with_key_app _ l1), (with_key_cons_same _ eq_refl),
    (with_key_app _ l2), (with_key_cons_same _ (eq_sym Hab)) in Hst.
  apply with_key_split in Hst. destruct Hst as [s1 [v [Hs [_ Hv]]]].
  apply with_key_split in Hv. destruct Hv as [s2 [s3 [-> _]]].
  exists s1, s2, s3. exact Hs.
Qed.

(** The contract determines the result: two descending lists with the same
    elements of each key, in the same order, are the same list. *)
Lemma descending_stable_unique (l1 l2 : list A) :
  descending l1 -> descending l2 ->
  (forall p, with_key p l1 = with_key p l2) ->
  l1 = l2.
Proof.
  intros H1. revert l2.
  induction H1 as [|x l1 Hx Hd1 IH]; intros l2 H2 Heq.
  - destruct l2 as [|y l2]; [reflexivity |].
    specialize (Heq (key y)). simpl in Heq.
    rewrite Z.eqb_refl in Heq. discriminate.
  - destruct H2 as [|y l2 Hy Hd2].
    + specialize (Heq (key x)). simpl in Heq.
      rewrite Z.eqb_refl in Heq. discriminate.
    + assert (Hk : key x = key y).
      { assert (Hxin : In x (y :: l2)).
        { apply (with_key_In (key x)). rewrite <- Heq.
          simpl. rewrite Z.eqb_refl. left. reflexivity. }
        assert (Hyin : In y (x :: l1)).
        { apply (with_key_In (key y)). rewrite Heq.
          simpl. rewrite Z.eqb_refl. left. reflexivity. }
        destruct Hxin as [-> | Hxin]; [reflexivity |].
        destruct Hyin as [-> | Hyin]; [reflexivity |].
        rewrite Forall_forall in Hx, Hy.
        specialize (Hx _ Hyin). specialize (Hy _ Hxin). lia. }
      assert (Hxy : x = y).
      { specialize (Heq (key x)). simpl in Heq.
        rewrite Z.eqb_refl in Heq. rewrite <- Hk in Heq.
        rewrite Z.eqb_refl in Heq. congruence. }
      subst y. f_equal. apply IH; [exact Hd2 |].
      intros p. specialize (Heq p). simpl in Heq.
      fold (with_key p l1) in Heq. fold (with_key p l2) in Heq.
      destruct (key x =? p)%Z; congruence.
Qed.

(** Whatever algorithm the library uses, a result that meets the contract
    of a stable sort is the list [stable_sort] computes. *)
Lemma stable_sort_unique (l out : list A) :
  descending out ->
  (forall p, with_key p out = with_key p l) ->
  out = stable_sort by_key_desc l.
Proof.
  intros Hd Hst. apply descending_stable_unique.
  - exact Hd.
  - apply stable_sort_descending.
  - intros p. rewrite stable_sort_stable. apply Hst.
Qed.

(** Two elements of different keys can be inserted in either order. *)
Lemma insert_stable_comm (a b : A) (l : list A) :
  key a <> key b ->
  insert_stable by_key_desc a (insert_stable by_key_desc b l) =
  insert_stable by_key_desc b (insert_stable by_key_desc a l).
Proof.
  intros Hab. induction l as [|y l IH]; simpl.
  - unfold by_key_desc.
    destruct (Z.ltb_spec (key a) (key b)), (Z.ltb_spec (key b) (key a));
      try reflexivity; lia.
  - unfold by_key_desc in *.
    destruct (Z.ltb_spec (key b) (key y)) as [Hby | Hby];
      destruct (Z.ltb_spec (key a) (key y)) as [Hay | Hay]; simpl;
      repeat match goal with
        | |- context [(?u <? ?v)%Z] => destruct (Z.ltb_spec u v)
        end; try reflexivity; try lia.
    rewrite IH. reflexivity.
Qed.

Lemma stable_sort_app (l1 l2 : list A) :
  stable_sort by_key_desc (l1 ++ l2) =
  fold_right (insert_stable by_key_desc) (stable_sort by_key_desc l2) l1.
Proof.
  unfold stable_sort. apply fold_right_app.
Qed.

Lemma insert_stable_across (s : A) (mid acc : list A) :
  Forall (fun m => key m <> key s) mid ->
  insert_stable by_key_desc s
    (fold_right (insert_stable by_key_desc) acc mid) =
  fold_right (insert_stable by_key_desc)
    (insert_stable by_key_desc s acc) mid.
Proof.
  induction 1 as [|m mid Hm Hmid IH]; simpl; [reflexivity |].
  rewrite insert_stable_comm by congruence.
  rewrite IH. reflexivity.
Qed.

(** Moving an element across elements of other keys does not change the
    sorted list. *)
Lemma stable_sort_move (pre mid post : list A) (s : A) :
  Forall (fun m => key m <> key s) mid ->
  stable_sort by_key_desc (pre ++ s :: mid ++ post) =
  stable_sort by_key_desc (pre ++ mid ++ s :: post).
Proof.
  intros Hmid.
  rewrite !stable_sort_app. f_equal.
  change (stable_sort by_key_desc (s :: mid ++ post))
    with (insert_stable by_key_desc s (stable_sort by_key_desc (mid ++ post))).
  rewrite !stable_sort_app.
  apply insert_stable_across. exact Hmid.
Qed.

End StableSortFacts.

(** ** What the parser consumes *)

Lemma token_type_beq_eq (a b : token_type) :
  token_type_beq a b = true <-> a = b.
Proof.
  split.
  - apply internal_token_type_dec_bl.
  - apply internal_token_type_dec_lb.
Qed.

Lemma any_of_In (ty : token_type) (types : list token_type) :
  any_of ty types = true <-> In ty types.
Proof.
  unfold any_of. rewrite existsb_exists. split.
  - intros [x [Hx Heq]]. apply token_type_beq_eq in Heq. subst. exact Hx.
  - intros H. exists ty. split; [exact H | apply token_type_beq_eq; reflexivity].
Qed.

Section Consumption.

(** The kind of token that is not consumed. *)
Variable bad : token_type.

Lemma eats_weaken {A} (b : bool) (m : parser A) :
  eats bad b m -> eats bad false m.
Proof.
  intros H ts a ts' Hm. destruct (H ts a ts' Hm) as [used [E [F _]]].
  exists used. repeat split; try assumption. discriminate.
Qed.

Lemma eats_ret {A} (a : A) : eats bad false (ret a).
Proof.
  intros ts x ts' H. unfold ret in H. inversion H; subst.
  exists []. repeat split; [constructor | discriminate].
Qed.

Lemma eats_throw {A} (b : bool) (e : exception) : eats bad b (@throw A e).
Proof. intros ts x ts' H. discriminate. Qed.

Lemma eats_out_of_fuel {A} (b : bool) : eats bad b (@out_of_fuel A).
Proof. intros ts x ts' H. discriminate. Qed.

Lemma eats_lift {A} (o : outcome A) : eats bad false (lift o).
Proof.
  intros ts x ts' H. unfold lift in H. destruct o; inversion H; subst.
  exists []. repeat split; [constructor | discriminate].
Qed.

Lemma eats_bind {A B} (b1 b2 : bool) (m : parser A) (k : A -> parser B) :
  eats bad b1 m -> (forall a, eats bad b2 (k a)) ->
  eats bad (b1 || b2) (bind m k).
Proof.
  intros Hm Hk ts y ts' H. unfold bind in H.
  destruct (m ts) as [[a ts1] | e |] eqn:E; try discriminate.
  destruct (Hm _ _ _ E) as [u1 [E1 [F1 N1]]].
  destruct (Hk a _ _ _ H) as [u2 [E2 [F2 N2]]].
  exists (u1 ++ u2). split; [| split].
  - rewrite <- app_assoc. congruence.
  - apply Forall_app. split; assumption.
  - intros Hb Happ. apply app_eq_nil in Happ. destruct Happ as [-> ->].
    destruct b1; [apply N1; reflexivity | apply N2; [exact Hb | reflexivity]].
Qed.

Lemma eats_bind_strict {A B} (m : parser A) (k : A -> parser B) :
  eats bad true m -> (forall a, eats bad false (k a)) ->
  eats bad true (bind m k).
Proof.
  intros Hm Hk. apply (eats_bind (b1 := true) (b2 := false)); assumption.
Qed.

Lemma eats_bind_weak {A B} (m : parser A) (k : A -> parser B) :
  eats bad false m -> (forall a, eats bad false (k a)) ->
  eats bad false (bind m k).
Proof.
  intros Hm Hk. apply (eats_bind (b1 := false) (b2 := false)); assumption.
Qed.

Lemma eats_expect (types : list token_type) :
  any_of bad types = false -> eats bad true (expect types).
Proof.
  intros Hno ts a ts' H. unfold expect, bind, advance in H.
  destruct ts as [|t ts]; [discriminate |].
  destruct (any_of (type t) types) eqn:E; [| discriminate].
  unfold ret in H. inversion H; subst.
  exists [a]. repeat split.
  - constructor; [| constructor]. intros Hbad. rewrite Hbad in E. congruence.
  - discriminate.
Qed.

Lemma eats_advance_if (ty : token_type) :
  ty <> bad -> eats bad false (advance_if ty).
Proof.
  intros Hty ts a ts' H. unfold advance_if in H.
  destruct ts as [|t ts].
  - inversion H; subst. exists []. repeat split; [constructor | discriminate].
  - destruct (token_type_beq (type t) ty) eqn:E; inversion H; subst.
    + apply token_type_beq_eq in E. exists [t]. repeat split.
      * constructor; [| constructor]. unfold not_kind. congruence.
      * discriminate.
    + exists []. repeat split; [constructor | discriminate].
Qed.

Lemma eats_next_any_of (types : list token_type) :
  eats bad false (next_any_of types).
Proof.
  intros ts a ts' H. unfold next_any_of in H.
  destruct ts as [|t ts]; inversion H; subst;
    exists []; repeat split; try constructor; discriminate.
Qed.

Lemma eats_length {A} (b : bool) (m : parser A) (ts ts' : list token)
      (a : A) :
  eats bad b m -> m ts = Ok (a, ts') ->
  length ts' <= length ts /\ (b = true -> length ts' < length ts).
Proof.
  intros Hm H. destruct (Hm _ _ _ H) as [used [-> [_ N]]].
  rewrite length_app. split; [lia |].
  intros Hb. specialize (N Hb). destruct used; [congruence | simpl; lia].
Qed.

Lemma eats_statement_length (step : parser (option statement))
      (ts ts' : list token) (o : option statement) :
  eats_statement bad step -> step ts = Ok (o, ts') ->
  length ts' <= length ts /\ (o <> None -> length ts' < length ts).
Proof.
  intros Hs H. specialize (Hs _ _ _ H). destruct o as [s|].
  - destruct Hs as [used [-> [_ N]]]. rewrite length_app.
    destruct used; [congruence | simpl; split; intros; lia].
  - subst. split; [lia | congruence].
Qed.

Lemma eats_statement_present (m : parser statement) (ts ts' : list token)
      (o : option statement) :
  eats bad true m ->
  present m ts = Ok (o, ts') ->
  (exists s, o = Some s /\ m ts = Ok (s, ts')) /\
  exists used,
    ts = used ++ ts' /\ Forall (not_kind bad) used /\ used <> [].
Proof.
  intros Hm H. unfold present, bind, ret in H.
  destruct (m ts) as [[s ts1] | e |] eqn:E; try discriminate.
  inversion H; subst. split; [exists s; auto |].
  destruct (Hm _ _ _ E) as [used [E1 [F1 N1]]].
  exists used. auto.
Qed.

Lemma eats_parse_statements (fuel : nat)
      (step : parser (option statement)) :
  eats_statement bad step -> eats bad false (parse_statements fuel step).
Proof.
  intros Hstep. induction fuel as [|fuel IH]; simpl;
    [apply eats_out_of_fuel |].
  intros ts l ts' H. unfold bind in H.
  destruct (step ts) as [[[s|] ts1] | e |] eqn:E; try discriminate.
  - destruct (parse_statements fuel step ts1) as [[more ts2] | e |] eqn:E2;
      try discriminate.
    unfold ret in H. inversion H; subst.
    specialize (Hstep _ _ _ E). simpl in Hstep.
    destruct Hstep as [u1 [E1 [F1 _]]].
    destruct (IH _ _ _ E2) as [u2 [E3 [F2 _]]].
    exists (u1 ++ u2). rewrite <- app_assoc. split; [congruence |].
    split; [apply Forall_app; auto | discriminate].
  - unfold ret in H. inversion H; subst.
    specialize (Hstep _ _ _ E). simpl in Hstep. subst.
    exists []. repeat split; [constructor | discriminate].
Qed.

End Consumption.

Create HintDb eats.

#[local] Hint Resolve eats_ret eats_throw eats_out_of_fuel eats_lift
  eats_next_any_of : eats.
#[local] Hint Extern 1 (eats _ true (expect _)) =>
  apply eats_expect; reflexivity : eats.
#[local] Hint Extern 1 (eats _ false (expect _)) =>
  apply eats_weaken with (b := true); apply eats_expect; reflexivity : eats.
#[local] Hint Extern 1 (eats _ false (advance_if _)) =>
  apply eats_advance_if; discriminate : eats.
#[local] Hint Extern 2 (eats _ true (bind _ _)) =>
  apply eats_bind_strict; [| intro] : eats.
#[local] Hint Extern 2 (eats _ false (bind _ _)) =>
  apply eats_bind_weak; [| intro] : eats.
#[local] Hint Extern 3 (eats _ _ (if ?c then _ else _)) => destruct c : eats.

(** The statements a procedure may hold take neither an end-of-file token
    nor the start of a procedure: the lemmas below hold for both kinds. *)
Ltac each_bad_kind H := destruct H as [-> | ->].

Ltac solve_present H lemma :=
  eapply eats_statement_present in H; [| apply lemma];
  destruct H as [[? [-> _]] ?]; assumption.

Lemma eats_parse_raw (bad : token_type) :
  bad = eof \/ bad = keyword_proc_start -> eats bad true parse_raw.
Proof. intros Hb. each_bad_kind Hb; unfold parse_raw; auto 10 with eats. Qed.

Lemma eats_parse_define (bad : token_type) :
  bad = eof \/ bad = keyword_proc_start -> eats bad true parse_define.
Proof. intros Hb. each_bad_kind Hb; unfold parse_define; auto 10 with eats. Qed.

Lemma eats_parse_config (bad : token_type) :
  bad = eof \/ bad = keyword_proc_start -> eats bad true parse_config.
Proof. intros Hb. each_bad_kind Hb; unfold parse_config; auto 10 with eats. Qed.

Lemma eats_parse_operand (bad : token_type) :
  bad = eof \/ bad = keyword_proc_start -> eats bad true parse_operand.
Proof.
  intros Hb.
  each_bad_kind Hb; unfold parse_operand;
    (apply eats_bind_strict; [auto with eats |]);
    intros tok; destruct (type tok); auto 10 with eats.
Qed.

Lemma eats_parse_operands (bad : token_type) (fuel : nat) :
  bad = eof \/ bad = keyword_proc_start ->
  eats bad false (parse_operands fuel).
Proof.
  intros Hb. induction fuel as [|fuel IH]; simpl; [auto with eats |].
  apply eats_bind_weak; [auto with eats |].
  intros [|]; [| auto with eats].
  apply eats_bind_weak;
    [apply eats_weaken with (b := true), eats_parse_operand; exact Hb |].
  intros op. apply eats_bind_weak.
  - apply eats_advance_if. destruct Hb as [-> | ->]; discriminate.
  - intros [|]; auto 10 with eats.
Qed.

Lemma eats_parse_instruction (bad : token_type) (fuel : nat) :
  bad = eof \/ bad = keyword_proc_start ->
  eats bad true (parse_instruction fuel).
Proof.
  intros Hb. unfold parse_instruction. apply eats_bind_strict.
  - apply eats_expect. destruct Hb as [-> | ->]; reflexivity.
  - intros m. apply eats_bind_weak;
      [apply eats_parse_operands; exact Hb | auto with eats].
Qed.

Lemma eats_parse_label_inner_statement (bad : token_type) (fuel : nat) :
  bad = eof \/ bad = keyword_proc_start ->
  eats_statement bad (parse_label_inner_statement fuel).
Proof.
  intros Hb ts o ts' H. unfold parse_label_inner_statement in H.
  destruct ts as [|t ts]; [inversion H; reflexivity |].
  destruct (type t); try discriminate;
    try (inversion H; reflexivity).
  - solve_present H (eats_parse_define Hb).
  - solve_present H (eats_parse_config Hb).
  - solve_present H (eats_parse_raw Hb).
  - solve_present H (eats_parse_instruction fuel Hb).
Qed.

Lemma eats_parse_label (bad : token_type) (fuel : nat) :
  bad = eof \/ bad = keyword_proc_start -> eats bad true (parse_label fuel).
Proof.
  intros Hb. unfold parse_label.
  apply eats_bind_strict;
    [apply eats_expect; destruct Hb as [-> | ->]; reflexivity |].
  intros _. apply eats_bind_weak;
    [eapply eats_weaken, eats_expect; destruct Hb as [-> | ->]; reflexivity |].
  intros name. apply eats_bind_weak;
    [eapply eats_weaken, eats_expect; destruct Hb as [-> | ->]; reflexivity |].
  intros _. apply eats_bind_weak; [| auto with eats].
  apply eats_parse_statements, eats_parse_label_inner_statement. exact Hb.
Qed.

Lemma eats_parse_procedure_inner_statement (bad : token_type) (fuel : nat) :
  bad = eof \/ bad = keyword_proc_start ->
  eats_statement bad (parse_procedure_inner_statement fuel).
Proof.
  intros Hb ts o ts' H. unfold parse_procedure_inner_statement in H.
  destruct ts as [|t ts]; [discriminate |].
  destruct (type t); try discriminate;
    try (inversion H; reflexivity).
  - solve_present H (eats_parse_define Hb).
  - solve_present H (eats_parse_config Hb).
  - solve_present H (eats_parse_raw Hb).
  - solve_present H (eats_parse_instruction fuel Hb).
  - solve_present H (eats_parse_label fuel Hb).
Qed.

Lemma at_eof : eof = eof \/ eof = keyword_proc_start.
Proof. left. reflexivity. Qed.

Lemma at_proc_start :
  keyword_proc_start = eof \/ keyword_proc_start = keyword_proc_start.
Proof. right. reflexivity. Qed.

Lemma eats_parse_procedure (fuel : nat) : eats eof true (parse_procedure fuel).
Proof.
  unfold parse_procedure. apply eats_bind_strict; [auto with eats |].
  intros _. apply eats_bind_weak; [auto with eats |].
  intros name. apply eats_bind_weak.
  - apply eats_parse_statements, eats_parse_procedure_inner_statement, at_eof.
  - intros inner. auto 10 with eats.
Qed.

Lemma eats_parse_sprite_rows (max_rows fuel : nat) (name : token)
      (spr : sprite) :
  eats eof true (parse_sprite_rows max_rows fuel name spr).
Proof.
  revert spr. induction fuel as [|fuel IH]; intros spr; simpl;
    [auto with eats |].
  apply eats_bind_strict; [auto with eats |].
  intros tok. apply eats_bind_weak; [auto with eats |].
  intros value. destruct (max_rows <=? row_count spr); [auto with eats |].
  destruct (negb (imm_matches_format value fmt_imm8)); [auto with eats |].
  apply eats_bind_weak; [auto with eats |].
  intros [|]; [| auto with eats].
  eapply eats_weaken. apply IH.
Qed.

Lemma eats_parse_sprite (max_rows fuel : nat) :
  eats eof true (parse_sprite max_rows fuel).
Proof.
  unfold parse_sprite. apply eats_bind_strict; [auto with eats |].
  intros _. apply eats_bind_weak; [auto with eats |].
  intros name. apply eats_bind_weak; [auto with eats |].
  intros _. apply eats_bind_weak.
  - eapply eats_weaken. apply eats_parse_sprite_rows.
  - intros spr. auto 10 with eats.
Qed.

Lemma eats_parse_primary_statement (max_rows fuel : nat) :
  eats_statement eof (parse_primary_statement max_rows fuel).
Proof.
  intros ts o ts' H. unfold parse_primary_statement in H.
  destruct ts as [|t ts]; [inversion H; reflexivity |].
  destruct (type t); try discriminate.
  - solve_present H (eats_parse_define at_eof).
  - solve_present H (eats_parse_config at_eof).
  - solve_present H (eats_parse_sprite max_rows fuel).
  - solve_present H (eats_parse_raw at_eof).
  - solve_present H (eats_parse_procedure fuel).
  - solve_present H (eats_parse_instruction fuel at_eof).
  - solve_present H (eats_parse_label fuel at_eof).
Qed.

(** The top-level dispatcher returns the empty handle only when no token is
    left. *)
Lemma parse_primary_statement_none (max_rows fuel : nat)
      (ts ts' : list token) :
  parse_primary_statement max_rows fuel ts = Ok (None, ts') ->
  ts = [] /\ ts' = [].
Proof.
  intros H. unfold parse_primary_statement in H.
  destruct ts as [|t ts]; [inversion H; auto |].
  destruct (type t); try discriminate;
    unfold present, bind, ret in H;
    match type of H with
    | match ?m with _ => _ end = _ =>
        destruct m as [[? ?] | ? |]; discriminate
    end.
Qed.

(** A statement loop over the top-level dispatcher returns only when it has
    consumed every token, none of them an end-of-file token. *)
Lemma make_tree_fuel_consumes_all (max_rows fuel loop_fuel : nat)
      (ts rest : list token) (branches : list statement) :
  parse_statements loop_fuel (parse_primary_statement max_rows fuel) ts
    = Ok (branches, rest) ->
  rest = [] /\ Forall not_eof ts.
Proof.
  revert ts branches. induction loop_fuel as [|n IH]; intros ts branches H;
    simpl in H; [discriminate |].
  unfold bind in H.
  destruct (parse_primary_statement max_rows fuel ts)
    as [[[s|] ts1] | e |] eqn:E; try discriminate.
  - destruct (parse_statements n _ ts1) as [[more ts2] | e |] eqn:E2;
      try discriminate.
    unfold ret in H. inversion H; subst.
    destruct (IH _ _ E2) as [-> F2]. split; [reflexivity |].
    apply eats_parse_primary_statement in E. simpl in E.
    destruct E as [used [-> [F1 _]]]. apply Forall_app. auto.
  - unfold ret in H. inversion H; subst.
    apply parse_primary_statement_none in E. destruct E as [-> ->].
    split; [reflexivity | constructor].
Qed.

(** ** The iteration bound *)

Lemma finishes_bind {A B} (m : parser A) (k : A -> parser B)
      (ts : list token) :
  finishes m ts ->
  (forall a ts', m ts = Ok (a, ts') -> finishes (k a) ts') ->
  finishes (bind m k) ts.
Proof.
  unfold finishes, bind. intros Hm Hk.
  destruct (m ts) as [[a ts1] | e |]; [apply Hk; reflexivity | discriminate
                                      | congruence].
Qed.

Lemma always_finishes_bind {A B} (m : parser A) (k : A -> parser B) :
  always_finishes m -> (forall a, always_finishes (k a)) ->
  always_finishes (bind m k).
Proof.
  intros Hm Hk ts. apply finishes_bind; [apply Hm | intros; apply Hk].
Qed.

Lemma always_finishes_ret {A} (a : A) : always_finishes (ret a).
Proof. intros ts. discriminate. Qed.

Lemma always_finishes_throw {A} (e : exception) : always_finishes (@throw A e).
Proof. intros ts. discriminate. Qed.

Lemma always_finishes_to_integer (t : token) :
  always_finishes (lift (to_integer t)).
Proof. intros ts. unfold finishes, lift, to_integer. destruct (data t); discriminate. Qed.

Lemma always_finishes_expect (types : list token_type) :
  always_finishes (expect types).
Proof.
  intros ts. unfold finishes, expect, bind, advance.
  destruct ts as [|t ts]; [discriminate |].
  destruct (any_of (type t) types); discriminate.
Qed.

Lemma always_finishes_advance_if (ty : token_type) :
  always_finishes (advance_if ty).
Proof.
  intros ts. unfold finishes, advance_if. destruct ts as [|t ts]; [discriminate |].
  destruct (token_type_beq (type t) ty); discriminate.
Qed.

Lemma always_finishes_next_any_of (types : list token_type) :
  always_finishes (next_any_of types).
Proof.
  intros ts. unfold finishes, next_any_of. destruct ts; discriminate.
Qed.

Create HintDb finishes.

#[local] Hint Resolve always_finishes_ret always_finishes_throw
  always_finishes_to_integer always_finishes_expect
  always_finishes_advance_if always_finishes_next_any_of : finishes.
#[local] Hint Extern 2 (always_finishes (bind _ _)) =>
  apply always_finishes_bind; [| intro] : finishes.
#[local] Hint Extern 3 (always_finishes (if ?c then _ else _)) =>
  destruct c : finishes.

Lemma always_finishes_parse_raw : always_finishes parse_raw.
Proof. unfold parse_raw. auto 10 with finishes. Qed.

Lemma always_finishes_parse_define : always_finishes parse_define.
Proof. unfold parse_define. auto 10 with finishes. Qed.

Lemma always_finishes_parse_config : always_finishes parse_config.
Proof. unfold parse_config. auto 10 with finishes. Qed.

Lemma always_finishes_parse_operand : always_finishes parse_operand.
Proof.
  unfold parse_operand. apply always_finishes_bind; [auto with finishes |].
  intros tok. destruct (type tok); auto 10 with finishes.
Qed.

Lemma finishes_present (m : parser statement) (ts : list token) :
  finishes m ts -> finishes (present m) ts.
Proof.
  intros H. unfold present. apply finishes_bind; [exact H |].
  intros. discriminate.
Qed.

Lemma finishes_parse_operands (fuel : nat) (ts : list token) :
  length ts < fuel -> finishes (parse_operands fuel) ts.
Proof.
  revert ts. induction fuel as [|fuel IH]; intros ts Hlen; [lia |].
  simpl. apply finishes_bind; [apply always_finishes_next_any_of |].
  intros starts ts0 H0.
  assert (ts0 = ts) as ->.
  { unfold next_any_of in H0. destruct ts; inversion H0; reflexivity. }
  destruct starts; [| discriminate].
  apply finishes_bind; [apply always_finishes_parse_operand |].
  intros op ts1 H1. eapply eats_length in H1; [| apply (eats_parse_operand at_eof)].
  apply finishes_bind; [apply always_finishes_advance_if |].
  intros sep ts2 H2.
  eapply eats_length in H2; [| apply (@eats_advance_if eof comma); discriminate].
  destruct sep; [| discriminate].
  apply finishes_bind; [apply IH; lia |].
  intros. discriminate.
Qed.

Lemma finishes_parse_instruction (fuel : nat) (ts : list token) :
  length ts <= fuel -> finishes (parse_instruction fuel) ts.
Proof.
  intros Hlen. unfold parse_instruction.
  apply finishes_bind; [apply always_finishes_expect |].
  intros m ts1 H1.
  eapply eats_length in H1; [| apply (@eats_expect eof [instruction] eq_refl)].
  apply finishes_bind; [apply finishes_parse_operands; lia |].
  intros. discriminate.
Qed.

Lemma finishes_parse_statements (bound fuel : nat)
      (step : parser (option statement)) (ts : list token) :
  eats_statement eof step ->
  (forall ts0, length ts0 <= bound -> finishes step ts0) ->
  length ts <= bound -> length ts < fuel ->
  finishes (parse_statements fuel step) ts.
Proof.
  intros Hstep Hfin. revert ts.
  induction fuel as [|fuel IH]; intros ts Hb Hlen; [lia |].
  simpl. apply finishes_bind; [apply Hfin; exact Hb |].
  intros [s|] ts1 H1; [| discriminate].
  eapply eats_statement_length in H1; [| apply Hstep]. destruct H1 as [_ H1].
  specialize (H1 ltac:(discriminate)).
  apply finishes_bind; [apply IH; lia |].
  intros. discriminate.
Qed.

Lemma finishes_parse_label_inner_statement (fuel : nat) (ts : list token) :
  length ts <= fuel -> finishes (parse_label_inner_statement fuel) ts.
Proof.
  intros Hlen. unfold finishes, parse_label_inner_statement.
  destruct ts as [|t ts]; [discriminate |].
  destruct (type t); try discriminate; apply finishes_present;
    first [ apply always_finishes_parse_define
          | apply always_finishes_parse_config
          | apply always_finishes_parse_raw
          | apply finishes_parse_instruction; exact Hlen ].
Qed.

Lemma finishes_parse_label (fuel : nat) (ts : list token) :
  length ts <= fuel -> finishes (parse_label fuel) ts.
Proof.
  intros Hlen. unfold parse_label.
  apply finishes_bind; [apply always_finishes_expect |].
  intros ? ts1 H1. eapply eats_length in H1; [| apply (@eats_expect eof [dot_label] eq_refl)].
  apply finishes_bind; [apply always_finishes_expect |].
  intros ? ts2 H2. eapply eats_length in H2; [| apply (@eats_expect eof [identifier] eq_refl)].
  apply finishes_bind; [apply always_finishes_expect |].
  intros ? ts3 H3. eapply eats_length in H3; [| apply (@eats_expect eof [colon] eq_refl)].
  apply finishes_bind; [| intros; discriminate].
  apply finishes_parse_statements with (bound := fuel); try lia.
  - apply (eats_parse_label_inner_statement fuel at_eof).
  - intros. apply finishes_parse_label_inner_statement. assumption.
Qed.

Lemma finishes_parse_procedure_inner_statement (fuel : nat)
      (ts : list token) :
  length ts <= fuel -> finishes (parse_procedure_inner_statement fuel) ts.
Proof.
  intros Hlen. unfold finishes, parse_procedure_inner_statement.
  destruct ts as [|t ts]; [discriminate |].
  destruct (type t); try discriminate; apply finishes_present;
    first [ apply always_finishes_parse_define
          | apply always_finishes_parse_config
          | apply always_finishes_parse_raw
          | apply finishes_parse_instruction; exact Hlen
          | apply finishes_parse_label; exact Hlen ].
Qed.

Lemma finishes_parse_procedure (fuel : nat) (ts : list token) :
  length ts <= fuel -> finishes (parse_procedure fuel) ts.
Proof.
  intros Hlen. unfold parse_procedure.
  apply finishes_bind; [apply always_finishes_expect |].
  intros ? ts1 H1.
  eapply eats_length in H1; [| apply (@eats_expect eof [keyword_proc_start] eq_refl)].
  apply finishes_bind; [apply always_finishes_expect |].
  intros ? ts2 H2. eapply eats_length in H2; [| apply (@eats_expect eof [identifier] eq_refl)].
  apply finishes_bind.
  - apply finishes_parse_statements with (bound := fuel); try lia.
    + apply (eats_parse_procedure_inner_statement fuel at_eof).
    + intros. apply finishes_parse_procedure_inner_statement. assumption.
  - intros inner ts3 _.
    apply always_finishes_bind; [apply always_finishes_expect |].
    intros _. auto 10 with finishes.
Qed.

Lemma finishes_parse_sprite_rows (max_rows fuel : nat) (name : token)
      (spr : sprite) (ts : list token) :
  length ts <= fuel -> ts <> [] \/ 0 < fuel ->
  finishes (parse_sprite_rows max_rows fuel name spr) ts.
Proof.
  revert ts spr. induction fuel as [|fuel IH]; intros ts spr Hlen Hne.
  - destruct ts; [destruct Hne; [congruence | lia] | simpl in Hlen; lia].
  - simpl. apply finishes_bind; [apply always_finishes_expect |].
    intros tok ts1 H1.
    eapply eats_length in H1; [| apply (@eats_expect eof [numerical] eq_refl)].
    apply finishes_bind; [apply always_finishes_to_integer |].
    intros value ts2 H2.
    assert (ts2 = ts1) as ->.
    { unfold lift in H2. destruct (to_integer tok); inversion H2; reflexivity. }
    destruct (max_rows <=? row_count spr); [discriminate |].
    destruct (negb (imm_matches_format value fmt_imm8)); [discriminate |].
    apply finishes_bind; [apply always_finishes_advance_if |].
    intros again ts3 H3.
    destruct again; [| discriminate].
    unfold advance_if in H3. destruct ts1 as [|c ts1]; [discriminate |].
    destruct (token_type_beq (type c) comma); inversion H3; subst.
    simpl in H1. destruct H1 as [_ H1]. specialize (H1 eq_refl).
    apply IH; [lia |]. right. lia.
Qed.

Lemma finishes_parse_sprite (max_rows fuel : nat) (ts : list token) :
  length ts <= fuel -> finishes (parse_sprite max_rows fuel) ts.
Proof.
  intros Hlen. unfold parse_sprite.
  apply finishes_bind; [apply always_finishes_expect |].
  intros ? ts1 H1.
  eapply eats_length in H1; [| apply (@eats_expect eof [keyword_sprite] eq_refl)].
  apply finishes_bind; [apply always_finishes_expect |].
  intros ? ts2 H2. eapply eats_length in H2; [| apply (@eats_expect eof [identifier] eq_refl)].
  apply finishes_bind; [apply always_finishes_expect |].
  intros ? ts3 H3.
  eapply eats_length in H3; [| apply (@eats_expect eof [bracket_open] eq_refl)].
  apply finishes_bind.
  - apply finishes_parse_sprite_rows; [lia |]. right. lia.
  - intros spr ts4 _.
    apply always_finishes_bind; [apply always_finishes_expect |].
    intros _. apply always_finishes_ret.
Qed.

Lemma finishes_parse_primary_statement (max_rows fuel : nat)
      (ts : list token) :
  length ts <= fuel -> finishes (parse_primary_statement max_rows fuel) ts.
Proof.
  intros Hlen. unfold finishes, parse_primary_statement.
  destruct ts as [|t ts]; [discriminate |].
  destruct (type t); try discriminate; apply finishes_present;
    first [ apply always_finishes_parse_define
          | apply always_finishes_parse_config
          | apply always_finishes_parse_raw
          | apply finishes_parse_instruction; exact Hlen
          | apply finishes_parse_label; exact Hlen
          | apply finishes_parse_procedure; exact Hlen
          | apply finishes_parse_sprite; exact Hlen ].
Qed.

(** With more iterations than tokens no loop of the parser runs out. *)
Lemma finishes_make_tree_fuel (max_rows fuel : nat) (ts : list token) :
  length ts < fuel -> finishes (make_tree_fuel max_rows fuel) ts.
Proof.
  intros Hlen. unfold make_tree_fuel.
  apply finishes_parse_statements with (bound := fuel); try lia.
  - apply eats_parse_primary_statement.
  - intros. apply finishes_parse_primary_statement. assumption.
Qed.

(** ** The result does not depend on the iteration bound *)

Lemma fuel_stable_const {A} (m : parser A) : fuel_stable (fun _ => m).
Proof. intros n n' ts _ _. reflexivity. Qed.

Lemma fuel_stable_bind {A B} (f : nat -> parser A)
      (k : nat -> A -> parser B) :
  fuel_stable f -> (forall a, fuel_stable (fun n => k n a)) ->
  fuel_stable (fun n => bind (f n) (k n)).
Proof.
  intros Hf Hk n n' ts Hle Hne. unfold bind in *.
  assert (Hfn : f n ts <> OutOfFuel).
  { intros E. rewrite E in Hne. congruence. }
  rewrite (Hf n n' ts Hle Hfn).
  destruct (f n ts) as [[a ts1] | e |]; try reflexivity.
  apply (Hk a n n' ts1 Hle Hne).
Qed.

Arguments fuel_stable_bind {A B} f k _ _ _ _ _ _ _.

Lemma fuel_stable_present (f : nat -> parser statement) :
  fuel_stable f -> fuel_stable (fun n => present (f n)).
Proof.
  intros Hf. unfold present.
  apply (fuel_stable_bind f (fun _ s => ret (Some s))); [exact Hf |].
  intros s. apply fuel_stable_const.
Qed.

Lemma fuel_stable_parse_operands : fuel_stable parse_operands.
Proof.
  intros n. induction n as [|n IH]; intros n' ts Hle Hne.
  - simpl in Hne. unfold out_of_fuel in Hne. congruence.
  - destruct n' as [|n']; [lia |]. simpl in *. unfold bind in *.
    destruct (next_any_of operand_starters ts) as [[[|] ts0] | e |];
      try reflexivity.
    destruct (parse_operand ts0) as [[op ts1] | e |]; try reflexivity.
    destruct (advance_if comma ts1) as [[[|] ts2] | e |]; try reflexivity.
    assert (Hn : parse_operands n ts2 <> OutOfFuel).
    { intros E. rewrite E in Hne. congruence. }
    rewrite (IH n' ts2 ltac:(lia) Hn). reflexivity.
Qed.

Lemma fuel_stable_parse_instruction : fuel_stable parse_instruction.
Proof.
  unfold parse_instruction.
  apply (fuel_stable_bind (fun _ => expect [instruction])
           (fun n mnemonic =>
                   ops <- parse_operands n ;;
                   ret (instruction_statement mnemonic ops)));
    [apply fuel_stable_const |].
  intros mnemonic.
  apply (fuel_stable_bind (parse_operands)
           (fun _ ops => ret (instruction_statement mnemonic ops)));
    [apply fuel_stable_parse_operands |].
  intros ops. apply fuel_stable_const.
Qed.

Lemma parse_statements_fuel_stable (step : nat -> parser (option statement)) :
  fuel_stable step ->
  forall n m n' m' ts,
    n <= n' -> m <= m' ->
    parse_statements n (step m) ts <> OutOfFuel ->
    parse_statements n' (step m') ts = parse_statements n (step m) ts.
Proof.
  intros Hstep n. induction n as [|n IH]; intros m n' m' ts Hn Hm Hne.
  - simpl in Hne. unfold out_of_fuel in Hne. congruence.
  - destruct n' as [|n']; [lia |]. simpl in *. unfold bind in *.
    assert (Hs : step m ts <> OutOfFuel).
    { intros E. rewrite E in Hne. congruence. }
    rewrite (Hstep m m' ts Hm Hs).
    destruct (step m ts) as [[[s|] ts1] | e |]; try reflexivity.
    assert (Hl : parse_statements n (step m) ts1 <> OutOfFuel).
    { intros E. rewrite E in Hne. congruence. }
    rewrite (IH m n' m' ts1 ltac:(lia) Hm Hl). reflexivity.
Qed.

Lemma fuel_stable_parse_statements (step : nat -> parser (option statement)) :
  fuel_stable step -> fuel_stable (fun n => parse_statements n (step n)).
Proof.
  intros Hstep n n' ts Hle Hne.
  apply parse_statements_fuel_stable; assumption.
Qed.

Lemma fuel_stable_parse_label_inner_statement :
  fuel_stable parse_label_inner_statement.
Proof.
  intros n n' ts Hle Hne. unfold parse_label_inner_statement in *.
  destruct ts as [|t ts]; [reflexivity |].
  destruct (type t); try reflexivity.
  apply (fuel_stable_present fuel_stable_parse_instruction); assumption.
Qed.

Lemma fuel_stable_parse_label : fuel_stable parse_label.
Proof.
  unfold parse_label.
  apply (fuel_stable_bind (fun _ => expect [dot_label])
    (fun n _ =>
       name <- expect [identifier] ;;
       expect [colon] ;;
       inner <- parse_statements n (parse_label_inner_statement n) ;;
       ret (label_statement name inner))); [apply fuel_stable_const |].
  intros _.
  apply (fuel_stable_bind (fun _ => expect [identifier])
    (fun n name =>
       expect [colon] ;;
       inner <- parse_statements n (parse_label_inner_statement n) ;;
       ret (label_statement name inner))); [apply fuel_stable_const |].
  intros name.
  apply (fuel_stable_bind (fun _ => expect [colon])
    (fun n _ =>
       inner <- parse_statements n (parse_label_inner_statement n) ;;
       ret (label_statement name inner))); [apply fuel_stable_const |].
  intros _.
  apply (fuel_stable_bind (fun n => parse_statements n (parse_label_inner_statement n))
    (fun _ inner => ret (label_statement name inner))).
  - apply fuel_stable_parse_statements,
      fuel_stable_parse_label_inner_statement.
  - intros inner. apply fuel_stable_const.
Qed.

Lemma fuel_stable_parse_procedure_inner_statement :
  fuel_stable parse_procedure_inner_statement.
Proof.
  intros n n' ts Hle Hne. unfold parse_procedure_inner_statement in *.
  destruct ts as [|t ts]; [reflexivity |].
  destruct (type t); try reflexivity.
  - apply (fuel_stable_present fuel_stable_parse_instruction); assumption.
  - apply (fuel_stable_present fuel_stable_parse_label); assumption.
Qed.

Lemma fuel_stable_parse_procedure : fuel_stable parse_procedure.
Proof.
  unfold parse_procedure.
  apply (fuel_stable_bind (fun _ => expect [keyword_proc_start])
    (fun n _ =>
       proc_name_beg <- expect [identifier] ;;
       inner <- parse_statements n (parse_procedure_inner_statement n) ;;
       expect [keyword_proc_end] ;;
       proc_name_end <- expect [identifier] ;;
       if negb (token_data_eqb (data proc_name_end) (data proc_name_beg))
       then throw (unmatching_procedure_names proc_name_beg proc_name_end)
       else ret (procedure_statement proc_name_beg proc_name_end inner)));
    [apply fuel_stable_const |].
  intros _.
  apply (fuel_stable_bind (fun _ => expect [identifier])
    (fun n proc_name_beg =>
       inner <- parse_statements n (parse_procedure_inner_statement n) ;;
       expect [keyword_proc_end] ;;
       proc_name_end <- expect [identifier] ;;
       if negb (token_data_eqb (data proc_name_end) (data proc_name_beg))
       then throw (unmatching_procedure_names proc_name_beg proc_name_end)
       else ret (procedure_statement proc_name_beg proc_name_end inner)));
    [apply fuel_stable_const |].
  intros proc_name_beg.
  apply (fuel_stable_bind (fun n => parse_statements n (parse_procedure_inner_statement n))
    (fun _ inner =>
       expect [keyword_proc_end] ;;
       proc_name_end <- expect [identifier] ;;
       if negb (token_data_eqb (data proc_name_end) (data proc_name_beg))
       then throw (unmatching_procedure_names proc_name_beg proc_name_end)
       else ret (procedure_statement proc_name_beg proc_name_end inner))).
  - apply fuel_stable_parse_statements,
      fuel_stable_parse_procedure_inner_statement.
  - intros inner. apply fuel_stable_const.
Qed.

Lemma fuel_stable_parse_sprite_rows (max_rows : nat) (name : token)
      (spr : sprite) :
  fuel_stable (fun n => parse_sprite_rows max_rows n name spr).
Proof.
  intros n. revert spr. induction n as [|n IH]; intros spr n' ts Hle Hne.
  - simpl in Hne. unfold out_of_fuel in Hne. congruence.
  - destruct n' as [|n']; [lia |]. simpl in *. unfold bind in *.
    destruct (expect [numerical] ts) as [[tok ts1] | e |]; try reflexivity.
    destruct (lift (to_integer tok) ts1) as [[value ts2] | e |];
      try reflexivity.
    destruct (max_rows <=? row_count spr); [reflexivity |].
    destruct (negb (imm_matches_format value fmt_imm8)); [reflexivity |].
    destruct (advance_if comma ts2) as [[[|] ts3] | e |]; try reflexivity.
    apply IH; [lia | exact Hne].
Qed.

Lemma fuel_stable_parse_sprite (max_rows : nat) :
  fuel_stable (parse_sprite max_rows).
Proof.
  unfold parse_sprite.
  apply (fuel_stable_bind (fun _ => expect [keyword_sprite])
    (fun n _ =>
       name <- expect [identifier] ;;
       expect [bracket_open] ;;
       spr <- parse_sprite_rows max_rows n name (empty_sprite max_rows) ;;
       expect [bracket_close] ;;
       ret (sprite_statement name spr))); [apply fuel_stable_const |].
  intros _.
  apply (fuel_stable_bind (fun _ => expect [identifier])
    (fun n name =>
       expect [bracket_open] ;;
       spr <- parse_sprite_rows max_rows n name (empty_sprite max_rows) ;;
       expect [bracket_close] ;;
       ret (sprite_statement name spr))); [apply fuel_stable_const |].
  intros name.
  apply (fuel_stable_bind (fun _ => expect [bracket_open])
    (fun n _ =>
       spr <- parse_sprite_rows max_rows n name (empty_sprite max_rows) ;;
       expect [bracket_close] ;;
       ret (sprite_statement name spr))); [apply fuel_stable_const |].
  intros _.
  apply (fuel_stable_bind (fun n => parse_sprite_rows max_rows n name (empty_sprite max_rows))
    (fun _ spr =>
       expect [bracket_close] ;; ret (sprite_statement name spr))).
  - apply fuel_stable_parse_sprite_rows.
  - intros spr. apply fuel_stable_const.
Qed.

Lemma fuel_stable_parse_primary_statement (max_rows : nat) :
  fuel_stable (parse_primary_statement max_rows).
Proof.
  intros n n' ts Hle Hne. unfold parse_primary_statement in *.
  destruct ts as [|t ts]; [reflexivity |].
  destruct (type t); try reflexivity.
  - apply (fuel_stable_present (fuel_stable_parse_sprite max_rows));
      assumption.
  - apply (fuel_stable_present fuel_stable_parse_procedure); assumption.
  - apply (fuel_stable_present fuel_stable_parse_instruction); assumption.
  - apply (fuel_stable_present fuel_stable_parse_label); assumption.
Qed.

Lemma fuel_stable_make_tree_fuel (max_rows : nat) :
  fuel_stable (make_tree_fuel max_rows).
Proof.
  unfold make_tree_fuel.
  apply fuel_stable_parse_statements, fuel_stable_parse_primary_statement.
Qed.

(** Any bound greater than the number of tokens gives the result of
    [make_tree]. *)
Lemma make_tree_fuel_enough (max_rows fuel : nat) (ts : list token) :
  length ts < fuel ->
  make_tree_fuel max_rows fuel ts = make_tree_fuel max_rows (S (length ts)) ts.
Proof.
  intros Hlen. apply fuel_stable_make_tree_fuel; [lia |].
  apply finishes_make_tree_fuel. lia.
Qed.

(** ** What each parser returns *)

Lemma expect_nil (types : list token_type) :
  expect types [] = Throw expected_more_tokens.
Proof. reflexivity. Qed.

Lemma expect_cons (types : list token_type) (t : token) (ts : list token) :
  expect types (t :: ts) =
  if any_of (type t) types then Ok (t, ts) else Throw (unexpected_error t).
Proof.
  unfold expect, bind, advance. destruct (any_of (type t) types); reflexivity.
Qed.

Lemma expect_ok (types : list token_type) (ts ts' : list token) (t : token) :
  expect types ts = Ok (t, ts') ->
  ts = t :: ts' /\ any_of (type t) types = true.
Proof.
  destruct ts as [|t0 ts0]; [discriminate |].
  rewrite expect_cons. destruct (any_of (type t0) types) eqn:E;
    [| discriminate].
  intros H. inversion H; subst. auto.
Qed.

Lemma expect_one (ty : token_type) (t : token) (ts : list token) :
  type t = ty -> expect [ty] (t :: ts) = Ok (t, ts).
Proof.
  intros <-. rewrite expect_cons. unfold any_of. simpl.
  rewrite (proj2 (token_type_beq_eq (type t) (type t)) eq_refl). reflexivity.
Qed.

Arguments expect_one {ty t} ts _.

Lemma token_data_eqb_eq (a b : token_data) :
  token_data_eqb a b = true <-> a = b.
Proof.
  destruct a as [n|s], b as [m|t]; simpl.
  - rewrite Z.eqb_eq. split; congruence.
  - split; discriminate.
  - split; discriminate.
  - rewrite String.eqb_eq. split; congruence.
Qed.

(** Takes a successful run apart, one [bind] at a time. *)
Ltac step_bind H :=
  unfold bind in H;
  match type of H with
  | match ?m ?ts with _ => _ end = _ =>
      let E := fresh "E" in
      destruct (m ts) as [[? ?] | ? |] eqn:E; try discriminate
  end.

Tactic Notation "run_bind" hyp(H) "as" ident(a) ident(ts) ident(E) :=
  unfold bind in H;
  match type of H with
  | match ?m ?t with _ => _ end = _ =>
      destruct (m t) as [[a ts] | ? |] eqn:E; try discriminate
  end.

Lemma parse_define_kind (ts ts' : list token) (s : statement) :
  parse_define ts = Ok (s, ts') -> kind_of s = kind_define.
Proof.
  unfold parse_define. intros H. repeat step_bind H.
  inversion H. reflexivity.
Qed.

Lemma parse_config_kind (ts ts' : list token) (s : statement) :
  parse_config ts = Ok (s, ts') -> kind_of s = kind_config.
Proof.
  unfold parse_config. intros H. repeat step_bind H.
  inversion H. reflexivity.
Qed.

Lemma parse_raw_kind (ts ts' : list token) (s : statement) :
  parse_raw ts = Ok (s, ts') -> kind_of s = kind_raw.
Proof.
  unfold parse_raw. intros H. repeat step_bind H.
  inversion H. reflexivity.
Qed.

Lemma parse_instruction_kind (fuel : nat) (ts ts' : list token)
      (s : statement) :
  parse_instruction fuel ts = Ok (s, ts') -> kind_of s = kind_instruction.
Proof.
  unfold parse_instruction. intros H. repeat step_bind H.
  inversion H. reflexivity.
Qed.

Lemma present_ok (m : parser statement) (ts ts' : list token)
      (o : option statement) :
  present m ts = Ok (o, ts') -> exists s, o = Some s /\ m ts = Ok (s, ts').
Proof.
  unfold present. intros H. step_bind H. inversion H; subst. eauto.
Qed.

Lemma parse_statements_Forall (P : statement -> Prop) (fuel : nat)
      (step : parser (option statement)) :
  (forall ts s ts', step ts = Ok (Some s, ts') -> P s) ->
  forall ts l ts',
    parse_statements fuel step ts = Ok (l, ts') -> Forall P l.
Proof.
  intros Hstep. induction fuel as [|fuel IH]; intros ts l ts' H;
    simpl in H; [discriminate |].
  step_bind H. destruct o as [s|].
  - step_bind H. inversion H; subst. constructor; eauto.
  - inversion H. constructor.
Qed.

Lemma parse_label_inner_statement_simple (fuel : nat) (ts ts' : list token)
      (s : statement) :
  parse_label_inner_statement fuel ts = Ok (Some s, ts') ->
  is_simple s = true.
Proof.
  unfold parse_label_inner_statement. intros H.
  destruct ts as [|t ts]; [discriminate |].
  destruct (type t); try discriminate;
    apply present_ok in H; destruct H as [s0 [Hs H]]; inversion Hs; subst s0.
  - apply parse_define_kind in H. destruct s; try discriminate; reflexivity.
  - apply parse_config_kind in H. destruct s; try discriminate; reflexivity.
  - apply parse_raw_kind in H. destruct s; try discriminate; reflexivity.
  - apply parse_instruction_kind in H.
    destruct s; try discriminate; reflexivity.
Qed.

(** Where the statement loop of a label stops: at the end of the tokens, at
    the next label, or at the end of the enclosing procedure. *)
Lemma parse_label_inner_statement_stop (fuel : nat) (ts ts' : list token) :
  parse_label_inner_statement fuel ts = Ok (None, ts') ->
  ts' = ts /\
  match ts with
  | [] => True
  | t :: _ => type t = dot_label \/ type t = keyword_proc_end
  end.
Proof.
  unfold parse_label_inner_statement. intros H.
  destruct ts as [|t ts]; [inversion H; auto |].
  destruct (type t) eqn:Et; try discriminate;
    try (inversion H; auto; fail);
    apply present_ok in H; destruct H as [s0 [Hs _]]; discriminate.
Qed.

Lemma parse_statements_stop (Q : list token -> Prop) (fuel : nat)
      (step : parser (option statement)) :
  (forall ts ts', step ts = Ok (None, ts') -> Q ts') ->
  forall ts l ts', parse_statements fuel step ts = Ok (l, ts') -> Q ts'.
Proof.
  intros Hstep. induction fuel as [|fuel IH]; intros ts l ts' H; simpl in H;
    [discriminate |].
  step_bind H. destruct o as [s|].
  - step_bind H. inversion H; subst. eauto.
  - inversion H; subst. eauto.
Qed.

Lemma parse_label_statements_stop (fuel fuel' : nat) (ts ts' : list token)
      (l : list statement) :
  parse_statements fuel (parse_label_inner_statement fuel') ts = Ok (l, ts') ->
  match ts' with
  | [] => True
  | t :: _ => type t = dot_label \/ type t = keyword_proc_end
  end.
Proof.
  apply parse_statements_stop with
    (Q := fun ts' => match ts' with
                     | [] => True
                     | t :: _ => type t = dot_label \/ type t = keyword_proc_end
                     end).
  intros ts0 ts1 H. apply parse_label_inner_statement_stop in H.
  destruct H as [-> H]. exact H.
Qed.

Lemma parse_label_statements_simple (fuel fuel' : nat) (ts ts' : list token)
      (l : list statement) :
  parse_statements fuel (parse_label_inner_statement fuel') ts = Ok (l, ts') ->
  Forall (fun s => is_simple s = true) l.
Proof.
  apply parse_statements_Forall.
  intros ts0 s ts1. apply parse_label_inner_statement_simple.
Qed.

Lemma parse_label_ok (fuel : nat) (ts rest : list token) (s : statement) :
  parse_label fuel ts = Ok (s, rest) ->
  exists name inner,
    s = label_statement name inner /\
    Forall (fun x => is_simple x = true) inner /\
    match rest with
    | [] => True
    | t :: _ => type t = dot_label \/ type t = keyword_proc_end
    end.
Proof.
  unfold parse_label. intros H. repeat step_bind H.
  inversion H; subst. eexists _, _. split; [reflexivity |]. split.
  - eapply parse_label_statements_simple; eassumption.
  - eapply parse_label_statements_stop; eassumption.
Qed.

Lemma parse_procedure_inner_statement_stop (fuel : nat)
      (ts ts' : list token) :
  parse_procedure_inner_statement fuel ts = Ok (None, ts') ->
  exists e rest, ts' = e :: rest /\ type e = keyword_proc_end.
Proof.
  unfold parse_procedure_inner_statement. intros H.
  destruct ts as [|t ts]; [discriminate |].
  destruct (type t) eqn:Et; try discriminate;
    try (inversion H; subst; eauto; fail);
    apply present_ok in H; destruct H as [s0 [Hs _]]; discriminate.
Qed.

Lemma parse_procedure_inner_statement_kind (fuel : nat)
      (ts ts' : list token) (s : statement) :
  parse_procedure_inner_statement fuel ts = Ok (Some s, ts') ->
  is_simple s = true \/ is_label s = true.
Proof.
  unfold parse_procedure_inner_statement. intros H.
  destruct ts as [|t ts]; [discriminate |].
  destruct (type t); try discriminate;
    apply present_ok in H; destruct H as [s0 [Hs H]]; inversion Hs; subst s0.
  - apply parse_define_kind in H.
    left. destruct s; try discriminate; reflexivity.
  - apply parse_config_kind in H.
    left. destruct s; try discriminate; reflexivity.
  - apply parse_raw_kind in H.
    left. destruct s; try discriminate; reflexivity.
  - apply parse_instruction_kind in H.
    left. destruct s; try discriminate; reflexivity.
  - apply parse_label_ok in H. destruct H as [name [inner [-> _]]].
    right. reflexivity.
Qed.

Lemma parse_procedure_ok (fuel : nat) (ts rest : list token)
      (s : statement) :
  parse_procedure fuel ts = Ok (s, rest) ->
  exists p name_beg body e name_end inner,
    ts = p :: name_beg :: body /\
    type p = keyword_proc_start /\
    type name_beg = identifier /\
    parse_statements fuel (parse_procedure_inner_statement fuel) body
      = Ok (inner, e :: name_end :: rest) /\
    type e = keyword_proc_end /\
    type name_end = identifier /\
    data name_end = data name_beg /\
    s = procedure_statement name_beg name_end inner.
Proof.
  unfold parse_procedure. intros H.
  run_bind H as p ts1 E1. apply expect_ok in E1. destruct E1 as [-> Ep].
  run_bind H as name_beg ts2 E2. apply expect_ok in E2.
  destruct E2 as [-> Eb].
  run_bind H as inner ts3 E3.
  run_bind H as e ts4 E4. apply expect_ok in E4. destruct E4 as [-> Ee].
  run_bind H as name_end ts5 E5. apply expect_ok in E5.
  destruct E5 as [-> En].
  destruct (token_data_eqb (data name_end) (data name_beg)) eqn:Ed;
    simpl in H; [| discriminate].
  inversion H; subst.
  apply token_data_eqb_eq in Ed.
  apply any_of_In in Ep, Eb, Ee, En. simpl in Ep, Eb, Ee, En.
  exists p, name_beg, ts2, e, name_end, inner. intuition congruence.
Qed.

(** ** Statement ordering in [generate] *)

(** C1: [generate] runs the symbol pass first, whose exception ends the run
    before the generator is called, and hands the generator the top-level
    statements stably sorted by descending priority: a permutation of the
    statements, ordered by descending priority, in which the statements of
    every priority are in the order they have in the source; in particular
    two statements of equal priority stand in the sorted sequence in their
    source order. *)
Theorem generate_sorts_stably_after_sanitize
        (priority : statement -> Z)
        (sanitizer_traverse : list statement -> option exception)
        (generator_generate : list statement -> exception + list Z)
        (statements : list statement) :
  generate priority sanitizer_traverse generator_generate statements =
    match sanitizer_traverse statements with
    | Some e => Throw e
    | None =>
        match generator_generate (sorted_statements priority statements) with
        | inl e => Throw e
        | inr words => Ok words
        end
    end
  /\ Permutation (sorted_statements priority statements) statements
  /\ descending priority (sorted_statements priority statements)
  /\ (forall p,
        with_key priority p (sorted_statements priority statements) =
        with_key priority p statements)
  /\ (forall l1 l2 l3 a b,
        statements = l1 ++ a :: l2 ++ b :: l3 ->
        priority a = priority b ->
        exists s1 s2 s3,
          sorted_statements priority statements
            = s1 ++ a :: s2 ++ b :: s3).
Proof.
  split; [reflexivity |]. split; [| split; [| split]].
  - apply (stable_sort_perm priority).
  - apply (stable_sort_descending priority).
  - intros p. apply (stable_sort_stable priority).
  - intros l1 l2 l3 a b -> Hab.
    apply (@stable_sort_keeps_order _ priority). exact Hab.
Qed.

Lemma generate_sorts_stably_after_sanitize_witness :
  sorted_statements
    (fun s => match kind_of s with kind_define => 2 | _ => 1 end)%Z
    [raw_word 1; define_statement (ident "X") (num 5); raw_word 2;
     define_statement (ident "Y") (num 6)]
  = [define_statement (ident "X") (num 5);
     define_statement (ident "Y") (num 6); raw_word 1; raw_word 2]
  /\ exists s1 s2 s3,
       sorted_statements
         (fun s => match kind_of s with kind_define => 2 | _ => 1 end)%Z
         ([] ++ raw_word 1
             :: [define_statement (ident "X") (num 5)] ++ raw_word 2
             :: [define_statement (ident "Y") (num 6)])
       = s1 ++ raw_word 1 :: s2 ++ raw_word 2 :: s3.
Proof.
  split; [reflexivity |].
  apply (proj2 (proj2 (proj2 (proj2
           (@generate_sorts_stably_after_sanitize
              (fun s => match kind_of s with kind_define => 2 | _ => 1 end)%Z
              (fun _ => None) (fun _ => inr [])
              ([] ++ raw_word 1
                  :: [define_statement (ident "X") (num 5)] ++ raw_word 2
                  :: [define_statement (ident "Y") (num 6)])))))
         [] [define_statement (ident "X") (num 5)]
         [define_statement (ident "Y") (num 6)]
         (raw_word 1) (raw_word 2) eq_refl eq_refl).
Defined.

(** ** Labels *)

Lemma simple_not_label (s : statement) :
  is_simple s = true -> is_label s = false.
Proof. destruct s; simpl; congruence. Qed.

(** C2, as stated, fails: there is no source in which a label is parsed
    into the nested list of another label; in [.a: .b:] the second label is
    the second top-level statement. *)
Lemma label_never_nested_in_label :
  make_tree 15 (label_tokens "a" ++ label_tokens "b")
    = Ok [label_statement (ident "a") []; label_statement (ident "b") []]
  /\ ~ (exists fuel ts name inner rest,
          parse_label fuel ts = Ok (label_statement name inner, rest) /\
          existsb is_label inner = true).
Proof.
  split; [reflexivity |].
  intros [fuel [ts [name [inner [rest [H Hex]]]]]].
  apply parse_label_ok in H.
  destruct H as [name' [inner' [Heq [Hsimple _]]]].
  inversion Heq; subst name' inner'.
  apply existsb_exists in Hex. destruct Hex as [x [Hin Hx]].
  rewrite Forall_forall in Hsimple. specialize (Hsimple x Hin).
  apply simple_not_label in Hsimple. congruence.
Qed.

(** ** Procedures *)

(** C3: for [proc A <body> endp B], where the statement loop of the body
    stops in front of [endp B], parsing returns the procedure statement
    when the data of [B] equals the data of [A]; when they differ it throws
    [unmatching_procedure_names] carrying [A] and [B], so a returned
    procedure statement always has matching names. *)
Theorem procedure_names_must_match
        (fuel : nat) (p name_beg e name_end : token)
        (body rest : list token) (inner : list statement) :
  type p = keyword_proc_start ->
  type name_beg = identifier ->
  parse_statements fuel (parse_procedure_inner_statement fuel) body
    = Ok (inner, e :: name_end :: rest) ->
  type name_end = identifier ->
  (data name_end = data name_beg ->
   parse_procedure fuel (p :: name_beg :: body)
     = Ok (procedure_statement name_beg name_end inner, rest)) /\
  (data name_end <> data name_beg ->
   parse_procedure fuel (p :: name_beg :: body)
     = Throw (unmatching_procedure_names name_beg name_end)) /\
  (forall s rest',
     parse_procedure fuel (p :: name_beg :: body) = Ok (s, rest') ->
     data name_end = data name_beg /\
     s = procedure_statement name_beg name_end inner).
Proof.
  intros Hp Hb Hloop Hn.
  assert (He : type e = keyword_proc_end).
  { apply (parse_statements_stop
             (fun ts' => exists e0 r, ts' = e0 :: r /\
                                      type e0 = keyword_proc_end)) in Hloop.
    - destruct Hloop as [e0 [r [Heq He0]]]. inversion Heq; subst. exact He0.
    - intros ts0 ts1. apply parse_procedure_inner_statement_stop. }
  assert (Hrun :
    parse_procedure fuel (p :: name_beg :: body) =
    if token_data_eqb (data name_end) (data name_beg)
    then Ok (procedure_statement name_beg name_end inner, rest)
    else Throw (unmatching_procedure_names name_beg name_end)).
  { unfold parse_procedure, bind.
    rewrite (expect_one _ Hp), (expect_one _ Hb), Hloop,
      (expect_one _ He), (expect_one _ Hn).
    destruct (token_data_eqb (data name_end) (data name_beg)); reflexivity. }
  destruct (token_data_eqb (data name_end) (data name_beg)) eqn:Ed.
  - apply token_data_eqb_eq in Ed. repeat split.
    + intros _. exact Hrun.
    + intros Hne. contradiction.
    + exact Ed.
    + rewrite Hrun in H. inversion H. reflexivity.
  - assert (Hne : data name_end <> data name_beg).
    { intros Heq. apply token_data_eqb_eq in Heq. congruence. }
    repeat split.
    + intros Heq. contradiction.
    + intros _. exact Hrun.
    + rewrite Hrun in H. discriminate.
    + rewrite Hrun in H. discriminate.
Qed.

Lemma procedure_names_must_match_witness :
  (data (ident "bar") = data (ident "foo") ->
   parse_procedure 9
     (punct keyword_proc_start :: ident "foo"
        :: raw_tokens 1 ++ [punct keyword_proc_end; ident "bar"])
     = Ok (procedure_statement (ident "foo") (ident "bar") [raw_word 1], []))
  /\
  (data (ident "bar") <> data (ident "foo") ->
   parse_procedure 9
     (punct keyword_proc_start :: ident "foo"
        :: raw_tokens 1 ++ [punct keyword_proc_end; ident "bar"])
     = Throw (unmatching_procedure_names (ident "foo") (ident "bar")))
  /\
  (forall s rest',
     parse_procedure 9
       (punct keyword_proc_start :: ident "foo"
          :: raw_tokens 1 ++ [punct keyword_proc_end; ident "bar"])
       = Ok (s, rest') ->
     data (ident "bar") = data (ident "foo") /\
     s = procedure_statement (ident "foo") (ident "bar") [raw_word 1]).
Proof.
  apply (@procedure_names_must_match 9
           (punct keyword_proc_start) (ident "foo")
           (punct keyword_proc_end) (ident "bar")
           (raw_tokens 1 ++ [punct keyword_proc_end; ident "bar"]) []
           [raw_word 1]); reflexivity.
Defined.

Lemma simple_or_label_not_procedure (s : statement) :
  is_simple s = true \/ is_label s = true -> is_procedure s = false.
Proof. destruct s; simpl; intros [H | H]; congruence. Qed.

(** The tokens behind the opening [proc] that a successful [parse_procedure]
    consumed hold no second [proc]. *)
Lemma parse_procedure_takes_no_proc (fuel : nat) (p : token)
      (ts rest : list token) (s : statement) :
  parse_procedure fuel (p :: ts) = Ok (s, rest) ->
  exists used name_beg name_end inner,
    ts = used ++ rest /\
    Forall (not_kind keyword_proc_start) used /\
    s = procedure_statement name_beg name_end inner /\
    Forall (fun x => is_procedure x = false) inner.
Proof.
  intros H. apply parse_procedure_ok in H.
  destruct H as [p0 [nb [body [e [ne [inner
    [Hts [Hp [Hb [Hloop [He [Hn [Hd Hs]]]]]]]]]]]]].
  inversion Hts; subst p0 ts. clear Hts.
  pose proof Hloop as Hkind.
  apply (parse_statements_Forall
           (fun x => is_simple x = true \/ is_label x = true)) in Hkind;
    [| intros ts0 s0 ts1; apply parse_procedure_inner_statement_kind].
  eapply eats_parse_statements in Hloop;
    [| apply (eats_parse_procedure_inner_statement fuel at_proc_start)].
  destruct Hloop as [used [Hbody [Hused _]]].
  exists (nb :: used ++ [e; ne]), nb, ne, inner.
  split; [| split; [| split]].
  - simpl. rewrite <- app_assoc. simpl. rewrite Hbody. reflexivity.
  - constructor; [unfold not_kind; congruence |].
    apply Forall_app. split; [exact Hused |].
    constructor; [unfold not_kind; congruence |].
    constructor; [unfold not_kind; congruence | constructor].
  - exact Hs.
  - eapply Forall_impl; [| exact Hkind].
    intros x. apply simple_or_label_not_procedure.
Qed.

(** C4: in a procedure body a [proc] token at the start of a statement
    throws the exception that forbids a procedure inside another, in the
    inner dispatcher, in the statement loop and in [parse_procedure] itself;
    a label token there is handed to [parse_label] and the label it returns
    becomes a nested statement of the procedure. A procedure that parses has
    consumed no second [proc] token and holds no procedure statement. *)
Theorem no_procedure_inside_procedure
        (fuel : nat) (t : token) (rest : list token) :
  (type t = keyword_proc_start ->
   parse_procedure_inner_statement fuel (t :: rest)
     = Throw procedure_inside_another /\
   (forall n,
      parse_statements (S n) (parse_procedure_inner_statement fuel)
        (t :: rest) = Throw procedure_inside_another) /\
   (forall p name,
      type p = keyword_proc_start -> type name = identifier ->
      parse_procedure (S fuel) (p :: name :: t :: rest)
        = Throw procedure_inside_another)) /\
  (type t = dot_label ->
   forall s rest',
     parse_label fuel (t :: rest) = Ok (s, rest') ->
     parse_procedure_inner_statement fuel (t :: rest) = Ok (Some s, rest') /\
     is_label s = true) /\
  (forall s rest',
     parse_procedure fuel (t :: rest) = Ok (s, rest') ->
     exists used name_beg name_end inner,
       rest = used ++ rest' /\
       Forall (not_kind keyword_proc_start) used /\
       s = procedure_statement name_beg name_end inner /\
       Forall (fun x => is_procedure x = false) inner).
Proof.
  split; [| split].
  - intros Ht.
    assert (Hstep : forall f,
      parse_procedure_inner_statement f (t :: rest)
        = Throw procedure_inside_another).
    { intros f. unfold parse_procedure_inner_statement. rewrite Ht.
      reflexivity. }
    split; [apply Hstep |]. split.
    + intros n. simpl. unfold bind. rewrite Hstep. reflexivity.
    + intros p name Hp Hname. unfold parse_procedure, bind.
      rewrite (expect_one _ Hp), (expect_one _ Hname).
      simpl. unfold bind. rewrite Hstep. reflexivity.
  - intros Ht s rest' H.
    unfold parse_procedure_inner_statement. rewrite Ht.
    unfold present, bind. rewrite H. split; [reflexivity |].
    apply parse_label_ok in H. destruct H as [name [inner [-> _]]].
    reflexivity.
  - intros s rest'. apply parse_procedure_takes_no_proc.
Qed.

Lemma no_procedure_inside_procedure_witness :
  parse_procedure 9
    [punct keyword_proc_start; ident "f";
     punct keyword_proc_start; ident "g"]
    = Throw procedure_inside_another
  /\ parse_procedure_inner_statement 9
       (label_tokens "l" ++ [punct keyword_proc_end; ident "f"])
     = Ok (Some (label_statement (ident "l") []),
           [punct keyword_proc_end; ident "f"])
  /\ make_tree 15
       (punct keyword_proc_start :: ident "f"
          :: label_tokens "l" ++ [punct keyword_proc_end; ident "f"])
     = Ok [procedure_statement (ident "f") (ident "f")
             [label_statement (ident "l") []]].
Proof.
  split; [| split].
  - apply (proj1 (@no_procedure_inside_procedure 8
                    (punct keyword_proc_start) [ident "g"]));
      reflexivity.
  - apply (proj1 (proj2 (@no_procedure_inside_procedure 9
                           (punct dot_label)
                           [ident "l"; punct colon;
                            punct keyword_proc_end; ident "f"]))
                 eq_refl).
    reflexivity.
  - reflexivity.
Defined.

(** ** Operands *)

Lemma parse_operand_cons (t : token) (rest : list token) :
  parse_operand (t :: rest) =
  if any_of (type t) [register_name; identifier; numerical; at_label;
                      dollar_proc; hash_sprite; bracket_open]
  then
    match type t with
    | register_name => ret (make_reg t)
    | at_label => label <- expect [identifier] ;; ret (make_label label)
    | dollar_proc => proc <- expect [identifier] ;; ret (make_proc proc)
    | hash_sprite => spr <- expect [identifier] ;; ret (make_sprite spr)
    | bracket_open =>
        inner_token <- expect [identifier; numerical] ;;
        expect [bracket_close] ;;
        ret (make_indirect inner_token)
    | _ => ret (make_immediate t)
    end rest
  else Throw (unexpected_error t).
Proof.
  unfold parse_operand, bind at 1. rewrite expect_cons.
  destruct (any_of (type t) _); reflexivity.
Qed.

(** C6: [parse_operand] dispatches on the leading token. A register token
    gives a register operand; [@], [$] and [#] take the next token, which
    must be an identifier, and give a label, procedure and sprite operand,
    any other next token being thrown back as unexpected; [[] takes a number
    or an identifier and then []] and gives an indirect operand; a bare
    number or identifier gives an immediate operand. *)
Theorem parse_operand_dispatch (t : token) (rest : list token) :
  (type t = register_name ->
   parse_operand (t :: rest) = Ok (make_reg t, rest)) /\
  (type t = numerical \/ type t = identifier ->
   parse_operand (t :: rest) = Ok (make_immediate t, rest)) /\
  (forall name rest',
     rest = name :: rest' ->
     (type name = identifier ->
      (type t = at_label ->
       parse_operand (t :: rest) = Ok (make_label name, rest')) /\
      (type t = dollar_proc ->
       parse_operand (t :: rest) = Ok (make_proc name, rest')) /\
      (type t = hash_sprite ->
       parse_operand (t :: rest) = Ok (make_sprite name, rest'))) /\
     (type name <> identifier ->
      type t = at_label \/ type t = dollar_proc \/ type t = hash_sprite ->
      parse_operand (t :: rest) = Throw (unexpected_error name))) /\
  (rest = [] ->
   type t = at_label \/ type t = dollar_proc \/ type t = hash_sprite ->
   parse_operand (t :: rest) = Throw expected_more_tokens) /\
  (forall inner close rest',
     type t = bracket_open ->
     rest = inner :: close :: rest' ->
     type inner = numerical \/ type inner = identifier ->
     type close = bracket_close ->
     parse_operand (t :: rest) = Ok (make_indirect inner, rest')).
Proof.
  assert (Hname : forall name rest' (make : token -> instruction_operand),
    (type name = identifier ->
     (n <- expect [identifier] ;; ret (make n)) (name :: rest')
       = Ok (make name, rest')) /\
    (type name <> identifier ->
     (n <- expect [identifier] ;; ret (make n)) (name :: rest')
       = Throw (unexpected_error name))).
  { intros name rest' make. unfold bind. rewrite expect_cons.
    unfold any_of. simpl. rewrite orb_false_r.
    destruct (token_type_beq (type name) identifier) eqn:E.
    - apply token_type_beq_eq in E. split; [reflexivity | contradiction].
    - split; [| reflexivity]. intros H. apply token_type_beq_eq in H.
      congruence. }
  repeat split.
  - intros Ht. rewrite parse_operand_cons, Ht. reflexivity.
  - intros [Ht | Ht]; rewrite parse_operand_cons, Ht; reflexivity.
  - intros Ht. rewrite parse_operand_cons, Ht. simpl. subst rest.
    apply (Hname name rest' make_label). assumption.
  - intros Ht. rewrite parse_operand_cons, Ht. simpl. subst rest.
    apply (Hname name rest' make_proc). assumption.
  - intros Ht. rewrite parse_operand_cons, Ht. simpl. subst rest.
    apply (Hname name rest' make_sprite). assumption.
  - intros Hn [Ht | [Ht | Ht]]; rewrite parse_operand_cons, Ht; simpl;
      subst rest.
    + apply (Hname name rest' make_label). assumption.
    + apply (Hname name rest' make_proc). assumption.
    + apply (Hname name rest' make_sprite). assumption.
  - intros -> [Ht | [Ht | Ht]]; rewrite parse_operand_cons, Ht; reflexivity.
  - intros inner close rest' Ht -> Hi Hc. rewrite parse_operand_cons, Ht.
    simpl. unfold bind. rewrite expect_cons.
    assert (Hany : any_of (type inner) [identifier; numerical] = true).
    { apply any_of_In. simpl. destruct Hi as [Hi | Hi]; rewrite Hi; auto. }
    rewrite Hany. rewrite (expect_one _ Hc). reflexivity.
Qed.

Lemma parse_operand_dispatch_witness :
  parse_operand [punct register_name; punct comma]
    = Ok (make_reg (punct register_name), [punct comma])
  /\ parse_operand [num 7]
     = Ok (make_immediate (num 7), [])
  /\ parse_operand [punct at_label; ident "loop"]
     = Ok (make_label (ident "loop"), [])
  /\ parse_operand [punct dollar_proc; num 3]
     = Throw (unexpected_error (num 3))
  /\ parse_operand [punct bracket_open; ident "x"; punct bracket_close]
     = Ok (make_indirect (ident "x"), []).
Proof.
  split; [| split; [| split; [| split]]].
  - apply (proj1 (parse_operand_dispatch (punct register_name)
                    [punct comma])).
    reflexivity.
  - apply (proj1 (proj2 (parse_operand_dispatch (num 7) []))).
    left. reflexivity.
  - refine (proj1 (proj1 (proj1 (proj2 (proj2
              (parse_operand_dispatch (punct at_label) [ident "loop"])))
              (ident "loop") [] eq_refl) eq_refl) eq_refl).
  - refine (proj2 (proj1 (proj2 (proj2
              (parse_operand_dispatch (punct dollar_proc) [num 3])))
              (num 3) [] eq_refl) _ _).
    + discriminate.
    + right. left. reflexivity.
  - refine (proj2 (proj2 (proj2 (proj2
              (parse_operand_dispatch (punct bracket_open)
                 [ident "x"; punct bracket_close]))))
              (ident "x") (punct bracket_close) [] eq_refl eq_refl _ eq_refl).
    right. reflexivity.
Defined.

(** ** Sprites *)

Lemma array_set_length (a : list Z) (i : nat) (v : Z) :
  length (array_set a i v) = length a.
Proof.
  revert i. induction a as [|x a IH]; intros i; [reflexivity |].
  destruct i; simpl; [reflexivity | rewrite IH; reflexivity].
Qed.

Lemma parse_sprite_rows_ok (max_rows fuel : nat) (name : token)
      (spr spr' : sprite) (ts rest : list token) :
  parse_sprite_rows max_rows fuel name spr ts = Ok (spr', rest) ->
  row_count spr < row_count spr' <= max_rows /\
  length (sprite_data spr') = length (sprite_data spr).
Proof.
  revert spr ts. induction fuel as [|fuel IH]; intros spr ts H; simpl in H;
    [discriminate |].
  run_bind H as tok ts1 E1. run_bind H as value ts2 E2.
  destruct (max_rows <=? row_count spr) eqn:Emax; [discriminate |].
  apply Nat.leb_gt in Emax.
  destruct (negb (imm_matches_format value fmt_imm8)); [discriminate |].
  run_bind H as again ts3 E3. destruct again.
  - apply IH in H. simpl in H. rewrite array_set_length in H. lia.
  - inversion H; subst. simpl. rewrite array_set_length. lia.
Qed.

Lemma parse_sprite_ok (max_rows fuel : nat) (ts rest : list token)
      (s : statement) :
  parse_sprite max_rows fuel ts = Ok (s, rest) ->
  exists name spr,
    s = sprite_statement name spr /\
    1 <= row_count spr <= max_rows /\
    length (sprite_data spr) = max_rows.
Proof.
  unfold parse_sprite. intros H.
  run_bind H as kw ts1 E1. run_bind H as name ts2 E2.
  run_bind H as open ts3 E3. run_bind H as spr ts4 E4.
  run_bind H as close ts5 E5. inversion H; subst.
  apply parse_sprite_rows_ok in E4. simpl in E4.
  rewrite repeat_length in E4.
  exists name, spr. split; [reflexivity |]. lia.
Qed.

Lemma all_sprites_simple (P : sprite -> bool) (s : statement) :
  is_simple s = true -> all_sprites P s = true.
Proof. destruct s; simpl; congruence. Qed.

Lemma all_sprites_simple_list (P : sprite -> bool) (l : list statement) :
  Forall (fun s => is_simple s = true) l ->
  forallb (all_sprites P) l = true.
Proof.
  intros H. apply forallb_forall. rewrite Forall_forall in H.
  intros s Hs. apply all_sprites_simple. auto.
Qed.

Lemma parse_procedure_inner_statement_sprites (P : sprite -> bool)
      (fuel : nat) (ts rest : list token) (s : statement) :
  parse_procedure_inner_statement fuel ts = Ok (Some s, rest) ->
  all_sprites P s = true.
Proof.
  unfold parse_procedure_inner_statement. intros H.
  destruct ts as [|t ts]; [discriminate |].
  destruct (type t); try discriminate;
    apply present_ok in H; destruct H as [s0 [Hs H]]; inversion Hs; subst s0.
  - apply parse_define_kind in H. destruct s; try discriminate; reflexivity.
  - apply parse_config_kind in H. destruct s; try discriminate; reflexivity.
  - apply parse_raw_kind in H. destruct s; try discriminate; reflexivity.
  - apply parse_instruction_kind in H.
    destruct s; try discriminate; reflexivity.
  - apply parse_label_ok in H. destruct H as [name [inner [-> [Hs' _]]]].
    simpl. apply all_sprites_simple_list. exact Hs'.
Qed.

Lemma parse_primary_statement_sprites (max_rows fuel : nat)
      (ts rest : list token) (s : statement) :
  parse_primary_statement max_rows fuel ts = Ok (Some s, rest) ->
  all_sprites (rows_in_range max_rows) s = true.
Proof.
  unfold parse_primary_statement. intros H.
  destruct ts as [|t ts]; [discriminate |].
  destruct (type t); try discriminate;
    apply present_ok in H; destruct H as [s0 [Hs H]]; inversion Hs; subst s0.
  - apply parse_define_kind in H. destruct s; try discriminate; reflexivity.
  - apply parse_config_kind in H. destruct s; try discriminate; reflexivity.
  - apply parse_sprite_ok in H. destruct H as [name [spr [-> [Hr _]]]].
    simpl. unfold rows_in_range.
    apply andb_true_iff. split; apply Nat.leb_le; lia.
  - apply parse_raw_kind in H. destruct s; try discriminate; reflexivity.
  - apply parse_procedure_ok in H.
    destruct H as [p [nb [body [e [ne [inner
      [_ [_ [_ [Hloop [_ [_ [_ ->]]]]]]]]]]]]].
    simpl. apply forallb_forall.
    apply Forall_forall.
    eapply parse_statements_Forall; [| exact Hloop].
    intros ts0 s0 ts1. apply parse_procedure_inner_statement_sprites.
  - apply parse_instruction_kind in H.
    destruct s; try discriminate; reflexivity.
  - apply parse_label_ok in H. destruct H as [name [inner [-> [Hs' _]]]].
    simpl. apply all_sprites_simple_list. exact Hs'.
Qed.

Lemma make_tree_ok (max_rows : nat) (ts : list token)
      (branches : list statement) :
  make_tree max_rows ts = Ok branches ->
  make_tree_fuel max_rows (S (length ts)) ts = Ok (branches, []).
Proof.
  unfold make_tree. intros H.
  destruct (make_tree_fuel max_rows (S (length ts)) ts)
    as [[l rest] | e |] eqn:E; try discriminate.
  inversion H; subst.
  apply make_tree_fuel_consumes_all in E. destruct E as [-> _]. reflexivity.
Qed.

(** C10: a sprite statement the parser returns has at least one row and at
    most [MAX_SPRITE_ROWS], in an array of [MAX_SPRITE_ROWS] rows; an empty
    row list [sprite name [ ]] is rejected, the closing bracket being thrown
    back as unexpected; every sprite of a tree [make_tree] returns has its
    row count in that range. *)
Theorem sprite_has_a_row (max_rows fuel : nat) :
  (forall ts rest s,
     parse_sprite max_rows fuel ts = Ok (s, rest) ->
     exists name spr,
       s = sprite_statement name spr /\
       1 <= row_count spr <= max_rows /\
       length (sprite_data spr) = max_rows) /\
  (forall keyword name open close rest,
     type keyword = keyword_sprite -> type name = identifier ->
     type open = bracket_open -> type close = bracket_close ->
     parse_sprite max_rows (S fuel) (keyword :: name :: open :: close :: rest)
       = Throw (unexpected_error close)) /\
  (forall ts branches,
     make_tree max_rows ts = Ok branches ->
     forallb (all_sprites (rows_in_range max_rows)) branches = true).
Proof.
  split; [| split].
  - intros ts rest s. apply parse_sprite_ok.
  - intros keyword name open close rest Hk Hn Ho Hc.
    unfold parse_sprite, bind.
    rewrite (expect_one _ Hk), (expect_one _ Hn), (expect_one _ Ho).
    simpl. unfold bind. rewrite expect_cons. rewrite Hc. reflexivity.
  - intros ts branches H. apply make_tree_ok in H.
    apply forallb_forall. apply Forall_forall.
    eapply parse_statements_Forall; [| exact H].
    intros ts0 s0 ts1. apply parse_primary_statement_sprites.
Qed.

Lemma sprite_has_a_row_witness :
  parse_sprite 15 5
    [punct keyword_sprite; ident "s"; punct bracket_open;
     punct bracket_close]
    = Throw (unexpected_error (punct bracket_close))
  /\ forallb (all_sprites (rows_in_range 15))
       [sprite_statement (ident "s")
          {| sprite_data := [1; 2; 3; 0; 0; 0; 0; 0; 0; 0; 0; 0; 0; 0; 0]%Z;
             row_count := 3 |}] = true.
Proof.
  split.
  - apply (proj1 (proj2 (sprite_has_a_row 15 4))); reflexivity.
  - apply (proj2 (proj2 (sprite_has_a_row 15 4))
             (sprite_tokens (punct keyword_sprite) (ident "s")
                (punct bracket_open) (punct comma) (punct bracket_close)
                [num 1; num 2; num 3])).
    reflexivity.
Defined.

Lemma to_integer_number (t : token) (n : Z) :
  is_number t n -> to_integer t = Ok n.
Proof. intros [_ Hd]. unfold to_integer. rewrite Hd. reflexivity. Qed.

Lemma advance_if_other (ty : token_type) (t : token) (ts : list token) :
  type t <> ty -> advance_if ty (t :: ts) = Ok (false, t :: ts).
Proof.
  intros Hne. unfold advance_if.
  destruct (token_type_beq (type t) ty) eqn:E; [| reflexivity].
  apply token_type_beq_eq in E. contradiction.
Qed.

Lemma advance_if_same (ty : token_type) (t : token) (ts : list token) :
  type t = ty -> advance_if ty (t :: ts) = Ok (true, ts).
Proof.
  intros <-. unfold advance_if.
  rewrite (proj2 (token_type_beq_eq (type t) (type t)) eq_refl). reflexivity.
Qed.

Arguments advance_if_same {ty t} ts _.

(** On a well-formed row list the row loop computes [store_rows]. *)
Lemma parse_sprite_rows_separated (max_rows : nat) (name sep close : token)
      (rest : list token) :
  type sep = comma -> type close = bracket_close ->
  forall items values,
    Forall2 is_number items values -> items <> [] ->
    forall fuel spr,
      length items <= fuel ->
      parse_sprite_rows max_rows fuel name spr
        (separated sep items ++ close :: rest) =
      match store_rows max_rows name spr values with
      | inl e => Throw e
      | inr spr' => Ok (spr', close :: rest)
      end.
Proof.
  intros Hsep Hclose items values Hnum.
  induction Hnum as [|x n items values Hx Hrest IH]; intros Hne fuel spr Hlen;
    [congruence |].
  destruct fuel as [|fuel]; [simpl in Hlen; lia |].
  assert (Hhead : forall tail,
    parse_sprite_rows max_rows (S fuel) name spr (x :: tail) =
    if max_rows <=? row_count spr then
      Throw (sprite_too_much_pixels name (row_count spr) max_rows)
    else if negb (imm_matches_format n fmt_imm8) then
      Throw sprite_digit_out_of_range
    else
      (again <- advance_if comma ;;
       if again then
         parse_sprite_rows max_rows fuel name
           {| sprite_data :=
                array_set (sprite_data spr) (row_count spr) (to_uint8 n);
              row_count := S (row_count spr) |}
       else
         ret {| sprite_data :=
                  array_set (sprite_data spr) (row_count spr) (to_uint8 n);
                row_count := S (row_count spr) |}) tail).
  { intros tail. simpl. unfold bind at 1.
    rewrite (expect_one _ (proj1 Hx)).
    unfold bind at 1, lift. rewrite (to_integer_number Hx).
    destruct (max_rows <=? row_count spr); [reflexivity |].
    destruct (negb (imm_matches_format n fmt_imm8)); reflexivity. }
  destruct items as [|y items].
  - inversion Hrest; subst. simpl separated. simpl app.
    rewrite Hhead. simpl store_rows.
    destruct (max_rows <=? row_count spr); [reflexivity |].
    destruct (negb (imm_matches_format n fmt_imm8)); [reflexivity |].
    unfold bind. rewrite advance_if_other; [reflexivity |].
    rewrite Hclose. discriminate.
  - change (separated sep (x :: y :: items) ++ close :: rest)
      with (x :: sep :: (separated sep (y :: items) ++ close :: rest)).
    rewrite Hhead. simpl store_rows.
    destruct (max_rows <=? row_count spr); [reflexivity |].
    destruct (negb (imm_matches_format n fmt_imm8)); [reflexivity |].
    unfold bind. rewrite (advance_if_same _ Hsep).
    apply IH; [discriminate | simpl in Hlen; simpl; lia].
Qed.

Lemma array_set_app (l1 l2 : list Z) (x v : Z) :
  array_set (l1 ++ x :: l2) (length l1) v = l1 ++ v :: l2.
Proof.
  induction l1 as [|y l1 IH]; simpl; [reflexivity |].
  rewrite IH. reflexivity.
Qed.

Lemma to_uint8_fits (v : Z) :
  imm_matches_format v fmt_imm8 = true -> to_uint8 v = v.
Proof.
  unfold imm_matches_format, to_uint8. simpl imm_width.
  intros H. apply andb_true_iff in H. destruct H as [H0 H1].
  apply Z.leb_le in H0. apply Z.ltb_lt in H1.
  apply Z.mod_small. change (2 ^ 8)%Z with 256%Z in H1. lia.
Qed.

Lemma store_rows_fits (max_rows : nat) (name : token) (values done : list Z) :
  Forall (fun v => imm_matches_format v fmt_imm8 = true) values ->
  length done + length values <= max_rows ->
  store_rows max_rows name
    {| sprite_data := done ++ repeat 0%Z (max_rows - length done);
       row_count := length done |} values =
  inr {| sprite_data :=
           (done ++ values)
             ++ repeat 0%Z (max_rows - length (done ++ values));
         row_count := length (done ++ values) |}.
Proof.
  intros Hfit. revert done.
  induction Hfit as [|v values Hv Hfit IH]; intros done Hlen.
  - rewrite app_nil_r. reflexivity.
  - simpl in Hlen. simpl store_rows.
    destruct (Nat.leb_spec max_rows (length done)) as [Hle | Hlt]; [lia |].
    rewrite Hv. simpl negb. cbv iota.
    rewrite (to_uint8_fits _ Hv).
    replace (max_rows - length done) with (S (max_rows - S (length done)))
      by lia.
    simpl repeat. rewrite array_set_app.
    specialize (IH (done ++ [v])).
    rewrite length_app in IH. simpl in IH.
    replace (length done + 1) with (S (length done)) in IH by lia.
    rewrite <- !app_assoc in IH. simpl in IH.
    rewrite <- app_assoc. simpl.
    apply IH. lia.
Qed.

Lemma store_rows_inr (max_rows : nat) (name : token) (values : list Z)
      (spr spr' : sprite) :
  store_rows max_rows name spr values = inr spr' ->
  Forall (fun v => imm_matches_format v fmt_imm8 = true) values /\
  row_count spr' = row_count spr + length values /\
  (values <> [] -> row_count spr' <= max_rows).
Proof.
  revert spr. induction values as [|v values IH]; intros spr H; simpl in H.
  - inversion H; subst. split; [constructor |]. split; [simpl; lia |].
    congruence.
  - destruct (Nat.leb_spec max_rows (row_count spr)) as [Hle | Hlt];
      [discriminate |].
    destruct (imm_matches_format v fmt_imm8) eqn:Ev; simpl in H;
      [| discriminate].
    apply IH in H. simpl in H. destruct H as [Hf [Hc Hm]].
    split; [constructor; assumption |]. split; [simpl; lia |].
    intros _. destruct values as [|w values]; [simpl in Hc; lia |].
    apply Hm. discriminate.
Qed.

Lemma store_rows_digit (max_rows : nat) (name : token) (values : list Z)
      (spr : sprite) :
  store_rows max_rows name spr values = inl sprite_digit_out_of_range ->
  Exists (fun v => imm_matches_format v fmt_imm8 = false) values.
Proof.
  revert spr. induction values as [|v values IH]; intros spr H;
    simpl in H; [discriminate |].
  destruct (max_rows <=? row_count spr); [discriminate |].
  destruct (imm_matches_format v fmt_imm8) eqn:Ev; simpl in H.
  - apply Exists_cons_tl. eapply IH. exact H.
  - apply Exists_cons_hd. exact Ev.
Qed.

Lemma store_rows_inl (max_rows : nat) (name : token) (values : list Z)
      (spr : sprite) (e : exception) :
  store_rows max_rows name spr values = inl e ->
  row_count spr <= max_rows ->
  e = sprite_digit_out_of_range \/
  e = sprite_too_much_pixels name max_rows max_rows.
Proof.
  revert spr. induction values as [|v values IH]; intros spr H Hle;
    simpl in H; [discriminate |].
  destruct (Nat.leb_spec max_rows (row_count spr)) as [Hfull | Hlt].
  - inversion H; subst. right.
    replace (row_count spr) with max_rows by lia. reflexivity.
  - destruct (negb (imm_matches_format v fmt_imm8)).
    + inversion H. left. reflexivity.
    + apply IH in H; [exact H | simpl; lia].
Qed.

(** The same for a row list whose commas are tokens of their own. *)
Lemma parse_sprite_rows_listed (max_rows : nat) (name close : token)
      (rest : list token) :
  type close = bracket_close ->
  forall more first values,
    Forall (fun c => type c = comma) (row_commas more) ->
    Forall2 is_number (row_items first more) values ->
    forall fuel spr,
      length more < fuel ->
      parse_sprite_rows max_rows fuel name spr
        (row_list first more ++ close :: rest) =
      match store_rows max_rows name spr values with
      | inl e => Throw e
      | inr spr' => Ok (spr', close :: rest)
      end.
Proof.
  intros Hclose more.
  induction more as [|[c x] more IH];
    intros first values Hcommas Hnum fuel spr Hlen;
    (destruct fuel as [|fuel]; [simpl in Hlen; lia |]);
    unfold row_items in Hnum; inversion Hnum as [|? n ? values' Hfirst Hrest];
    subst.
  - inversion Hrest; subst. unfold row_list. cbn [flat_map app].
    cbn [parse_sprite_rows]. unfold bind at 1.
    rewrite (expect_one _ (proj1 Hfirst)).
    unfold bind at 1, lift. rewrite (to_integer_number Hfirst).
    cbn [store_rows].
    destruct (max_rows <=? row_count spr); [reflexivity |].
    destruct (negb (imm_matches_format n fmt_imm8)); [reflexivity |].
    unfold bind. rewrite advance_if_other; [reflexivity |].
    rewrite Hclose. discriminate.
  - cbn [row_commas map fst] in Hcommas.
    inversion Hcommas as [|? ? Hc Hcommas']; subst.
    change (row_list first ((c, x) :: more) ++ close :: rest)
      with (first :: c :: (row_list x more ++ close :: rest)).
    cbn [parse_sprite_rows]. unfold bind at 1.
    rewrite (expect_one _ (proj1 Hfirst)).
    unfold bind at 1, lift. rewrite (to_integer_number Hfirst).
    cbn [store_rows].
    destruct (max_rows <=? row_count spr); [reflexivity |].
    destruct (negb (imm_matches_format n fmt_imm8)); [reflexivity |].
    unfold bind. rewrite (advance_if_same _ Hc).
    apply IH; [exact Hcommas' | exact Hrest | simpl in Hlen; lia].
Qed.

(** On [sprite name [ n, n, ... ]], whatever tokens the commas are,
    [parse_sprite] computes [store_rows] on the values of the rows. *)
Lemma parse_sprite_listed (max_rows fuel : nat)
      (keyword name open close first : token)
      (more : list (token * token)) (rest : list token) (values : list Z) :
  type keyword = keyword_sprite -> type name = identifier ->
  type open = bracket_open -> type close = bracket_close ->
  Forall (fun c => type c = comma) (row_commas more) ->
  Forall2 is_number (row_items first more) values ->
  length more < fuel ->
  parse_sprite max_rows fuel
    (keyword :: name :: open :: row_list first more ++ close :: rest) =
  match store_rows max_rows name (empty_sprite max_rows) values with
  | inl e => Throw e
  | inr spr => Ok (sprite_statement name spr, rest)
  end.
Proof.
  intros Hk Hn Ho Hclose Hcommas Hnum Hlen.
  unfold parse_sprite, bind.
  rewrite (expect_one _ Hk), (expect_one _ Hn), (expect_one _ Ho).
  rewrite (@parse_sprite_rows_listed max_rows name close rest Hclose
             more first values Hcommas Hnum fuel
             (empty_sprite max_rows) Hlen).
  destruct (store_rows max_rows name (empty_sprite max_rows) values);
    [reflexivity |].
  rewrite (expect_one _ Hclose). reflexivity.
Qed.

(** C5: for [sprite name [ n, n, ... ]] with one row or more, every comma a
    token of its own, a row value that does not fit the 8-bit immediate
    format makes [parse_sprite] throw, more rows than [MAX_SPRITE_ROWS] make
    it throw (the exception for too many rows when every row fits), and
    when every row fits and there are at most [MAX_SPRITE_ROWS] rows it
    returns the sprite statement whose array holds the rows, in order, in
    front of zeros. *)
Theorem sprite_rows_checked
        (max_rows fuel : nat) (keyword name open close first : token)
        (more : list (token * token)) (rest : list token)
        (values : list Z) :
  type keyword = keyword_sprite -> type name = identifier ->
  type open = bracket_open -> type close = bracket_close ->
  Forall (fun c => type c = comma) (row_commas more) ->
  Forall2 is_number (row_items first more) values ->
  length more < fuel ->
  (Exists (fun v => imm_matches_format v fmt_imm8 = false) values ->
   exists e,
     parse_sprite max_rows fuel
       (keyword :: name :: open :: row_list first more ++ close :: rest)
       = Throw e /\
     (e = sprite_digit_out_of_range \/
      e = sprite_too_much_pixels name max_rows max_rows)) /\
  (max_rows < length values ->
   exists e,
     parse_sprite max_rows fuel
       (keyword :: name :: open :: row_list first more ++ close :: rest)
       = Throw e /\
     (e = sprite_digit_out_of_range \/
      e = sprite_too_much_pixels name max_rows max_rows) /\
     (Forall (fun v => imm_matches_format v fmt_imm8 = true) values ->
      e = sprite_too_much_pixels name max_rows max_rows)) /\
  (Forall (fun v => imm_matches_format v fmt_imm8 = true) values ->
   length values <= max_rows ->
   parse_sprite max_rows fuel
     (keyword :: name :: open :: row_list first more ++ close :: rest)
     = Ok (sprite_statement name
             {| sprite_data :=
                  values ++ repeat 0%Z (max_rows - length values);
                row_count := length values |},
           rest)).
Proof.
  intros Hk Hn Ho Hclose Hcommas Hnum Hlen.
  pose proof (@parse_sprite_listed max_rows fuel keyword name open close
                first more rest values Hk Hn Ho Hclose Hcommas Hnum Hlen)
    as Hrun.
  assert (Hvalues : values <> []).
  { unfold row_items in Hnum. inversion Hnum. discriminate. }
  assert (Hfail :
    ~ (Forall (fun v => imm_matches_format v fmt_imm8 = true) values /\
       length values <= max_rows) ->
    exists e,
      parse_sprite max_rows fuel
        (keyword :: name :: open :: row_list first more ++ close :: rest)
        = Throw e /\
      (e = sprite_digit_out_of_range \/
       e = sprite_too_much_pixels name max_rows max_rows)).
  { intros Hnot. rewrite Hrun.
    destruct (store_rows max_rows name (empty_sprite max_rows) values)
      as [e | spr] eqn:Es.
    - exists e. split; [reflexivity |].
      apply (@store_rows_inl max_rows name values
               (empty_sprite max_rows) e Es). simpl. lia.
    - exfalso. apply Hnot. apply store_rows_inr in Es.
      destruct Es as [Hf [Hc Hm]]. split; [exact Hf |].
      specialize (Hm Hvalues). simpl in Hc. lia. }
  split; [| split].
  - intros Hex. apply Hfail. intros [Hf _].
    apply Exists_exists in Hex. destruct Hex as [v [Hin Hv]].
    rewrite Forall_forall in Hf. specialize (Hf v Hin). congruence.
  - intros Hmany.
    destruct Hfail as [e [He Hkind]]; [intros [_ Hle]; lia |].
    exists e. split; [exact He |]. split; [exact Hkind |].
    intros Hfit. destruct Hkind as [-> | ->]; [| reflexivity].
    exfalso. rewrite Hrun in He.
    destruct (store_rows max_rows name (empty_sprite max_rows) values)
      as [e' | spr] eqn:Es; [| discriminate].
    inversion He; subst e'.
    apply store_rows_digit in Es. apply Exists_exists in Es.
    destruct Es as [v [Hin Hv]].
    rewrite Forall_forall in Hfit. specialize (Hfit v Hin). congruence.
  - intros Hfit Hle. rewrite Hrun.
    pose proof (@store_rows_fits max_rows name values [] Hfit) as Hs.
    simpl in Hs. rewrite Nat.sub_0_r in Hs.
    unfold empty_sprite. rewrite Hs; [reflexivity | lia].
Qed.

Lemma sprite_rows_checked_witness :
  parse_sprite 15 3
    (located 1 0 (punct keyword_sprite) :: located 1 7 (ident "s")
       :: located 1 9 (punct bracket_open)
       :: row_list (located 1 10 (num 1))
            [(located 1 11 (punct comma), located 1 13 (num 2));
             (located 1 14 (punct comma), located 1 16 (num 3))]
       ++ located 1 17 (punct bracket_close) :: [])
    = Ok (sprite_statement (located 1 7 (ident "s"))
            {| sprite_data := [1; 2; 3]%Z ++ repeat 0%Z (15 - 3);
               row_count := 3 |},
          [])
  /\ (exists e,
       parse_sprite 15 3
         (located 1 0 (punct keyword_sprite) :: located 1 7 (ident "s")
            :: located 1 9 (punct bracket_open)
            :: row_list (located 1 10 (num 1))
                 [(located 1 11 (punct comma), located 1 13 (num 300))]
            ++ located 1 16 (punct bracket_close) :: [])
         = Throw e /\
       (e = sprite_digit_out_of_range \/
        e = sprite_too_much_pixels (located 1 7 (ident "s")) 15 15))
  /\ (exists e,
       parse_sprite 2 3
         (located 1 0 (punct keyword_sprite) :: located 1 7 (ident "s")
            :: located 1 9 (punct bracket_open)
            :: row_list (located 1 10 (num 1))
                 [(located 1 11 (punct comma), located 1 13 (num 2));
                  (located 1 14 (punct comma), located 1 16 (num 3))]
            ++ located 1 17 (punct bracket_close) :: [])
         = Throw e /\
       (e = sprite_digit_out_of_range \/
        e = sprite_too_much_pixels (located 1 7 (ident "s")) 2 2) /\
       (Forall (fun v => imm_matches_format v fmt_imm8 = true)
          [1; 2; 3]%Z ->
        e = sprite_too_much_pixels (located 1 7 (ident "s")) 2 2)).
Proof.
  split; [| split].
  - refine (proj2 (proj2
      (@sprite_rows_checked 15 3 (located 1 0 (punct keyword_sprite))
         (located 1 7 (ident "s")) (located 1 9 (punct bracket_open))
         (located 1 17 (punct bracket_close)) (located 1 10 (num 1))
         [(located 1 11 (punct comma), located 1 13 (num 2));
          (located 1 14 (punct comma), located 1 16 (num 3))]
         [] [1; 2; 3]%Z
         eq_refl eq_refl eq_refl eq_refl _ _ _)) _ _).
    + repeat constructor.
    + repeat constructor.
    + simpl. lia.
    + repeat constructor.
    + simpl. lia.
  - refine (proj1
      (@sprite_rows_checked 15 3 (located 1 0 (punct keyword_sprite))
         (located 1 7 (ident "s")) (located 1 9 (punct bracket_open))
         (located 1 16 (punct bracket_close)) (located 1 10 (num 1))
         [(located 1 11 (punct comma), located 1 13 (num 300))]
         [] [1; 300]%Z
         eq_refl eq_refl eq_refl eq_refl _ _ _) _).
    + repeat constructor.
    + repeat constructor.
    + simpl. lia.
    + apply Exists_cons_tl. apply Exists_cons_hd. reflexivity.
  - refine (proj1 (proj2
      (@sprite_rows_checked 2 3 (located 1 0 (punct keyword_sprite))
         (located 1 7 (ident "s")) (located 1 9 (punct bracket_open))
         (located 1 17 (punct bracket_close)) (located 1 10 (num 1))
         [(located 1 11 (punct comma), located 1 13 (num 2));
          (located 1 14 (punct comma), located 1 16 (num 3))]
         [] [1; 2; 3]%Z
         eq_refl eq_refl eq_refl eq_refl _ _ _)) _).
    + repeat constructor.
    + repeat constructor.
    + simpl. lia.
    + simpl. lia.
Defined.

(** ** End of input *)

Lemma collect_tokens_not_eof (stream : list token) :
  Forall not_eof (collect_tokens stream).
Proof.
  induction stream as [|t stream IH]; simpl; [constructor |].
  destruct (token_type_beq (type t) eof) eqn:E; [constructor |].
  constructor; [| exact IH].
  intros Heof. apply token_type_beq_eq in Heof. congruence.
Qed.

Lemma collect_tokens_strips_eof (ts more : list token) (t : token) :
  Forall not_eof ts -> type t = eof ->
  collect_tokens (ts ++ t :: more) = ts.
Proof.
  intros Hts Ht. induction Hts as [|x ts Hx Hts IH]; simpl.
  - rewrite Ht. reflexivity.
  - destruct (token_type_beq (type x) eof) eqn:E.
    + apply token_type_beq_eq in E. contradiction.
    + rewrite IH. reflexivity.
Qed.

Lemma make_tree_total (max_rows : nat) (ts : list token) :
  (exists branches, make_tree max_rows ts = Ok branches) \/
  (exists e, make_tree max_rows ts = Throw e).
Proof.
  unfold make_tree.
  pose proof (@finishes_make_tree_fuel max_rows (S (length ts)) ts
                ltac:(lia)) as Hfin.
  unfold finishes in Hfin.
  destruct (make_tree_fuel max_rows (S (length ts)) ts)
    as [[l rest] | e |]; [left; eauto | right; eauto | congruence].
Qed.

#[local] Hint Extern 1 (eats eof true parse_operand) =>
  apply eats_parse_operand, at_eof : eats.
#[local] Hint Extern 1 (eats eof false parse_operand) =>
  eapply eats_weaken, eats_parse_operand, at_eof : eats.
#[local] Hint Extern 1 (eats eof false (parse_operands _)) =>
  apply eats_parse_operands, at_eof : eats.
#[local] Hint Extern 1 (eats eof false (parse_sprite_rows _ _ _ _)) =>
  eapply eats_weaken, eats_parse_sprite_rows : eats.
#[local] Hint Extern 1
  (eats eof false (parse_statements _ (parse_label_inner_statement _))) =>
  apply eats_parse_statements, eats_parse_label_inner_statement, at_eof
  : eats.
#[local] Hint Extern 1
  (eats eof false (parse_statements _ (parse_procedure_inner_statement _))) =>
  apply eats_parse_statements, eats_parse_procedure_inner_statement, at_eof
  : eats.

Section AppendedEof.

(** An end-of-file token put behind the tokens. *)
Variable t : token.
Hypothesis t_eof : type t = eof.

Lemma survives_ret {A} (a : A) : survives t (ret a).
Proof. intros ts x ts' H. inversion H; subst. left. reflexivity. Qed.

Lemma survives_throw {A} (e : exception) : survives t (@throw A e).
Proof. intros ts x ts' H. discriminate. Qed.

Lemma survives_out_of_fuel {A} : survives t (@out_of_fuel A).
Proof. intros ts x ts' H. discriminate. Qed.

Lemma survives_lift {A} (o : outcome A) : survives t (lift o).
Proof.
  intros ts x ts' H. unfold lift in *. destruct o; inversion H; subst.
  left. reflexivity.
Qed.

Lemma survives_expect (types : list token_type) :
  survives t (expect types).
Proof.
  intros ts x ts' H. apply expect_ok in H. destruct H as [-> Hany].
  left. simpl. rewrite expect_cons, Hany. reflexivity.
Qed.

Lemma survives_advance_if (ty : token_type) :
  ty <> eof -> survives t (advance_if ty).
Proof.
  intros Hty ts x ts' H. left. destruct ts as [|y ts].
  - inversion H; subst. simpl. apply advance_if_other. congruence.
  - simpl. unfold advance_if in *.
    destruct (token_type_beq (type y) ty); inversion H; reflexivity.
Qed.

Lemma survives_next_any_of (types : list token_type) :
  any_of eof types = false -> survives t (next_any_of types).
Proof.
  intros Hno ts x ts' H. left. destruct ts as [|y ts].
  - inversion H; subst. simpl. rewrite t_eof, Hno. reflexivity.
  - simpl. unfold next_any_of in *. inversion H; reflexivity.
Qed.

Lemma survives_bind {A B} (m : parser A) (k : A -> parser B) :
  survives t m -> (forall a, survives t (k a)) ->
  (forall a, eats eof false (k a)) ->
  survives t (bind m k).
Proof.
  intros Hm Hk Heats ts b ts' H. unfold bind in H.
  destruct (m ts) as [[a ts1] | e |] eqn:E; try discriminate.
  unfold bind.
  destruct (Hm _ _ _ E) as [Hok | [-> Hthrow]].
  - rewrite Hok. apply (Hk a _ _ _ H).
  - rewrite Hthrow. right. split; [| reflexivity].
    destruct (Heats a _ _ _ H) as [used [Happ _]].
    symmetry in Happ. apply app_eq_nil in Happ. tauto.
Qed.

Ltac survive :=
  repeat first
    [ apply survives_ret
    | apply survives_throw
    | apply survives_out_of_fuel
    | apply survives_lift
    | apply survives_expect
    | apply survives_advance_if; discriminate
    | apply survives_next_any_of; reflexivity
    | assumption
    | apply survives_bind; [| intro | intro; auto 10 with eats]
    | match goal with
      | |- survives _ (if ?c then _ else _) => destruct c
      end ].

Lemma survives_parse_raw : survives t parse_raw.
Proof. unfold parse_raw. survive. Qed.

Lemma survives_parse_define : survives t parse_define.
Proof. unfold parse_define. survive. Qed.

Lemma survives_parse_config : survives t parse_config.
Proof. unfold parse_config. survive. Qed.

Lemma survives_parse_operand : survives t parse_operand.
Proof.
  unfold parse_operand. apply survives_bind.
  - apply survives_expect.
  - intros tok. destruct (type tok); survive.
  - intros tok. destruct (type tok); auto 10 with eats.
Qed.

Lemma survives_parse_operands (fuel : nat) :
  survives t (parse_operands fuel).
Proof.
  induction fuel as [|fuel IH]; simpl; [apply survives_out_of_fuel |].
  pose proof survives_parse_operand as Hop.
  survive.
Qed.

Lemma survives_parse_instruction (fuel : nat) :
  survives t (parse_instruction fuel).
Proof.
  unfold parse_instruction.
  pose proof (survives_parse_operands fuel) as Hops.
  survive.
Qed.

Lemma survives_parse_sprite_rows (max_rows fuel : nat) (name : token)
      (spr : sprite) :
  survives t (parse_sprite_rows max_rows fuel name spr).
Proof.
  revert spr. induction fuel as [|fuel IH]; intros spr; simpl;
    [apply survives_out_of_fuel |].
  survive. apply IH.
Qed.

Lemma survives_parse_sprite (max_rows fuel : nat) :
  survives t (parse_sprite max_rows fuel).
Proof.
  unfold parse_sprite. survive. apply survives_parse_sprite_rows.
Qed.

Lemma survives_present (m : parser statement) :
  eats eof true m -> survives t m -> survives t (present m).
Proof. intros He Hm. unfold present. survive. Qed.

Lemma survives_parse_statements (fuel : nat)
      (step : parser (option statement)) :
  survives_statement t step -> eats_statement eof step ->
  survives t (parse_statements fuel step).
Proof.
  intros Hstep Heats.
  induction fuel as [|fuel IH]; simpl; [apply survives_out_of_fuel |].
  intros ts l ts' H. unfold bind in H.
  destruct (step ts) as [[[s|] ts1] | e |] eqn:E; try discriminate.
  - destruct (parse_statements fuel step ts1) as [[more ts2] | e |] eqn:E2;
      try discriminate.
    inversion H; subst. unfold bind.
    destruct (Hstep _ _ _ E) as [Hok | [-> Hthrow]].
    + rewrite Hok. destruct (IH _ _ _ E2) as [Hok2 | [-> Hthrow2]].
      * rewrite Hok2. left. reflexivity.
      * rewrite Hthrow2. right. auto.
    + rewrite Hthrow. right. split; [| reflexivity].
      apply (eats_parse_statements fuel Heats) in E2.
      destruct E2 as [used [Happ _]].
      symmetry in Happ. apply app_eq_nil in Happ. tauto.
  - inversion H; subst. unfold bind.
    pose proof (Heats _ _ _ E) as Hsame. simpl in Hsame. subst ts'.
    destruct (Hstep _ _ _ E) as [Hmore Hend].
    destruct ts as [|x ts].
    + right. split; [reflexivity |]. rewrite (Hend eq_refl). reflexivity.
    + left. rewrite Hmore by discriminate. reflexivity.
Qed.

(** A dispatcher case that hands the tokens to a statement parser. *)
Lemma survives_statement_case (m : parser statement)
      (step : parser (option statement)) (ts ts' : list token)
      (o : option statement) :
  eats eof true m -> survives t m ->
  present m ts = Ok (o, ts') ->
  step (ts ++ [t]) = present m (ts ++ [t]) ->
  match o with
  | Some _ =>
      step (ts ++ [t]) = Ok (o, ts' ++ [t]) \/
      (ts' = [] /\ step (ts ++ [t]) = Throw (unexpected_error t))
  | None =>
      (ts <> [] -> step (ts ++ [t]) = Ok (None, ts' ++ [t])) /\
      (ts = [] -> step (ts ++ [t]) = Throw (unexpected_error t))
  end.
Proof.
  intros He Hm H Hstep. rewrite Hstep.
  pose proof (present_ok _ _ H) as [s [-> _]].
  apply (survives_present He Hm _ H).
Qed.

Lemma survives_parse_label_inner_statement (fuel : nat) :
  survives_statement t (parse_label_inner_statement fuel).
Proof.
  intros ts o ts' H. unfold parse_label_inner_statement in H.
  destruct ts as [|x ts].
  - inversion H; subst. split; [congruence |]. intros _. simpl.
    unfold parse_label_inner_statement. rewrite t_eof. reflexivity.
  - destruct (type x) eqn:Ex; try discriminate;
      try (inversion H; subst; split; [| discriminate]; intros _; simpl;
           unfold parse_label_inner_statement; rewrite Ex; reflexivity);
      (eapply survives_statement_case;
       [| | exact H
        | simpl; unfold parse_label_inner_statement; rewrite Ex;
          reflexivity]).
    + apply (eats_parse_define at_eof).
    + apply survives_parse_define.
    + apply (eats_parse_config at_eof).
    + apply survives_parse_config.
    + apply (eats_parse_raw at_eof).
    + apply survives_parse_raw.
    + apply (eats_parse_instruction fuel at_eof).
    + apply survives_parse_instruction.
Qed.

Lemma survives_parse_label (fuel : nat) : survives t (parse_label fuel).
Proof.
  unfold parse_label.
  pose proof (survives_parse_statements fuel
                (survives_parse_label_inner_statement fuel)
                (eats_parse_label_inner_statement fuel at_eof)) as Hloop.
  survive.
Qed.

Lemma survives_parse_procedure_inner_statement (fuel : nat) :
  survives_statement t (parse_procedure_inner_statement fuel).
Proof.
  intros ts o ts' H. unfold parse_procedure_inner_statement in H.
  destruct ts as [|x ts]; [discriminate |].
  destruct (type x) eqn:Ex; try discriminate;
    try (inversion H; subst; split; [| discriminate]; intros _; simpl;
         unfold parse_procedure_inner_statement; rewrite Ex; reflexivity);
    (eapply survives_statement_case;
     [| | exact H
      | simpl; unfold parse_procedure_inner_statement; rewrite Ex;
        reflexivity]).
  - apply (eats_parse_define at_eof).
  - apply survives_parse_define.
  - apply (eats_parse_config at_eof).
  - apply survives_parse_config.
  - apply (eats_parse_raw at_eof).
  - apply survives_parse_raw.
  - apply (eats_parse_instruction fuel at_eof).
  - apply survives_parse_instruction.
  - apply (eats_parse_label fuel at_eof).
  - apply survives_parse_label.
Qed.

Lemma survives_parse_procedure (fuel : nat) :
  survives t (parse_procedure fuel).
Proof.
  unfold parse_procedure.
  pose proof (survives_parse_statements fuel
                (survives_parse_procedure_inner_statement fuel)
                (eats_parse_procedure_inner_statement fuel at_eof))
    as Hloop.
  survive.
Qed.

Lemma survives_parse_primary_statement (max_rows fuel : nat) :
  survives_statement t (parse_primary_statement max_rows fuel).
Proof.
  intros ts o ts' H. unfold parse_primary_statement in H.
  destruct ts as [|x ts].
  - inversion H; subst. split; [congruence |]. intros _. simpl.
    unfold parse_primary_statement. rewrite t_eof. reflexivity.
  - destruct (type x) eqn:Ex; try discriminate;
      (eapply survives_statement_case;
       [| | exact H
        | simpl; unfold parse_primary_statement; rewrite Ex;
          reflexivity]).
    + apply (eats_parse_define at_eof).
    + apply survives_parse_define.
    + apply (eats_parse_config at_eof).
    + apply survives_parse_config.
    + apply eats_parse_sprite.
    + apply survives_parse_sprite.
    + apply (eats_parse_raw at_eof).
    + apply survives_parse_raw.
    + apply eats_parse_procedure.
    + apply survives_parse_procedure.
    + apply (eats_parse_instruction fuel at_eof).
    + apply survives_parse_instruction.
    + apply (eats_parse_label fuel at_eof).
    + apply survives_parse_label.
Qed.

(** A token sequence that parses no longer does with an end-of-file token
    behind it: the token is thrown back as unexpected. *)
Lemma make_tree_appended_eof (max_rows : nat) (ts : list token)
      (branches : list statement) :
  make_tree max_rows ts = Ok branches ->
  make_tree max_rows (ts ++ [t]) = Throw (unexpected_error t).
Proof.
  intros H. apply make_tree_ok in H.
  assert (Hfuel :
    make_tree_fuel max_rows (S (length (ts ++ [t]))) ts = Ok (branches, [])).
  { rewrite <- H. apply fuel_stable_make_tree_fuel.
    - rewrite length_app. simpl. lia.
    - rewrite H. discriminate. }
  unfold make_tree.
  unfold make_tree_fuel in Hfuel.
  apply (survives_parse_statements _
           (survives_parse_primary_statement max_rows _)
           (eats_parse_primary_statement max_rows _)) in Hfuel.
  unfold make_tree_fuel.
  destruct Hfuel as [Hok | [_ Hthrow]].
  - apply make_tree_fuel_consumes_all in Hok. destruct Hok as [Hnil _].
    discriminate.
  - rewrite Hthrow. reflexivity.
Qed.

End AppendedEof.

(** ** Tokens behind the tokens a parser reads *)

Lemma stops_operands_starts (ts : list token) :
  stops_operands ts = true -> starts_operand ts = false.
Proof.
  destruct ts as [|t ts]; [reflexivity |]. simpl.
  destruct (type t); simpl; congruence.
Qed.

Lemma stops_operands_comma (ts : list token) :
  stops_operands ts = true -> advance_if comma ts = Ok (false, ts).
Proof.
  destruct ts as [|t ts]; [reflexivity |]. simpl. intros H.
  apply advance_if_other. intros Hc. rewrite Hc in H. discriminate.
Qed.

Lemma at_label_end_stops (ts : list token) :
  at_label_end ts -> stops_operands ts = true.
Proof.
  destruct ts as [|t ts]; [reflexivity |]. simpl.
  intros [H | H]; rewrite H; reflexivity.
Qed.

Lemma parse_label_inner_statement_at_end (fuel : nat) (ts : list token) :
  at_label_end ts -> parse_label_inner_statement fuel ts = Ok (None, ts).
Proof.
  unfold parse_label_inner_statement.
  destruct ts as [|t ts]; [reflexivity |]. simpl.
  intros [H | H]; rewrite H; reflexivity.
Qed.

Section CarriedTokens.

(** What is known of the tokens put behind: they do not continue an operand
    list. *)
Variable stop : list token -> Prop.
Hypothesis stop_ends_operands :
  forall rest, stop rest -> stops_operands rest = true.

Lemma carries_ret {A} (a : A) : carries stop (ret a).
Proof. intros ts x ts' rest H _. inversion H; subst. reflexivity. Qed.

Lemma carries_throw {A} (e : exception) : carries stop (@throw A e).
Proof. intros ts x ts' rest H. discriminate. Qed.

Lemma carries_out_of_fuel {A} : carries stop (@out_of_fuel A).
Proof. intros ts x ts' rest H. discriminate. Qed.

Lemma carries_lift {A} (o : outcome A) : carries stop (lift o).
Proof.
  intros ts x ts' rest H _. unfold lift in *.
  destruct o; inversion H; subst. reflexivity.
Qed.

Lemma carries_expect (types : list token_type) :
  carries stop (expect types).
Proof.
  intros ts x ts' rest H _. apply expect_ok in H. destruct H as [-> Hany].
  simpl. rewrite expect_cons, Hany. reflexivity.
Qed.

Lemma carries_advance_if : carries stop (advance_if comma).
Proof.
  intros ts x ts' rest H Hstop. destruct ts as [|y ts].
  - inversion H; subst. simpl.
    apply stops_operands_comma, stop_ends_operands, Hstop. reflexivity.
  - simpl. unfold advance_if in *.
    destruct (token_type_beq (type y) comma); inversion H; reflexivity.
Qed.

Lemma carries_next_any_of : carries stop (next_any_of operand_starters).
Proof.
  intros ts x ts' rest H Hstop. destruct ts as [|y ts].
  - inversion H; subst. simpl.
    pose proof (stops_operands_starts _
                  (stop_ends_operands (Hstop eq_refl))) as Hs.
    unfold starts_operand in Hs. unfold next_any_of.
    destruct rest as [|r rest]; [reflexivity |]. rewrite Hs. reflexivity.
  - simpl. unfold next_any_of in *. inversion H; reflexivity.
Qed.

Lemma carries_bind {A B} (m : parser A) (k : A -> parser B) :
  carries stop m -> (forall a, carries stop (k a)) ->
  (forall a, eats eof false (k a)) ->
  carries stop (bind m k).
Proof.
  intros Hm Hk Heats ts b ts' rest H Hstop. unfold bind in H.
  destruct (m ts) as [[a ts1] | e |] eqn:E; try discriminate.
  unfold bind. rewrite (Hm _ _ _ rest E).
  - apply (Hk a _ _ _ rest H Hstop).
  - intros ->. apply Hstop.
    destruct (Heats a _ _ _ H) as [used [Happ _]].
    symmetry in Happ. apply app_eq_nil in Happ. tauto.
Qed.

Ltac carry :=
  repeat first
    [ apply carries_ret
    | apply carries_throw
    | apply carries_out_of_fuel
    | apply carries_lift
    | apply carries_expect
    | apply carries_advance_if
    | apply carries_next_any_of
    | assumption
    | apply carries_bind; [| intro | intro; auto 10 with eats]
    | match goal with
      | |- carries _ (if ?c then _ else _) => destruct c
      end ].

Lemma carries_parse_raw : carries stop parse_raw.
Proof. unfold parse_raw. carry. Qed.

Lemma carries_parse_define : carries stop parse_define.
Proof. unfold parse_define. carry. Qed.

Lemma carries_parse_config : carries stop parse_config.
Proof. unfold parse_config. carry. Qed.

Lemma carries_parse_operand : carries stop parse_operand.
Proof.
  unfold parse_operand. apply carries_bind.
  - apply carries_expect.
  - intros tok. destruct (type tok); carry.
  - intros tok. destruct (type tok); auto 10 with eats.
Qed.

Lemma carries_parse_operands (fuel : nat) :
  carries stop (parse_operands fuel).
Proof.
  induction fuel as [|fuel IH]; simpl; [apply carries_out_of_fuel |].
  pose proof carries_parse_operand as Hop.
  carry.
Qed.

Lemma carries_parse_instruction (fuel : nat) :
  carries stop (parse_instruction fuel).
Proof.
  unfold parse_instruction.
  pose proof (carries_parse_operands fuel) as Hops.
  carry.
Qed.

Lemma carries_parse_sprite_rows (max_rows fuel : nat) (name : token)
      (spr : sprite) :
  carries stop (parse_sprite_rows max_rows fuel name spr).
Proof.
  revert spr. induction fuel as [|fuel IH]; intros spr; simpl;
    [apply carries_out_of_fuel |].
  carry. apply IH.
Qed.

Lemma carries_parse_sprite (max_rows fuel : nat) :
  carries stop (parse_sprite max_rows fuel).
Proof.
  unfold parse_sprite. carry. apply carries_parse_sprite_rows.
Qed.

Lemma carries_present (m : parser statement) :
  carries stop m -> carries stop (present m).
Proof. intros Hm. unfold present. carry. Qed.

Lemma carries_parse_statements (fuel : nat)
      (step : parser (option statement)) :
  carries stop step -> eats_statement eof step ->
  carries stop (parse_statements fuel step).
Proof.
  intros Hstep Heats.
  induction fuel as [|fuel IH]; simpl; [apply carries_out_of_fuel |].
  intros ts l ts' rest H Hstop. unfold bind in H.
  destruct (step ts) as [[[s|] ts1] | e |] eqn:E; try discriminate.
  - destruct (parse_statements fuel step ts1) as [[more ts2] | e |] eqn:E2;
      try discriminate.
    inversion H; subst. unfold bind.
    rewrite (Hstep _ _ _ rest E).
    + rewrite (IH _ _ _ rest E2 Hstop). reflexivity.
    + intros ->. apply Hstop.
      apply (eats_parse_statements fuel Heats) in E2.
      destruct E2 as [used [Happ _]].
      symmetry in Happ. apply app_eq_nil in Happ. tauto.
  - inversion H; subst. unfold bind.
    rewrite (Hstep _ _ _ rest E Hstop). reflexivity.
Qed.

End CarriedTokens.

(** A dispatcher case that hands the tokens to a statement parser. *)
Lemma carries_case (stop : list token -> Prop) (m : parser statement)
      (step : parser (option statement)) (ts ts' rest : list token)
      (o : option statement) :
  carries stop m ->
  present m ts = Ok (o, ts') ->
  step (ts ++ rest) = present m (ts ++ rest) ->
  (ts' = [] -> stop rest) ->
  step (ts ++ rest) = Ok (o, ts' ++ rest).
Proof.
  intros Hm H Hstep Hstop. rewrite Hstep.
  apply (carries_present Hm _ rest H Hstop).
Qed.

Lemma carries_parse_label_inner_statement (fuel : nat) :
  carries at_label_end (parse_label_inner_statement fuel).
Proof.
  intros ts o ts' rest H Hstop. unfold parse_label_inner_statement in H.
  destruct ts as [|x ts].
  - inversion H; subst. simpl.
    apply parse_label_inner_statement_at_end, Hstop. reflexivity.
  - destruct (type x) eqn:Ex; try discriminate;
      try (inversion H; subst; simpl;
           unfold parse_label_inner_statement; rewrite Ex; reflexivity);
      (eapply (@carries_case at_label_end);
       [| exact H
        | simpl; unfold parse_label_inner_statement; rewrite Ex;
          reflexivity
        | exact Hstop]).
    + apply carries_parse_define.
    + apply carries_parse_config.
    + apply carries_parse_raw.
    + apply carries_parse_instruction. exact at_label_end_stops.
Qed.

Lemma carries_parse_label (fuel : nat) :
  carries at_label_end (parse_label fuel).
Proof.
  unfold parse_label.
  pose proof (carries_parse_statements fuel
                (carries_parse_label_inner_statement fuel)
                (eats_parse_label_inner_statement fuel at_eof)) as Hloop.
  repeat first
    [ apply carries_ret
    | apply carries_expect
    | assumption
    | apply carries_bind; [| intro | intro; auto 10 with eats] ].
Qed.

Lemma carries_parse_procedure_inner_statement (fuel : nat) :
  carries at_label_end (parse_procedure_inner_statement fuel).
Proof.
  intros ts o ts' rest H Hstop. unfold parse_procedure_inner_statement in H.
  destruct ts as [|x ts]; [discriminate |].
  destruct (type x) eqn:Ex; try discriminate;
    try (inversion H; subst; simpl;
         unfold parse_procedure_inner_statement; rewrite Ex; reflexivity);
    (eapply (@carries_case at_label_end);
     [| exact H
      | simpl; unfold parse_procedure_inner_statement; rewrite Ex;
        reflexivity
      | exact Hstop]).
  - apply carries_parse_define.
  - apply carries_parse_config.
  - apply carries_parse_raw.
  - apply carries_parse_instruction. exact at_label_end_stops.
  - apply carries_parse_label.
Qed.

(** A procedure ends with its closing name: nothing behind it is looked
    at. *)
Lemma carries_parse_procedure (stop : list token -> Prop) (fuel : nat) :
  carries stop (parse_procedure fuel).
Proof.
  unfold parse_procedure. intros ts s ts' rest H _.
  run_bind H as p ts1 E1. run_bind H as name_beg ts2 E2.
  run_bind H as inner ts3 E3. run_bind H as e ts4 E4.
  run_bind H as name_end ts5 E5.
  pose proof (expect_ok _ _ E4) as [-> _].
  unfold bind.
  rewrite (@carries_expect (fun _ => True) _ _ _ _ rest E1 (fun _ => I)).
  rewrite (@carries_expect (fun _ => True) _ _ _ _ rest E2 (fun _ => I)).
  rewrite (carries_parse_statements fuel
             (carries_parse_procedure_inner_statement fuel)
             (eats_parse_procedure_inner_statement fuel at_eof)
             _ rest E3) by discriminate.
  rewrite (@carries_expect (fun _ => True) _ _ _ _ rest E4 (fun _ => I)).
  rewrite (@carries_expect (fun _ => True) _ _ _ _ rest E5 (fun _ => I)).
  destruct (negb (token_data_eqb (data name_end) (data name_beg)));
    [discriminate |].
  inversion H; subst. reflexivity.
Qed.

Lemma may_follow_stops (s : statement) (rest : list token) :
  may_follow s rest -> stops_operands rest = true.
Proof.
  unfold may_follow. destruct (is_label s); [apply at_label_end_stops |].
  intros H. exact H.
Qed.

(** A top-level statement is parsed alike with more tokens behind it, when
    they may follow it. *)
Lemma carries_parse_primary_statement (max_rows fuel : nat)
      (ts ts' rest : list token) (s : statement) :
  parse_primary_statement max_rows fuel ts = Ok (Some s, ts') ->
  (ts' = [] -> may_follow s rest) ->
  parse_primary_statement max_rows fuel (ts ++ rest)
    = Ok (Some s, ts' ++ rest).
Proof.
  intros H Hstop. unfold parse_primary_statement in H.
  destruct ts as [|x ts]; [discriminate |].
  assert (Hstops : ts' = [] -> stops_operands rest = true).
  { intros E. apply (may_follow_stops s), Hstop, E. }
  assert (Hcase : forall m,
    carries (fun r => stops_operands r = true) m ->
    present m (x :: ts) = Ok (Some s, ts') ->
    parse_primary_statement max_rows fuel ((x :: ts) ++ rest)
      = present m ((x :: ts) ++ rest) ->
    parse_primary_statement max_rows fuel ((x :: ts) ++ rest)
      = Ok (Some s, ts' ++ rest)).
  { intros m Hm Hp Hstep.
    apply (@carries_case (fun r => stops_operands r = true) m _ _ _ _ _
             Hm Hp Hstep Hstops). }
  destruct (type x) eqn:Ex; try discriminate.
  - apply (Hcase parse_define); [apply carries_parse_define | exact H |].
    simpl. unfold parse_primary_statement. rewrite Ex. reflexivity.
  - apply (Hcase parse_config); [apply carries_parse_config | exact H |].
    simpl. unfold parse_primary_statement. rewrite Ex. reflexivity.
  - apply (Hcase (parse_sprite max_rows fuel));
      [apply carries_parse_sprite; auto | exact H |].
    simpl. unfold parse_primary_statement. rewrite Ex. reflexivity.
  - apply (Hcase parse_raw); [apply carries_parse_raw | exact H |].
    simpl. unfold parse_primary_statement. rewrite Ex. reflexivity.
  - apply (Hcase (parse_procedure fuel));
      [apply carries_parse_procedure | exact H |].
    simpl. unfold parse_primary_statement. rewrite Ex. reflexivity.
  - apply (Hcase (parse_instruction fuel));
      [apply carries_parse_instruction; auto | exact H |].
    simpl. unfold parse_primary_statement. rewrite Ex. reflexivity.
  - eapply (@carries_case at_label_end);
      [ apply carries_parse_label
      | exact H
      | simpl; unfold parse_primary_statement; rewrite Ex; reflexivity
      |].
    intros E. specialize (Hstop E).
    apply present_ok in H. destruct H as [s' [Hs H]].
    inversion Hs; subst s'.
    apply parse_label_ok in H. destruct H as [name [inner [-> _]]].
    exact Hstop.
Qed.




(** ** Tokens a parser leaves behind *)

Lemma parse_statements_step (fuel : nat) (step : parser (option statement))
      (ts : list token) :
  parse_statements (S fuel) step ts =
  match step ts with
  | Ok (Some s, ts1) =>
      match parse_statements fuel step ts1 with
      | Ok (more, ts2) => Ok (s :: more, ts2)
      | Throw e => Throw e
      | OutOfFuel => OutOfFuel
      end
  | Ok (None, ts1) => Ok ([], ts1)
  | Throw e => Throw e
  | OutOfFuel => OutOfFuel
  end.
Proof.
  cbn [parse_statements]. unfold bind.
  destruct (step ts) as [[[s|] ts1] | e |]; reflexivity.
Qed.

Lemma app_same_tail {A} (l rest : list A) : l ++ rest = rest -> l = [].
Proof.
  intros H. apply (f_equal (@length A)) in H. rewrite length_app in H.
  destruct l; [reflexivity | simpl in H; lia].
Qed.

Lemma app_same_tail_r {A} (l rest : list A) : rest = l ++ rest -> l = [].
Proof. intros H. symmetry in H. apply app_same_tail in H. exact H. Qed.

Ltac same_tail H :=
  first [apply app_same_tail in H | apply app_same_tail_r in H].

Lemma cut_short_weaken {A} (m : parser A) :
  cut_short m -> cut_short_inside m.
Proof. intros H ts rest a ts' Hm _. exact (H _ _ _ _ Hm). Qed.

Lemma cut_short_ret {A} (a : A) : cut_short (ret a).
Proof.
  intros ts rest x ts' H. inversion H; subst.
  apply app_inv_tail in H2. subst. reflexivity.
Qed.

Lemma cut_short_throw {A} (e : exception) : cut_short (@throw A e).
Proof. intros ts rest x ts' H. discriminate. Qed.

Lemma cut_short_out_of_fuel {A} : cut_short (@out_of_fuel A).
Proof. intros ts rest x ts' H. discriminate. Qed.

Lemma cut_short_lift {A} (o : outcome A) : cut_short (lift o).
Proof.
  intros ts rest x ts' H. unfold lift in *.
  destruct o; inversion H; subst.
  apply app_inv_tail in H2. subst. reflexivity.
Qed.

Lemma cut_short_expect (types : list token_type) :
  cut_short (expect types).
Proof.
  intros ts rest x ts' H. apply expect_ok in H. destruct H as [Heq Hany].
  destruct ts as [|t ts].
  - exfalso. simpl in Heq. apply (f_equal (@length token)) in Heq.
    simpl in Heq. rewrite length_app in Heq. lia.
  - simpl in Heq. inversion Heq; subst.
    apply app_inv_tail in H1. subst.
    rewrite expect_cons, Hany. reflexivity.
Qed.

Lemma cut_short_advance_if (ty : token_type) :
  cut_short (advance_if ty).
Proof.
  intros ts rest x ts' H. destruct ts as [|t ts].
  - simpl in H. unfold advance_if in H. destruct rest as [|r rest].
    + inversion H. destruct ts'; [reflexivity | discriminate].
    + destruct (token_type_beq (type r) ty); inversion H.
      * exfalso. apply (f_equal (@length token)) in H2.
        rewrite length_app in H2. simpl in H2. lia.
      * same_tail H2. subst. reflexivity.
  - simpl in H. unfold advance_if in *.
    destruct (token_type_beq (type t) ty); inversion H; subst.
    + apply app_inv_tail in H2. subst. reflexivity.
    + change (t :: ts ++ rest) with ((t :: ts) ++ rest) in H2.
      apply app_inv_tail in H2. subst. reflexivity.
Qed.

Lemma cut_short_bind {A B} (m : parser A) (k : A -> parser B) :
  cut_short m -> (forall a, cut_short (k a)) ->
  (forall a, eats eof false (k a)) ->
  cut_short (bind m k).
Proof.
  intros Hm Hk Heats ts rest b ts' H. unfold bind in H.
  destruct (m (ts ++ rest)) as [[a mid] | e |] eqn:E; try discriminate.
  destruct (Heats a _ _ _ H) as [used [Hmid _]].
  rewrite app_assoc in Hmid. subst mid.
  unfold bind. rewrite (Hm _ _ _ _ E). exact (Hk a _ _ _ _ H).
Qed.

(** The first parser may have looked behind its input when it left
    nothing, but what follows takes a token. *)
Lemma cut_short_bind_strict {A B} (m : parser A) (k : A -> parser B) :
  cut_short_inside m -> (forall a, cut_short (k a)) ->
  (forall a, eats eof true (k a)) ->
  cut_short (bind m k).
Proof.
  intros Hm Hk Heats ts rest b ts' H. unfold bind in H.
  destruct (m (ts ++ rest)) as [[a mid] | e |] eqn:E; try discriminate.
  destruct (Heats a _ _ _ H) as [used [Hmid [_ Hused]]].
  rewrite app_assoc in Hmid. subst mid.
  unfold bind. rewrite (Hm _ _ _ _ E).
  - exact (Hk a _ _ _ _ H).
  - specialize (Hused eq_refl). destruct used; [congruence | discriminate].
Qed.

Ltac cut :=
  repeat first
    [ apply cut_short_ret
    | apply cut_short_throw
    | apply cut_short_out_of_fuel
    | apply cut_short_lift
    | apply cut_short_expect
    | apply cut_short_advance_if
    | assumption
    | apply cut_short_bind; [| intro | intro; auto 10 with eats]
    | match goal with
      | |- cut_short (if ?c then _ else _) => destruct c
      end ].

Lemma cut_short_parse_raw : cut_short parse_raw.
Proof. unfold parse_raw. cut. Qed.

Lemma cut_short_parse_define : cut_short parse_define.
Proof. unfold parse_define. cut. Qed.

Lemma cut_short_parse_config : cut_short parse_config.
Proof. unfold parse_config. cut. Qed.

Lemma cut_short_parse_operand : cut_short parse_operand.
Proof.
  unfold parse_operand. apply cut_short_bind.
  - apply cut_short_expect.
  - intros tok. destruct (type tok); cut.
  - intros tok. destruct (type tok); auto 10 with eats.
Qed.

Lemma cut_short_parse_operands (fuel : nat) :
  cut_short (parse_operands fuel).
Proof.
  induction fuel as [|fuel IH]; [apply cut_short_out_of_fuel |].
  pose proof cut_short_parse_operand as Hop.
  assert (Hrest : cut_short
    (op <- parse_operand ;;
     sep <- advance_if comma ;;
     if sep then more <- parse_operands fuel ;; ret (op :: more)
     else ret [op])) by cut.
  assert (Hstrict : eats eof true
    (op <- parse_operand ;;
     sep <- advance_if comma ;;
     if sep then more <- parse_operands fuel ;; ret (op :: more)
     else ret [op])) by auto 10 with eats.
  intros ts rest ops ts' H. cbn [parse_operands] in *.
  destruct ts as [|t ts].
  - cbn [app] in H. unfold bind at 1 in H. unfold bind at 1.
    destruct rest as [|r rest]; cbn [next_any_of] in *.
    + inversion H. destruct ts'; [reflexivity | discriminate].
    + destruct (any_of (type r) operand_starters).
      * exfalso. destruct (Hstrict _ _ _ H) as [used [Heq [_ Hused]]].
        specialize (Hused eq_refl).
        rewrite app_assoc in Heq. symmetry in Heq.
        apply app_same_tail in Heq. apply app_eq_nil in Heq. tauto.
      * inversion H. same_tail H2. subst. reflexivity.
  - cbn [app] in H. unfold bind at 1 in H. unfold bind at 1.
    cbn [next_any_of] in *.
    destruct (any_of (type t) operand_starters).
    + apply (Hrest (t :: ts) rest). exact H.
    + apply (@cut_short_ret _ [] (t :: ts) rest). exact H.
Qed.

Lemma cut_short_parse_instruction (fuel : nat) :
  cut_short (parse_instruction fuel).
Proof.
  unfold parse_instruction.
  pose proof (cut_short_parse_operands fuel) as Hops.
  cut.
Qed.

Lemma cut_short_parse_sprite_rows (max_rows fuel : nat) (name : token)
      (spr : sprite) :
  cut_short (parse_sprite_rows max_rows fuel name spr).
Proof.
  revert spr. induction fuel as [|fuel IH]; intros spr; simpl;
    [apply cut_short_out_of_fuel |].
  cut. apply IH.
Qed.

Lemma cut_short_parse_sprite (max_rows fuel : nat) :
  cut_short (parse_sprite max_rows fuel).
Proof.
  unfold parse_sprite. cut. apply cut_short_parse_sprite_rows.
Qed.

Lemma cut_short_present (m : parser statement) :
  cut_short m -> cut_short (present m).
Proof. intros Hm. unfold present. cut. Qed.

Lemma cut_short_parse_statements (fuel : nat)
      (step : parser (option statement)) :
  cut_short step -> eats_statement eof step ->
  cut_short (parse_statements fuel step).
Proof.
  intros Hstep Heats.
  induction fuel as [|fuel IH]; [apply cut_short_out_of_fuel |].
  intros ts rest l ts' H. rewrite parse_statements_step in *.
  destruct (step (ts ++ rest)) as [[[s|] mid] | e |] eqn:E;
    try discriminate.
  - destruct (parse_statements fuel step mid) as [[more ts2] | e |] eqn:E2;
      try discriminate.
    inversion H; subst.
    destruct (eats_parse_statements fuel Heats _ E2) as [used [Hmid _]].
    rewrite app_assoc in Hmid. subst mid.
    rewrite (Hstep _ _ _ _ E), (IH _ _ _ _ E2). reflexivity.
  - inversion H; subst. rewrite (Hstep _ _ _ _ E). reflexivity.
Qed.

Lemma cut_short_inside_parse_statements (fuel : nat)
      (step : parser (option statement)) :
  cut_short_inside step -> eats_statement eof step ->
  cut_short_inside (parse_statements fuel step).
Proof.
  intros Hstep Heats.
  induction fuel as [|fuel IH]; [intros ts rest l ts' H; discriminate |].
  intros ts rest l ts' H Hne. rewrite parse_statements_step in *.
  destruct (step (ts ++ rest)) as [[[s|] mid] | e |] eqn:E;
    try discriminate.
  - destruct (parse_statements fuel step mid) as [[more ts2] | e |] eqn:E2;
      try discriminate.
    inversion H; subst.
    destruct (eats_parse_statements fuel Heats _ E2) as [used [Hmid _]].
    rewrite app_assoc in Hmid. subst mid.
    rewrite (Hstep _ _ _ _ E), (IH _ _ _ _ E2 Hne); [reflexivity |].
    destruct used; [exact Hne | discriminate].
  - inversion H; subst. rewrite (Hstep _ _ _ _ E Hne). reflexivity.
Qed.

(** A dispatcher that has no token of its own to look at returned the
    empty handle, or nothing. *)
Lemma cut_short_at_end (step : parser (option statement))
      (rest ts' : list token) (o : option statement) :
  eats_statement eof step ->
  step rest = Ok (o, ts' ++ rest) -> o = None /\ ts' = [].
Proof.
  intros Heats H. pose proof (Heats _ _ _ H) as He.
  destruct o as [s|].
  - exfalso. destruct He as [used [Heq [_ Hused]]].
    rewrite app_assoc in Heq. same_tail Heq.
    apply app_eq_nil in Heq. tauto.
  - split; [reflexivity |]. same_tail He. exact He.
Qed.

Lemma cut_short_case (m : parser statement)
      (step : parser (option statement)) (ts ts' rest : list token)
      (o : option statement) :
  cut_short m ->
  step (ts ++ rest) = Ok (o, ts' ++ rest) ->
  step (ts ++ rest) = present m (ts ++ rest) ->
  step ts = present m ts ->
  step ts = Ok (o, ts').
Proof.
  intros Hm H Hlong Hshort. rewrite Hshort. rewrite Hlong in H.
  eapply (cut_short_present Hm). exact H.
Qed.

Lemma cut_short_parse_label_inner_statement (fuel : nat) :
  cut_short (parse_label_inner_statement fuel).
Proof.
  intros ts rest o ts' H. destruct ts as [|x ts].
  - destruct (cut_short_at_end _ _
                (eats_parse_label_inner_statement fuel at_eof) H)
      as [-> ->].
    reflexivity.
  - pose proof H as H'. unfold parse_label_inner_statement in H'.
    cbn [app] in H'.
    destruct (type x) eqn:Ex; try discriminate;
      try (inversion H' as [[Ho Ht]];
           change (x :: ts ++ rest) with ((x :: ts) ++ rest) in Ht;
           apply app_inv_tail in Ht; subst;
           unfold parse_label_inner_statement; rewrite Ex; reflexivity);
      (eapply cut_short_case;
       [| exact H
        | cbn [app]; unfold parse_label_inner_statement; rewrite Ex;
          reflexivity
        | unfold parse_label_inner_statement; rewrite Ex; reflexivity]).
    + apply cut_short_parse_define.
    + apply cut_short_parse_config.
    + apply cut_short_parse_raw.
    + apply cut_short_parse_instruction.
Qed.

Lemma cut_short_parse_label (fuel : nat) : cut_short (parse_label fuel).
Proof.
  unfold parse_label.
  pose proof (cut_short_parse_statements fuel
                (cut_short_parse_label_inner_statement fuel)
                (eats_parse_label_inner_statement fuel at_eof)) as Hloop.
  cut.
Qed.

Lemma cut_short_parse_procedure_inner_statement (fuel : nat) :
  cut_short_inside (parse_procedure_inner_statement fuel).
Proof.
  intros ts rest o ts' H Hne. destruct ts as [|x ts].
  - destruct (cut_short_at_end _ _
                (eats_parse_procedure_inner_statement fuel at_eof) H)
      as [_ ->].
    congruence.
  - pose proof H as H'. unfold parse_procedure_inner_statement in H'.
    cbn [app] in H'.
    destruct (type x) eqn:Ex; try discriminate;
      try (inversion H' as [[Ho Ht]];
           change (x :: ts ++ rest) with ((x :: ts) ++ rest) in Ht;
           apply app_inv_tail in Ht; subst;
           unfold parse_procedure_inner_statement; rewrite Ex;
           reflexivity);
      (eapply cut_short_case;
       [| exact H
        | cbn [app]; unfold parse_procedure_inner_statement; rewrite Ex;
          reflexivity
        | unfold parse_procedure_inner_statement; rewrite Ex;
          reflexivity]).
    + apply cut_short_parse_define.
    + apply cut_short_parse_config.
    + apply cut_short_parse_raw.
    + apply cut_short_parse_instruction.
    + apply cut_short_parse_label.
Qed.

Lemma cut_short_parse_procedure (fuel : nat) :
  cut_short (parse_procedure fuel).
Proof.
  unfold parse_procedure.
  apply cut_short_bind; [apply cut_short_expect | intro | auto 10 with eats].
  apply cut_short_bind; [apply cut_short_expect | intro | auto 10 with eats].
  apply cut_short_bind_strict.
  - apply cut_short_inside_parse_statements.
    + apply cut_short_parse_procedure_inner_statement.
    + apply (eats_parse_procedure_inner_statement fuel at_eof).
  - intros inner. cut.
  - intros inner. auto 10 with eats.
Qed.

Lemma cut_short_parse_primary_statement (max_rows fuel : nat) :
  cut_short (parse_primary_statement max_rows fuel).
Proof.
  intros ts rest o ts' H. destruct ts as [|x ts].
  - destruct (cut_short_at_end _ _
                (eats_parse_primary_statement max_rows fuel) H)
      as [-> ->].
    reflexivity.
  - pose proof H as H'. unfold parse_primary_statement in H'.
    cbn [app] in H'.
    destruct (type x) eqn:Ex; try discriminate;
      (eapply cut_short_case;
       [| exact H
        | cbn [app]; unfold parse_primary_statement; rewrite Ex;
          reflexivity
        | unfold parse_primary_statement; rewrite Ex; reflexivity]).
    + apply cut_short_parse_define.
    + apply cut_short_parse_config.
    + apply cut_short_parse_sprite.
    + apply cut_short_parse_raw.
    + apply cut_short_parse_procedure.
    + apply cut_short_parse_instruction.
    + apply cut_short_parse_label.
Qed.
(** ** The parser does not look at source locations *)

Lemma blind_expect (types : list token_type) :
  blind unlocated (expect types).
Proof.
  intros [|t ts]; [reflexivity |].
  cbn [map]. rewrite !expect_cons. cbn [unlocated type].
  destruct (any_of (type t) types); reflexivity.
Qed.

Lemma blind_advance_if (ty : token_type) :
  blind (fun b : bool => b) (advance_if ty).
Proof.
  intros [|t ts]; [reflexivity |].
  cbn [map advance_if unlocated type].
  destruct (token_type_beq (type t) ty); reflexivity.
Qed.

Lemma blind_next_any_of (types : list token_type) :
  blind (fun b : bool => b) (next_any_of types).
Proof. intros [|t ts]; reflexivity. Qed.

Lemma blind_ret {A} (f : A -> A) (x y : A) :
  x = f y -> blind_pair f (ret x) (ret y).
Proof. intros -> ts. reflexivity. Qed.

Lemma blind_throw {A} (f : A -> A) (e e' : exception) :
  e = unlocated_exception e' -> blind_pair f (@throw A e) (throw e').
Proof. intros -> ts. reflexivity. Qed.

Lemma blind_out_of_fuel {A} (f : A -> A) :
  blind_pair f (@out_of_fuel A) out_of_fuel.
Proof. intros ts. reflexivity. Qed.

Lemma blind_to_integer (t : token) :
  blind_pair (fun n : Z => n) (lift (to_integer (unlocated t)))
    (lift (to_integer t)).
Proof.
  intros ts. unfold lift, to_integer. cbn [unlocated data].
  destruct (data t); reflexivity.
Qed.

Lemma blind_bind {A B} (f : A -> A) (g : B -> B) (m m' : parser A)
      (k k' : A -> parser B) :
  blind_pair f m m' -> (forall a, blind_pair g (k (f a)) (k' a)) ->
  blind_pair g (bind m k) (bind m' k').
Proof.
  intros Hm Hk ts. unfold bind. rewrite Hm.
  destruct (m' ts) as [[a ts1] | e |]; cbn [unlocated_result];
    [apply Hk | reflexivity | reflexivity].
Qed.

Ltac blindly :=
  repeat first
    [ apply blind_expect
    | apply blind_advance_if
    | apply blind_next_any_of
    | apply blind_to_integer
    | apply blind_out_of_fuel
    | apply blind_ret; reflexivity
    | apply blind_throw; reflexivity
    | eassumption
    | eapply blind_bind; [| intro]
    | progress cbv beta
    | progress cbn [unlocated type data]
    | match goal with
      | |- blind_pair _ (if ?c then _ else _) (if ?c then _ else _) =>
          destruct c
      end ].

Lemma blind_parse_raw : blind unlocated_statement parse_raw.
Proof. unfold blind, parse_raw. blindly. Qed.

Lemma blind_parse_define : blind unlocated_statement parse_define.
Proof. unfold blind, parse_define. blindly. Qed.

Lemma blind_parse_config : blind unlocated_statement parse_config.
Proof. unfold blind, parse_config. blindly. Qed.

Lemma blind_parse_operand : blind unlocated_operand parse_operand.
Proof.
  unfold blind, parse_operand. eapply blind_bind; [apply blind_expect |].
  intros tok. cbn [unlocated type]. destruct (type tok); blindly.
Qed.

Lemma blind_parse_operands (fuel : nat) :
  blind (map unlocated_operand) (parse_operands fuel).
Proof.
  unfold blind. induction fuel as [|fuel IH]; cbn [parse_operands];
    [apply blind_out_of_fuel |].
  pose proof blind_parse_operand as Hop. unfold blind in Hop.
  blindly.
Qed.

Lemma blind_parse_instruction (fuel : nat) :
  blind unlocated_statement (parse_instruction fuel).
Proof.
  unfold blind, parse_instruction.
  pose proof (blind_parse_operands fuel) as Hops. unfold blind in Hops.
  blindly.
Qed.

Lemma blind_parse_sprite_rows (max_rows fuel : nat) (name : token)
      (spr : sprite) :
  blind_pair (fun s : sprite => s)
    (parse_sprite_rows max_rows fuel (unlocated name) spr)
    (parse_sprite_rows max_rows fuel name spr).
Proof.
  revert spr. induction fuel as [|fuel IH]; intros spr;
    cbn [parse_sprite_rows]; [apply blind_out_of_fuel |].
  blindly. apply IH.
Qed.

Lemma blind_parse_sprite (max_rows fuel : nat) :
  blind unlocated_statement (parse_sprite max_rows fuel).
Proof.
  unfold blind, parse_sprite. blindly. apply blind_parse_sprite_rows.
Qed.

Lemma blind_present (m : parser statement) :
  blind unlocated_statement m ->
  blind (option_map unlocated_statement) (present m).
Proof. unfold blind, present. intros Hm. blindly. Qed.

Lemma blind_parse_statements (fuel : nat)
      (step : parser (option statement)) :
  blind (option_map unlocated_statement) step ->
  blind (map unlocated_statement) (parse_statements fuel step).
Proof.
  unfold blind. intros Hstep.
  induction fuel as [|fuel IH]; cbn [parse_statements];
    [apply blind_out_of_fuel |].
  eapply blind_bind; [exact Hstep |].
  intros [s|]; cbn [option_map]; blindly.
Qed.

Lemma blind_parse_label_inner_statement (fuel : nat) :
  blind (option_map unlocated_statement) (parse_label_inner_statement fuel).
Proof.
  intros [|t ts]; [reflexivity |].
  unfold parse_label_inner_statement. cbn [map unlocated type].
  change (unlocated t :: map unlocated ts) with (map unlocated (t :: ts)).
  destruct (type t); try reflexivity.
  - apply (blind_present blind_parse_define).
  - apply (blind_present blind_parse_config).
  - apply (blind_present blind_parse_raw).
  - apply (blind_present (blind_parse_instruction fuel)).
Qed.

Lemma blind_parse_label (fuel : nat) :
  blind unlocated_statement (parse_label fuel).
Proof.
  unfold blind, parse_label.
  pose proof (blind_parse_statements fuel
                (blind_parse_label_inner_statement fuel)) as Hloop.
  unfold blind in Hloop. blindly.
Qed.

Lemma blind_parse_procedure_inner_statement (fuel : nat) :
  blind (option_map unlocated_statement)
    (parse_procedure_inner_statement fuel).
Proof.
  intros [|t ts]; [reflexivity |].
  unfold parse_procedure_inner_statement. cbn [map unlocated type].
  change (unlocated t :: map unlocated ts) with (map unlocated (t :: ts)).
  destruct (type t); try reflexivity.
  - apply (blind_present blind_parse_define).
  - apply (blind_present blind_parse_config).
  - apply (blind_present blind_parse_raw).
  - apply (blind_present (blind_parse_instruction fuel)).
  - apply (blind_present (blind_parse_label fuel)).
Qed.

Lemma blind_parse_procedure (fuel : nat) :
  blind unlocated_statement (parse_procedure fuel).
Proof.
  unfold blind, parse_procedure.
  pose proof (blind_parse_statements fuel
                (blind_parse_procedure_inner_statement fuel)) as Hloop.
  unfold blind in Hloop. blindly.
Qed.

Lemma blind_parse_primary_statement (max_rows fuel : nat) :
  blind (option_map unlocated_statement)
    (parse_primary_statement max_rows fuel).
Proof.
  intros [|t ts]; [reflexivity |].
  unfold parse_primary_statement. cbn [map unlocated type].
  change (unlocated t :: map unlocated ts) with (map unlocated (t :: ts)).
  destruct (type t); try reflexivity.
  - apply (blind_present blind_parse_define).
  - apply (blind_present blind_parse_config).
  - apply (blind_present (blind_parse_sprite max_rows fuel)).
  - apply (blind_present blind_parse_raw).
  - apply (blind_present (blind_parse_procedure fuel)).
  - apply (blind_present (blind_parse_instruction fuel)).
  - apply (blind_present (blind_parse_label fuel)).
Qed.

Lemma make_tree_unlocated (max_rows : nat) (ts : list token) :
  make_tree max_rows (map unlocated ts)
    = unlocated_tree (make_tree max_rows ts).
Proof.
  unfold make_tree, make_tree_fuel. rewrite length_map.
  rewrite (blind_parse_statements _
             (blind_parse_primary_statement max_rows _) ts).
  destruct (parse_statements _ _ ts) as [[tree rest] | e |]; reflexivity.
Qed.

(** Token vectors that differ in the places only parse alike. *)
Lemma make_tree_same_text (max_rows : nat) (ts ts' : list token)
      (tree : list statement) :
  map unlocated ts' = map unlocated ts ->
  make_tree max_rows ts = Ok tree ->
  exists tree',
    make_tree max_rows ts' = Ok tree' /\
    map unlocated_statement tree' = map unlocated_statement tree.
Proof.
  intros Hsame H.
  pose proof (make_tree_unlocated max_rows ts') as H'.
  rewrite Hsame, make_tree_unlocated, H in H'. cbn [unlocated_tree] in H'.
  destruct (make_tree max_rows ts') as [tree' | e |]; try discriminate.
  exists tree'. split; [reflexivity |].
  cbn [unlocated_tree] in H'. inversion H'. reflexivity.
Qed.

(** Sorting commutes with a change of the elements that keeps the order
    the comparator sees. *)
Lemma stable_sort_map {A} (comp : A -> A -> bool) (f : A -> A)
      (l : list A) :
  (forall a b, comp (f a) (f b) = comp a b) ->
  stable_sort comp (map f l) = map f (stable_sort comp l).
Proof.
  intros Hf.
  assert (Hins : forall x l0,
    insert_stable comp (f x) (map f l0) = map f (insert_stable comp x l0)).
  { intros x l0. induction l0 as [|y l0 IH]; [reflexivity |].
    cbn [map insert_stable]. rewrite Hf.
    destruct (comp y x); [| reflexivity].
    cbn [map]. rewrite IH. reflexivity. }
  induction l as [|x l IH]; [reflexivity |].
  cbn [map]. unfold stable_sort in *. cbn [fold_right].
  rewrite IH. apply Hins.
Qed.

Lemma sorted_statements_unlocated (priority : statement -> Z)
      (l : list statement) :
  (forall a, priority (unlocated_statement a) = priority a) ->
  sorted_statements priority (map unlocated_statement l) =
  map unlocated_statement (sorted_statements priority l).
Proof.
  intros Hp. apply stable_sort_map.
  intros a b. unfold priority_greater. rewrite !Hp. reflexivity.
Qed.

(** ** The tree of a token sequence, statement by statement *)

Lemma make_tree_at_fuel (max_rows fuel : nat) (ts : list token)
      (tree : list statement) :
  make_tree max_rows ts = Ok tree -> length ts < fuel ->
  parse_statements fuel (parse_primary_statement max_rows fuel) ts
    = Ok (tree, []).
Proof.
  intros H Hlen. apply make_tree_ok in H.
  change (make_tree_fuel max_rows fuel ts = Ok (tree, [])).
  rewrite (make_tree_fuel_enough max_rows ts Hlen). exact H.
Qed.

Lemma labels_are_last (l : list statement) :
  forallb is_label l = true -> labels_last l = true.
Proof.
  induction l as [|s l IH]; [reflexivity |].
  cbn [forallb labels_last]. intros H.
  apply andb_true_iff in H. destruct H as [Hs Hl].
  rewrite Hs. exact Hl.
Qed.

Lemma make_tree_from_loop (max_rows loop_fuel fuel : nat)
      (ts rest : list token) (tree : list statement) :
  parse_statements loop_fuel (parse_primary_statement max_rows fuel) ts
    = Ok (tree, rest) ->
  make_tree max_rows ts = Ok tree.
Proof.
  intros H. unfold make_tree.
  rewrite <- (@make_tree_fuel_enough max_rows
                (S (loop_fuel + fuel + length ts)) ts) by lia.
  unfold make_tree_fuel.
  rewrite (@parse_statements_fuel_stable (parse_primary_statement max_rows)
             (fuel_stable_parse_primary_statement max_rows)
             loop_fuel fuel (S (loop_fuel + fuel + length ts))
             (S (loop_fuel + fuel + length ts)) ts);
    [rewrite H; reflexivity | lia | lia | rewrite H; discriminate].
Qed.

Lemma parse_primary_statement_at_fuel (max_rows fuel fuel' : nat)
      (ts rest : list token) (s : statement) :
  parse_primary_statement max_rows fuel ts = Ok (Some s, rest) ->
  fuel <= fuel' ->
  parse_primary_statement max_rows fuel' ts = Ok (Some s, rest).
Proof.
  intros H Hle.
  rewrite (@fuel_stable_parse_primary_statement max_rows fuel fuel' ts Hle);
    [exact H | rewrite H; discriminate].
Qed.

Lemma make_tree_cons (max_rows fuel : nat) (ts rest : list token)
      (s : statement) (tree : list statement) :
  parse_primary_statement max_rows fuel ts = Ok (Some s, rest) ->
  make_tree max_rows rest = Ok tree ->
  make_tree max_rows ts = Ok (s :: tree).
Proof.
  intros Hs Hrest.
  pose proof (@make_tree_at_fuel max_rows (S (fuel + length rest)) rest tree
                Hrest ltac:(lia)) as Hloop.
  apply (@make_tree_from_loop max_rows (S (S (fuel + length rest)))
           (S (fuel + length rest)) ts []).
  rewrite parse_statements_step.
  rewrite (@parse_primary_statement_at_fuel max_rows fuel
             (S (fuel + length rest)) ts rest s Hs ltac:(lia)).
  rewrite Hloop. reflexivity.
Qed.

Lemma statements_read_loop (max_rows loop_fuel fuel : nat)
      (ts rest : list token) (tree : list statement) :
  parse_statements loop_fuel (parse_primary_statement max_rows fuel) ts
    = Ok (tree, rest) ->
  statements_read max_rows ts tree.
Proof.
  revert ts tree.
  induction loop_fuel as [|n IH]; intros ts tree H; [discriminate |].
  cbn [parse_statements] in H. unfold bind in H.
  destruct (parse_primary_statement max_rows fuel ts)
    as [[[s|] ts1] | e |] eqn:E; try discriminate.
  - destruct (parse_statements n (parse_primary_statement max_rows fuel) ts1)
      as [[more ts2] | e |] eqn:E2; try discriminate.
    inversion H; subst.
    eapply read_statement; [exact E |]. apply IH. exact E2.
  - inversion H; subst.
    apply parse_primary_statement_none in E. destruct E as [-> _].
    constructor.
Qed.

(** [make_tree] returns the statements read one after the other, and
    nothing else. *)
Lemma make_tree_statements_read (max_rows : nat) (ts : list token)
      (tree : list statement) :
  make_tree max_rows ts = Ok tree <-> statements_read max_rows ts tree.
Proof.
  split.
  - intros H. apply make_tree_ok in H.
    unfold make_tree_fuel in H. eapply statements_read_loop. exact H.
  - intros H. induction H as [|fuel ts rest s tree Hs _ IH];
      [reflexivity |].
    eapply make_tree_cons; [exact Hs | exact IH].
Qed.

Lemma labels_last_app (l1 l2 : list statement) :
  labels_last (l1 ++ l2) = true ->
  labels_last l2 = true /\
  (existsb is_label l1 = true -> forallb is_label l2 = true).
Proof.
  induction l1 as [|s l1 IH]; simpl; intros H; [split; [exact H |] |].
  - discriminate.
  - destruct (is_label s) eqn:Es.
    + rewrite forallb_app in H. apply andb_true_iff in H.
      destruct H as [_ H2]. split; [apply labels_are_last, H2 |].
      intros _. exact H2.
    + simpl. apply IH, H.
Qed.

Lemma make_tree_starts (max_rows : nat) (ts : list token)
      (tree : list statement) :
  make_tree max_rows ts = Ok tree ->
  stops_operands ts = true /\
  (forallb is_label tree = true -> at_label_end ts).
Proof.
  intros H. apply make_tree_statements_read in H.
  destruct H as [|fuel ts rest s tree Hs _]; [split; [reflexivity |] |].
  - intros _. exact I.
  - unfold parse_primary_statement in Hs.
    destruct ts as [|x ts]; [discriminate |].
    destruct (type x) eqn:Ex; try discriminate;
      (split; [simpl; rewrite Ex; reflexivity |]);
      cbn [forallb]; intros Hl; apply andb_true_iff in Hl;
      destruct Hl as [Hl _]; apply present_ok in Hs;
      destruct Hs as [s' [Heq Hs]]; inversion Heq; subst s'.
    + apply parse_define_kind in Hs. destruct s; discriminate.
    + apply parse_config_kind in Hs. destruct s; discriminate.
    + apply parse_sprite_ok in Hs. destruct Hs as [name [spr [-> _]]].
      discriminate.
    + apply parse_raw_kind in Hs. destruct s; discriminate.
    + apply parse_procedure_ok in Hs.
      destruct Hs as [p [nb [body [e [ne [inner
        [_ [_ [_ [_ [_ [_ [_ ->]]]]]]]]]]]]].
      discriminate.
    + apply parse_instruction_kind in Hs. destruct s; discriminate.
    + simpl. left. exact Ex.
Qed.

(** Two token sequences that parse, one behind the other, parse to the
    statements of the first followed by those of the second, as long as no
    statement other than a label comes to stand behind a label. *)
Lemma make_tree_app (max_rows : nat) (ts1 ts2 : list token)
      (tree1 tree2 : list statement) :
  make_tree max_rows ts1 = Ok tree1 ->
  make_tree max_rows ts2 = Ok tree2 ->
  labels_last (tree1 ++ tree2) = true ->
  make_tree max_rows (ts1 ++ ts2) = Ok (tree1 ++ tree2).
Proof.
  intros H1 H2. apply make_tree_statements_read in H1.
  destruct (make_tree_starts _ _ H2) as [Hstops Hlabels].
  induction H1 as [|fuel ts rest s tree Hs Hread IH]; intros Hlast;
    [exact H2 |].
  cbn [app] in *.
  apply (@make_tree_cons max_rows fuel (ts ++ ts2) (rest ++ ts2) s
           (tree ++ tree2)).
  - apply carries_parse_primary_statement; [exact Hs |].
    intros ->. inversion Hread; subst;
      [| match goal with
         | H : parse_primary_statement _ _ [] = Ok (Some _, _) |- _ =>
             discriminate H
         end].
    unfold may_follow. cbn [app labels_last] in Hlast.
    destruct (is_label s); [apply Hlabels, Hlast | exact Hstops].
  - apply IH. cbn [labels_last] in Hlast.
    destruct (is_label s); [apply labels_are_last, Hlast | exact Hlast].
Qed.

Arguments make_tree_app {max_rows ts1 ts2 tree1 tree2} _ _ _.

(** The tokens of a program fall into the tokens of its first statements
    and the tokens of the others, and each part parses on its own. *)
Lemma statements_read_split (max_rows : nat) (tree1 tree2 : list statement) :
  forall ts,
    statements_read max_rows ts (tree1 ++ tree2) ->
    exists ts1 ts2,
      ts = ts1 ++ ts2 /\
      statements_read max_rows ts1 tree1 /\
      statements_read max_rows ts2 tree2.
Proof.
  induction tree1 as [|s tree1 IH]; intros ts H.
  - exists [], ts. split; [reflexivity |]. split; [constructor | exact H].
  - cbn [app] in H.
    inversion H as [|fuel ts0 rest s0 tree Hs Hread]; subst.
    destruct (IH _ Hread) as [r1 [r2 [-> [H1 H2]]]].
    destruct (eats_parse_primary_statement max_rows fuel _ Hs)
      as [used [-> _]].
    exists (used ++ r1), r2. split; [rewrite app_assoc; reflexivity |].
    split; [| exact H2].
    apply (@read_statement max_rows fuel (used ++ r1) r1 s tree1);
      [| exact H1].
    apply (@cut_short_parse_primary_statement max_rows fuel
             (used ++ r1) r2).
    rewrite <- app_assoc. exact Hs.
Qed.

Lemma make_tree_split (max_rows : nat) (ts : list token)
      (tree1 tree2 : list statement) :
  make_tree max_rows ts = Ok (tree1 ++ tree2) ->
  exists ts1 ts2,
    ts = ts1 ++ ts2 /\
    make_tree max_rows ts1 = Ok tree1 /\
    make_tree max_rows ts2 = Ok tree2.
Proof.
  intros H. apply make_tree_statements_read in H.
  destruct (@statements_read_split max_rows tree1 tree2 ts H)
    as [ts1 [ts2 [-> [H1 H2]]]].
  exists ts1, ts2. split; [reflexivity |].
  split; apply make_tree_statements_read; assumption.
Qed.
(** C9: [make_tree] takes the exhaustion of the tokens as the end of
    parsing and returns the completed tree: the statements that
    [parse_primary_statement] returns one after the other, each on the
    tokens the one before it left, in that order and no others, and it
    returns only when every token has been consumed. An end-of-file token
    in front of a statement is thrown back as unexpected, no consumed token
    is an end-of-file token, and a sequence that parses fails with the
    unexpected end-of-file token once that token is put behind it. So
    [make_tree] succeeds only on sequences without the end-of-file token,
    as the loop of the entry point builds them: it keeps the tokens in
    front of the first end-of-file token. *)
Theorem make_tree_ends_at_exhaustion_not_at_eof (max_rows : nat) :
  (forall fuel, parse_primary_statement max_rows fuel [] = Ok (None, [])) /\
  make_tree max_rows [] = Ok [] /\
  (forall ts tree,
     make_tree max_rows ts = Ok tree <-> statements_read max_rows ts tree) /\
  (forall fuel ts e,
     parse_primary_statement max_rows fuel ts = Throw e ->
     make_tree max_rows ts = Throw e) /\
  (forall ts branches,
     make_tree max_rows ts = Ok branches ->
     make_tree_fuel max_rows (S (length ts)) ts = Ok (branches, []) /\
     Forall not_eof ts) /\
  (forall fuel t rest,
     type t = eof ->
     parse_primary_statement max_rows fuel (t :: rest)
       = Throw (unexpected_error t) /\
     make_tree max_rows (t :: rest) = Throw (unexpected_error t)) /\
  (forall ts t branches,
     type t = eof ->
     make_tree max_rows ts = Ok branches ->
     make_tree max_rows (ts ++ [t]) = Throw (unexpected_error t)) /\
  (forall stream, Forall not_eof (collect_tokens stream)) /\
  (forall ts t more,
     Forall not_eof ts -> type t = eof ->
     collect_tokens (ts ++ t :: more) = ts).
Proof.
  split; [reflexivity |]. split; [reflexivity |].
  split; [apply make_tree_statements_read |].
  split; [| split; [| split; [| split; [| split]]]].
  - intros fuel ts e H.
    assert (Hbig :
      parse_primary_statement max_rows (S (fuel + length ts)) ts = Throw e).
    { rewrite (@fuel_stable_parse_primary_statement max_rows fuel
                 (S (fuel + length ts)) ts ltac:(lia));
        [exact H | rewrite H; discriminate]. }
    unfold make_tree.
    rewrite <- (@make_tree_fuel_enough max_rows (S (fuel + length ts)) ts)
      by lia.
    unfold make_tree_fuel. rewrite parse_statements_step, Hbig.
    reflexivity.
  - intros ts branches H. pose proof (make_tree_ok _ _ H) as Hfuel.
    split; [exact Hfuel |].
    apply make_tree_fuel_consumes_all in Hfuel. tauto.
  - intros fuel t rest Ht.
    assert (Hstep : forall f,
      parse_primary_statement max_rows f (t :: rest)
        = Throw (unexpected_error t)).
    { intros f. unfold parse_primary_statement. rewrite Ht. reflexivity. }
    split; [apply Hstep |].
    unfold make_tree, make_tree_fuel. simpl. unfold bind.
    rewrite Hstep. reflexivity.
  - intros ts t branches Ht H. eapply make_tree_appended_eof; eassumption.
  - apply collect_tokens_not_eof.
  - intros ts t more. apply collect_tokens_strips_eof.
Qed.

Lemma make_tree_ends_at_exhaustion_not_at_eof_witness :
  make_tree 15 (raw_tokens 1 ++ [punct eof])
    = Throw (unexpected_error (punct eof))
  /\ make_tree 15 (punct eof :: raw_tokens 1)
     = Throw (unexpected_error (punct eof))
  /\ collect_tokens (raw_tokens 1 ++ punct eof :: raw_tokens 2)
     = raw_tokens 1
  /\ make_tree 15 (raw_tokens 1 ++ raw_tokens 2)
     = Ok [raw_word 1; raw_word 2].
Proof.
  pose proof (make_tree_ends_at_exhaustion_not_at_eof 15)
    as [_ [_ [Hread [_ [_ [Hfront [Hbehind [_ Hstrip]]]]]]]].
  split; [| split; [| split]].
  - apply (Hbehind (raw_tokens 1) (punct eof) [raw_word 1]); reflexivity.
  - apply (Hfront 0 (punct eof) (raw_tokens 1)). reflexivity.
  - apply (Hstrip (raw_tokens 1) (punct eof) (raw_tokens 2)).
    + repeat constructor; discriminate.
    + reflexivity.
  - apply (proj2 (Hread (raw_tokens 1 ++ raw_tokens 2)
                    [raw_word 1; raw_word 2])).
    apply (@read_statement 15 0 (raw_tokens 1 ++ raw_tokens 2)
             (raw_tokens 2) (raw_word 1) [raw_word 2] eq_refl).
    apply (@read_statement 15 0 (raw_tokens 2) [] (raw_word 2) []
             eq_refl).
    apply read_nothing.
Defined.

(** ** Moving declarations *)

Lemma rotation_all_equal {A} (x : A) (l : list A) :
  x :: l = l ++ [x] -> Forall (eq x) l.
Proof.
  induction l as [|a l IH]; intros H; [constructor |].
  simpl in H. inversion H; subst a. constructor; [reflexivity |].
  apply IH. assumption.
Qed.

(** Moving an element across another element of its own key, different
    from it, changes the sorted list. *)
Lemma stable_sort_move_equal {A} (key : A -> Z) (pre mid post : list A)
      (s : A) :
  (exists m, In m mid /\ key m = key s /\ m <> s) ->
  stable_sort (by_key_desc key) (pre ++ s :: mid ++ post) <>
  stable_sort (by_key_desc key) (pre ++ mid ++ s :: post).
Proof.
  intros [m [Hin [Hkey Hne]]] Heq.
  apply (f_equal (with_key key (key s))) in Heq.
  rewrite !stable_sort_stable in Heq.
  rewrite !with_key_app in Heq.
  rewrite !(with_key_cons_same key s _ eq_refl) in Heq.
  rewrite with_key_app in Heq.
  apply app_inv_head in Heq.
  change (s :: with_key key (key s) mid ++ with_key key (key s) post)
    with ((s :: with_key key (key s) mid) ++ with_key key (key s) post)
    in Heq.
  change (with_key key (key s) mid ++ s :: with_key key (key s) post)
    with (with_key key (key s) mid ++ [s] ++ with_key key (key s) post)
    in Heq.
  rewrite app_assoc in Heq. apply app_inv_tail in Heq.
  apply rotation_all_equal in Heq. rewrite Forall_forall in Heq.
  apply Hne. symmetry. apply Heq.
  unfold with_key. apply filter_In. split; [exact Hin |].
  apply Z.eqb_eq. exact Hkey.
Qed.

(** C7, as stated, fails: [proc f raw(1) endp f  proc g raw(2) endp g]
    compiles to the words 1, 2; with the procedure [g] moved in front of the
    procedure [f] the two procedures, of equal priority, keep their new
    order through the sort and the words are 2, 1. This holds for every
    priority that depends on the statement kind, every symbol pass that
    accepts both programs and every opcode table, the generator walking the
    sorted statements as the specification describes; whatever the
    generator, it is handed the procedures in the order of the source. *)
Lemma moving_procedure_changes_words :
  moved_declaration two_procedures two_procedures_moved
  /\ make_tree 15
       (procedure_tokens "f" (raw_tokens 1)
          ++ procedure_tokens "g" (raw_tokens 2))
     = Ok two_procedures
  /\ make_tree 15
       (procedure_tokens "g" (raw_tokens 2)
          ++ procedure_tokens "f" (raw_tokens 1))
     = Ok two_procedures_moved
  /\ (forall (kind_priority : statement_kind -> Z)
            (sanitizer_traverse : list statement -> option exception)
            encode_instruction sprite_words symbol_value,
       sanitizer_traverse two_procedures = None ->
       sanitizer_traverse two_procedures_moved = None ->
       generate (fun s => kind_priority (kind_of s)) sanitizer_traverse
         (spec_generator encode_instruction sprite_words symbol_value)
         two_procedures = Ok [1; 2]%Z
       /\
       generate (fun s => kind_priority (kind_of s)) sanitizer_traverse
         (spec_generator encode_instruction sprite_words symbol_value)
         two_procedures_moved = Ok [2; 1]%Z)
  /\ (forall kind_priority : statement_kind -> Z,
       sorted_statements (fun s => kind_priority (kind_of s)) two_procedures
         = two_procedures
       /\
       sorted_statements (fun s => kind_priority (kind_of s))
         two_procedures_moved = two_procedures_moved).
Proof.
  split; [| split; [| split; [| split]]].
  - apply (moved_earlier []
             [procedure_statement (ident "f") (ident "f") [raw_word 1]] []
             (procedure_statement (ident "g") (ident "g") [raw_word 2])).
    reflexivity.
  - reflexivity.
  - reflexivity.
  - intros kp san enc spr sym H1 H2.
    unfold generate, sanitize. rewrite H1, H2.
    unfold sorted_statements, two_procedures, two_procedures_moved. simpl.
    unfold priority_greater. simpl. rewrite Z.ltb_irrefl.
    split; reflexivity.
  - intros kp.
    unfold sorted_statements, two_procedures, two_procedures_moved. simpl.
    unfold priority_greater. simpl. rewrite Z.ltb_irrefl.
    split; reflexivity.
Qed.

(** ** The whole run *)

Lemma generate_not_out_of_fuel
      (priority : statement -> Z)
      (sanitizer_traverse : list statement -> option exception)
      (generator_generate : list statement -> exception + list Z)
      (statements : list statement) :
  generate priority sanitizer_traverse generator_generate statements
    <> OutOfFuel.
Proof.
  unfold generate.
  destruct (sanitize sanitizer_traverse statements); [discriminate |].
  destruct (generator_generate _); discriminate.
Qed.

(** The pipeline as a function: it gives the machine words or one
    exception, the result does not depend on the iteration bound the loops
    are run with, as long as that bound is not exhausted, and the sequence
    handed to the generator is the only one that meets the contract of the
    stable sort. *)
Lemma compile_bound_independent
        (max_rows : nat) (priority : statement -> Z)
        (sanitizer_traverse : list statement -> option exception)
        (generator_generate : list statement -> exception + list Z)
        (lexer_tokens : string -> exception + list token)
        (source : string) :
  ((exists words,
      compile max_rows priority sanitizer_traverse generator_generate
        lexer_tokens source = Ok words) \/
   (exists e,
      compile max_rows priority sanitizer_traverse generator_generate
        lexer_tokens source = Throw e)) /\
  (forall fuel,
     compile_fuel max_rows priority sanitizer_traverse generator_generate
       lexer_tokens fuel source <> OutOfFuel ->
     compile_fuel max_rows priority sanitizer_traverse generator_generate
       lexer_tokens fuel source =
     compile max_rows priority sanitizer_traverse generator_generate
       lexer_tokens source) /\
  (forall fuel1 fuel2,
     compile_fuel max_rows priority sanitizer_traverse generator_generate
       lexer_tokens fuel1 source <> OutOfFuel ->
     compile_fuel max_rows priority sanitizer_traverse generator_generate
       lexer_tokens fuel2 source <> OutOfFuel ->
     compile_fuel max_rows priority sanitizer_traverse generator_generate
       lexer_tokens fuel1 source =
     compile_fuel max_rows priority sanitizer_traverse generator_generate
       lexer_tokens fuel2 source) /\
  (forall branches out,
     descending priority out ->
     (forall p, with_key priority p out = with_key priority p branches) ->
     out = sorted_statements priority branches).
Proof.
  assert (Hrun : forall fuel,
    compile_fuel max_rows priority sanitizer_traverse generator_generate
      lexer_tokens fuel source <> OutOfFuel ->
    compile_fuel max_rows priority sanitizer_traverse generator_generate
      lexer_tokens fuel source =
    compile max_rows priority sanitizer_traverse generator_generate
      lexer_tokens source).
  { intros fuel Hne. unfold compile_fuel, compile, make_tree in *.
    destruct (lexer_tokens source) as [e | stream]; [reflexivity |].
    set (ts := collect_tokens stream) in *.
    assert (Hfuel : make_tree_fuel max_rows fuel ts <> OutOfFuel).
    { intros E. rewrite E in Hne. congruence. }
    destruct (Nat.le_gt_cases fuel (S (length ts))) as [Hle | Hgt].
    - rewrite (@fuel_stable_make_tree_fuel max_rows fuel (S (length ts)) ts
                 Hle Hfuel).
      destruct (make_tree_fuel max_rows fuel ts) as [[? ?] | ? |];
        reflexivity.
    - rewrite <- (@fuel_stable_make_tree_fuel max_rows (S (length ts)) fuel
                    ts ltac:(lia)
                    (@finishes_make_tree_fuel max_rows (S (length ts)) ts
                       ltac:(lia))).
      destruct (make_tree_fuel max_rows fuel ts) as [[? ?] | ? |];
        reflexivity. }
  split; [| split; [exact Hrun | split]].
  - unfold compile.
    destruct (lexer_tokens source) as [e | stream]; [right; eauto |].
    destruct (make_tree_total max_rows (collect_tokens stream))
      as [[branches Hb] | [e He]].
    + rewrite Hb.
      pose proof (@generate_not_out_of_fuel priority sanitizer_traverse
                    generator_generate branches) as Hg.
      destruct (generate priority sanitizer_traverse generator_generate
                  branches); [left; eauto | right; eauto | congruence].
    + rewrite He. right. eauto.
  - intros fuel1 fuel2 H1 H2. rewrite (Hrun _ H1), (Hrun _ H2). reflexivity.
  - intros branches out Hd Hst. apply (@stable_sort_unique _ priority); assumption.
Qed.






(** * Further properties of the parser *)

(** ** The tokens inside the nodes *)

Lemma any_of_one (ty : token_type) (t : token) :
  any_of (type t) [ty] = is_kind ty t.
Proof. unfold any_of, is_kind. simpl. apply orb_false_r. Qed.

Lemma parse_define_well_formed (ts rest : list token) (s : statement) :
  parse_define ts = Ok (s, rest) -> simple_well_formed s = true.
Proof.
  unfold parse_define. intros H.
  run_bind H as k ts1 E1. run_bind H as name ts2 E2.
  run_bind H as value ts3 E3. inversion H; subst.
  apply expect_ok in E2, E3. destruct E2 as [_ E2]. destruct E3 as [_ E3].
  rewrite any_of_one in E2. cbn [simple_well_formed]. rewrite E2, E3.
  reflexivity.
Qed.

Lemma parse_config_well_formed (ts rest : list token) (s : statement) :
  parse_config ts = Ok (s, rest) -> simple_well_formed s = true.
Proof.
  unfold parse_config. intros H.
  run_bind H as k ts1 E1. run_bind H as name ts2 E2.
  run_bind H as eq ts3 E3. run_bind H as value ts4 E4. inversion H; subst.
  apply expect_ok in E2, E4. destruct E2 as [_ E2]. destruct E4 as [_ E4].
  rewrite any_of_one in E2. cbn [simple_well_formed]. rewrite E2, E4.
  reflexivity.
Qed.

Lemma parse_raw_well_formed (ts rest : list token) (s : statement) :
  parse_raw ts = Ok (s, rest) -> simple_well_formed s = true.
Proof.
  unfold parse_raw. intros H.
  run_bind H as k ts1 E1. run_bind H as open ts2 E2.
  run_bind H as tok ts3 E3. run_bind H as close ts4 E4. inversion H; subst.
  apply expect_ok in E3. destruct E3 as [_ E3]. exact E3.
Qed.

Lemma parse_operand_well_formed (ts rest : list token)
      (op : instruction_operand) :
  parse_operand ts = Ok (op, rest) -> operand_well_formed op = true.
Proof.
  destruct ts as [|t ts]; [discriminate |].
  rewrite parse_operand_cons.
  destruct (any_of (type t) _) eqn:Ea; [| discriminate].
  assert (Hname : forall (make : token -> instruction_operand) op0,
    (n <- expect [identifier] ;; ret (make n)) ts = Ok (op0, rest) ->
    exists n, op0 = make n /\ is_kind identifier n = true).
  { intros make op0 H. run_bind H as n ts1 E1. inversion H; subst.
    apply expect_ok in E1. destruct E1 as [_ E1]. rewrite any_of_one in E1.
    eauto. }
  destruct (type t) eqn:Et; simpl in Ea; try discriminate; intros H.
  - inversion H; subst. simpl. unfold any_of. rewrite Et. reflexivity.
  - inversion H; subst. simpl. unfold any_of. rewrite Et. reflexivity.
  - inversion H; subst. simpl. unfold is_kind. rewrite Et. reflexivity.
  - run_bind H as inner ts1 E1. run_bind H as close ts2 E2.
    inversion H; subst. apply expect_ok in E1. destruct E1 as [_ E1].
    exact E1.
  - apply Hname in H. destruct H as [n [-> Hn]]. exact Hn.
  - apply Hname in H. destruct H as [n [-> Hn]]. exact Hn.
  - apply Hname in H. destruct H as [n [-> Hn]]. exact Hn.
Qed.

Lemma parse_operands_well_formed (fuel : nat) (ts rest : list token)
      (ops : list instruction_operand) :
  parse_operands fuel ts = Ok (ops, rest) ->
  forallb operand_well_formed ops = true.
Proof.
  revert ts ops. induction fuel as [|fuel IH]; intros ts ops H; simpl in H;
    [discriminate |].
  run_bind H as starts ts0 E0. destruct starts; [| inversion H; reflexivity].
  run_bind H as op ts1 E1. apply parse_operand_well_formed in E1.
  run_bind H as sep ts2 E2. destruct sep.
  - run_bind H as more ts3 E3. inversion H; subst. simpl.
    rewrite E1. simpl. eapply IH. exact E3.
  - inversion H; subst. simpl. rewrite E1. reflexivity.
Qed.

Lemma parse_instruction_well_formed (fuel : nat) (ts rest : list token)
      (s : statement) :
  parse_instruction fuel ts = Ok (s, rest) -> simple_well_formed s = true.
Proof.
  unfold parse_instruction. intros H.
  run_bind H as mnemonic ts1 E1. run_bind H as ops ts2 E2.
  inversion H; subst. apply expect_ok in E1. destruct E1 as [_ E1].
  rewrite any_of_one in E1. apply parse_operands_well_formed in E2.
  cbn [simple_well_formed]. rewrite E1, E2. reflexivity.
Qed.

Lemma parse_label_inner_statement_well_formed (fuel : nat)
      (ts rest : list token) (s : statement) :
  parse_label_inner_statement fuel ts = Ok (Some s, rest) ->
  simple_well_formed s = true.
Proof.
  unfold parse_label_inner_statement. intros H.
  destruct ts as [|t ts]; [discriminate |].
  destruct (type t); try discriminate;
    apply present_ok in H; destruct H as [s0 [Hs H]]; inversion Hs; subst s0.
  - eapply parse_define_well_formed; eassumption.
  - eapply parse_config_well_formed; eassumption.
  - eapply parse_raw_well_formed; eassumption.
  - eapply parse_instruction_well_formed; eassumption.
Qed.

Lemma Forall_forallb {A} (f : A -> bool) (l : list A) :
  Forall (fun x => f x = true) l -> forallb f l = true.
Proof.
  intros H. apply forallb_forall. rewrite Forall_forall in H. exact H.
Qed.

Lemma parse_label_well_formed (fuel : nat) (ts rest : list token)
      (s : statement) :
  parse_label fuel ts = Ok (s, rest) -> label_well_formed s = true.
Proof.
  unfold parse_label. intros H.
  run_bind H as d ts1 E1. run_bind H as name ts2 E2.
  run_bind H as c ts3 E3. run_bind H as inner ts4 E4. inversion H; subst.
  apply expect_ok in E2. destruct E2 as [_ E2]. rewrite any_of_one in E2.
  cbn [label_well_formed]. rewrite E2. cbn [andb]. apply Forall_forallb.
  eapply parse_statements_Forall; [| exact E4].
  intros ts0 s0 ts5. apply parse_label_inner_statement_well_formed.
Qed.

Lemma parse_procedure_inner_statement_well_formed (fuel : nat)
      (ts rest : list token) (s : statement) :
  parse_procedure_inner_statement fuel ts = Ok (Some s, rest) ->
  simple_well_formed s || label_well_formed s = true.
Proof.
  unfold parse_procedure_inner_statement. intros H.
  destruct ts as [|t ts]; [discriminate |].
  destruct (type t); try discriminate;
    apply present_ok in H; destruct H as [s0 [Hs H]]; inversion Hs; subst s0;
    apply orb_true_iff.
  - left. eapply parse_define_well_formed; eassumption.
  - left. eapply parse_config_well_formed; eassumption.
  - left. eapply parse_raw_well_formed; eassumption.
  - left. eapply parse_instruction_well_formed; eassumption.
  - right. eapply parse_label_well_formed; eassumption.
Qed.

(** ** Sprites keep their array in shape *)

Lemma empty_sprite_filled (max_rows : nat) :
  sprite_filled max_rows (empty_sprite max_rows).
Proof.
  exists []. simpl. rewrite Nat.sub_0_r.
  repeat split; [lia | constructor].
Qed.

Lemma to_uint8_is_byte (v : Z) : is_byte (to_uint8 v) = true.
Proof.
  unfold is_byte, to_uint8.
  pose proof (Z.mod_pos_bound v 256 ltac:(lia)) as [H0 H1].
  apply andb_true_iff. split; [apply Z.leb_le | apply Z.ltb_lt]; assumption.
Qed.

Lemma parse_sprite_rows_filled (max_rows fuel : nat) (name : token)
      (spr spr' : sprite) (ts rest : list token) :
  sprite_filled max_rows spr ->
  parse_sprite_rows max_rows fuel name spr ts = Ok (spr', rest) ->
  sprite_filled max_rows spr'.
Proof.
  revert spr ts. induction fuel as [|fuel IH]; intros spr ts Hinv H;
    simpl in H; [discriminate |].
  run_bind H as tok ts1 E1. run_bind H as value ts2 E2.
  destruct (max_rows <=? row_count spr) eqn:Emax; [discriminate |].
  apply Nat.leb_gt in Emax.
  destruct (negb (imm_matches_format value fmt_imm8)); [discriminate |].
  assert (Hnext : sprite_filled max_rows
    {| sprite_data :=
         array_set (sprite_data spr) (row_count spr) (to_uint8 value);
       row_count := S (row_count spr) |}).
  { destruct Hinv as [rows [Hd [Hc [Hl Hb]]]].
    exists (rows ++ [to_uint8 value]). simpl.
    rewrite length_app. simpl.
    rewrite Hd, Hc.
    replace (max_rows - length rows)
      with (S (max_rows - (length rows + 1))) by lia.
    simpl repeat. rewrite array_set_app. rewrite <- app_assoc. simpl.
    repeat split; try lia.
    apply Forall_app. split; [exact Hb |].
    constructor; [apply to_uint8_is_byte | constructor]. }
  run_bind H as again ts3 E3. destruct again.
  - eapply IH; eassumption.
  - inversion H; subst. exact Hnext.
Qed.

Lemma forallb_zero_repeat (k : nat) :
  forallb (Z.eqb 0) (repeat 0%Z k) = true.
Proof. induction k as [|k IH]; simpl; [reflexivity | exact IH]. Qed.

Lemma sprite_filled_well_formed (max_rows : nat) (spr : sprite) :
  sprite_filled max_rows spr -> 1 <= row_count spr ->
  sprite_well_formed max_rows spr = true.
Proof.
  intros [rows [Hd [Hc [Hl Hb]]]] Hone. unfold sprite_well_formed.
  rewrite Hd, Hc in *.
  rewrite firstn_app, firstn_all, Nat.sub_diag. simpl firstn.
  rewrite app_nil_r.
  rewrite skipn_app, skipn_all, Nat.sub_diag. simpl skipn. simpl app.
  rewrite length_app, repeat_length.
  unfold rows_in_range. rewrite Hc.
  repeat (apply andb_true_iff; split).
  - apply Nat.leb_le. lia.
  - apply Nat.leb_le. lia.
  - apply Nat.eqb_eq. lia.
  - apply Forall_forallb. exact Hb.
  - apply forallb_zero_repeat.
Qed.

Lemma parse_sprite_well_formed (max_rows fuel : nat) (ts rest : list token)
      (s : statement) :
  parse_sprite max_rows fuel ts = Ok (s, rest) ->
  well_formed max_rows s = true.
Proof.
  unfold parse_sprite. intros H.
  run_bind H as kw ts1 E1. run_bind H as name ts2 E2.
  run_bind H as open ts3 E3. run_bind H as spr ts4 E4.
  run_bind H as close ts5 E5. inversion H; subst.
  apply expect_ok in E2. destruct E2 as [_ E2]. rewrite any_of_one in E2.
  pose proof (parse_sprite_rows_ok _ _ _ _ _ E4) as [Hrows _].
  eapply parse_sprite_rows_filled in E4; [| apply empty_sprite_filled].
  cbn [well_formed]. rewrite E2. cbn [andb].
  apply sprite_filled_well_formed; [exact E4 |].
  simpl in Hrows. lia.
Qed.

(** ** Labels come last *)

Lemma labels_last_loop (step : parser (option statement)) :
  (forall ts s ts1,
     step ts = Ok (Some s, ts1) -> is_label s = true -> at_label_end ts1) ->
  (forall ts s ts1,
     at_label_end ts -> step ts = Ok (Some s, ts1) -> is_label s = true) ->
  forall fuel ts l rest,
    parse_statements fuel step ts = Ok (l, rest) ->
    labels_last l = true /\
    (at_label_end ts -> forallb is_label l = true).
Proof.
  intros Hend Hlabel. induction fuel as [|fuel IH]; intros ts l rest H;
    simpl in H; [discriminate |].
  run_bind H as o ts1 E1. destruct o as [s|].
  - run_bind H as more ts2 E2. inversion H; subst.
    destruct (IH _ _ _ E2) as [Hlast Hall].
    split.
    + simpl. destruct (is_label s) eqn:Es; [| exact Hlast].
      apply Hall. eapply Hend; eassumption.
    + intros Hts. pose proof (Hlabel _ _ _ Hts E1) as Hs.
      simpl. rewrite Hs. simpl. apply Hall. eapply Hend; eassumption.
  - inversion H; subst. split; reflexivity.
Qed.

Lemma kind_not_label (s : statement) :
  kind_of s <> kind_label -> is_label s = false.
Proof. destruct s; simpl; congruence. Qed.

Lemma parse_procedure_inner_statement_label_end (fuel : nat)
      (ts : list token) (s : statement) (ts1 : list token) :
  parse_procedure_inner_statement fuel ts = Ok (Some s, ts1) ->
  is_label s = true -> at_label_end ts1.
Proof.
  unfold parse_procedure_inner_statement. intros H Hs.
  destruct ts as [|t ts]; [discriminate |].
  destruct (type t); try discriminate;
    apply present_ok in H; destruct H as [s0 [Hs0 H]]; inversion Hs0;
    subst s0.
  - apply parse_define_kind in H. rewrite kind_not_label in Hs; congruence.
  - apply parse_config_kind in H. rewrite kind_not_label in Hs; congruence.
  - apply parse_raw_kind in H. rewrite kind_not_label in Hs; congruence.
  - apply parse_instruction_kind in H.
    rewrite kind_not_label in Hs; congruence.
  - apply parse_label_ok in H. destruct H as [name [inner [_ [_ Hstop]]]].
    exact Hstop.
Qed.

Lemma parse_procedure_inner_statement_at_label_end (fuel : nat)
      (ts : list token) (s : statement) (ts1 : list token) :
  at_label_end ts ->
  parse_procedure_inner_statement fuel ts = Ok (Some s, ts1) ->
  is_label s = true.
Proof.
  unfold parse_procedure_inner_statement. intros Hts H.
  destruct ts as [|t ts]; [discriminate |]. simpl in Hts.
  destruct Hts as [Ht | Ht]; rewrite Ht in H; [| discriminate].
  apply present_ok in H. destruct H as [s0 [Hs0 H]]. inversion Hs0; subst s0.
  apply parse_label_ok in H. destruct H as [name [inner [-> _]]].
  reflexivity.
Qed.

Lemma parse_procedure_well_formed (max_rows fuel : nat)
      (ts rest : list token) (s : statement) :
  parse_procedure fuel ts = Ok (s, rest) -> well_formed max_rows s = true.
Proof.
  intros H. apply parse_procedure_ok in H.
  destruct H as [p [nb [body [e [ne [inner
    [_ [_ [Hb [Hloop [_ [Hn [Hd ->]]]]]]]]]]]]].
  cbn [well_formed]. unfold is_kind. rewrite Hb, Hn. simpl.
  rewrite (proj2 (token_data_eqb_eq _ _) Hd). simpl.
  apply andb_true_iff. split.
  - apply Forall_forallb.
    eapply parse_statements_Forall; [| exact Hloop].
    intros ts0 s0 ts1. apply parse_procedure_inner_statement_well_formed.
  - apply (proj1 (@labels_last_loop _
              (@parse_procedure_inner_statement_label_end fuel)
              (@parse_procedure_inner_statement_at_label_end fuel)
              _ _ _ _ Hloop)).
Qed.

Lemma simple_well_formed_top (max_rows : nat) (s : statement) :
  simple_well_formed s = true -> well_formed max_rows s = true.
Proof. destruct s; simpl; congruence. Qed.

Lemma label_well_formed_top (max_rows : nat) (s : statement) :
  label_well_formed s = true -> well_formed max_rows s = true.
Proof. destruct s; simpl; congruence. Qed.

Lemma parse_primary_statement_well_formed (max_rows fuel : nat)
      (ts rest : list token) (s : statement) :
  parse_primary_statement max_rows fuel ts = Ok (Some s, rest) ->
  well_formed max_rows s = true.
Proof.
  unfold parse_primary_statement. intros H.
  destruct ts as [|t ts]; [discriminate |].
  destruct (type t); try discriminate;
    apply present_ok in H; destruct H as [s0 [Hs H]]; inversion Hs; subst s0.
  - apply simple_well_formed_top. eapply parse_define_well_formed, H.
  - apply simple_well_formed_top. eapply parse_config_well_formed, H.
  - eapply parse_sprite_well_formed, H.
  - apply simple_well_formed_top. eapply parse_raw_well_formed, H.
  - eapply parse_procedure_well_formed, H.
  - apply simple_well_formed_top. eapply parse_instruction_well_formed, H.
  - apply label_well_formed_top. eapply parse_label_well_formed, H.
Qed.

Lemma parse_primary_statement_label_end (max_rows fuel : nat)
      (ts : list token) (s : statement) (ts1 : list token) :
  parse_primary_statement max_rows fuel ts = Ok (Some s, ts1) ->
  is_label s = true -> at_label_end ts1.
Proof.
  unfold parse_primary_statement. intros H Hs.
  destruct ts as [|t ts]; [discriminate |].
  destruct (type t); try discriminate;
    apply present_ok in H; destruct H as [s0 [Hs0 H]]; inversion Hs0;
    subst s0.
  - apply parse_define_kind in H. rewrite kind_not_label in Hs; congruence.
  - apply parse_config_kind in H. rewrite kind_not_label in Hs; congruence.
  - apply parse_sprite_ok in H. destruct H as [name [spr [-> _]]].
    discriminate.
  - apply parse_raw_kind in H. rewrite kind_not_label in Hs; congruence.
  - apply parse_procedure_ok in H.
    destruct H as [p [nb [body [e [ne [inner
      [_ [_ [_ [_ [_ [_ [_ ->]]]]]]]]]]]]].
    discriminate.
  - apply parse_instruction_kind in H.
    rewrite kind_not_label in Hs; congruence.
  - apply parse_label_ok in H. destruct H as [name [inner [_ [_ Hstop]]]].
    exact Hstop.
Qed.

Lemma parse_primary_statement_at_label_end (max_rows fuel : nat)
      (ts : list token) (s : statement) (ts1 : list token) :
  at_label_end ts ->
  parse_primary_statement max_rows fuel ts = Ok (Some s, ts1) ->
  is_label s = true.
Proof.
  unfold parse_primary_statement. intros Hts H.
  destruct ts as [|t ts]; [discriminate |]. simpl in Hts.
  destruct Hts as [Ht | Ht]; rewrite Ht in H; [| discriminate].
  apply present_ok in H. destruct H as [s0 [Hs0 H]]. inversion Hs0; subst s0.
  apply parse_label_ok in H. destruct H as [name [inner [-> _]]].
  reflexivity.
Qed.

(** X1: in a tree [make_tree] returns every node holds tokens of the kinds
    its parser expects, a label holds only defines, configs, raw words and
    instructions, a procedure holds only those and labels and its two names
    have equal data, and a sprite has between one and [MAX_SPRITE_ROWS]
    rows, each a byte, in an array of [MAX_SPRITE_ROWS] rows that is zero
    behind them. *)
Theorem make_tree_well_formed (max_rows : nat) (ts : list token)
        (tree : list statement) :
  make_tree max_rows ts = Ok tree ->
  forallb (well_formed max_rows) tree = true.
Proof.
  intros H. apply make_tree_ok in H. apply Forall_forallb.
  eapply parse_statements_Forall; [| exact H].
  intros ts0 s ts1. apply parse_primary_statement_well_formed.
Qed.

Lemma make_tree_well_formed_witness :
  forallb (well_formed 15)
    [procedure_statement (ident "f") (ident "f")
       [raw_word 1; label_statement (ident "l") [raw_word 2]]] = true.
Proof.
  apply (@make_tree_well_formed 15
           (procedure_tokens "f"
              (raw_tokens 1 ++ label_tokens "l" ++ raw_tokens 2))).
  reflexivity.
Defined.

(** X2: once a label has been parsed, only labels follow in its statement
    sequence: in the tree [make_tree] returns, and in the body of a
    procedure, every statement behind a label is a label. A label takes the
    defines, configs, raw words and instructions behind it into its own
    list, and a sprite or the start of a procedure there is thrown back as
    unexpected. *)
Theorem labels_come_last (max_rows fuel : nat) :
  (forall ts tree,
     make_tree max_rows ts = Ok tree -> labels_last tree = true) /\
  (forall ts rest name_beg name_end inner,
     parse_procedure fuel ts
       = Ok (procedure_statement name_beg name_end inner, rest) ->
     labels_last inner = true) /\
  (forall t rest,
     type t = keyword_sprite \/ type t = keyword_proc_start ->
     parse_label_inner_statement fuel (t :: rest)
       = Throw (unexpected_error t)).
Proof.
  split; [| split].
  - intros ts tree H. apply make_tree_ok in H.
    apply (proj1 (@labels_last_loop _
             (@parse_primary_statement_label_end max_rows _)
             (@parse_primary_statement_at_label_end max_rows _)
             _ _ _ _ H)).
  - intros ts rest nb ne inner H. apply parse_procedure_ok in H.
    destruct H as [p [nb0 [body [e [ne0 [inner0
      [_ [_ [_ [Hloop [_ [_ [_ Heq]]]]]]]]]]]]].
    inversion Heq; subst.
    apply (proj1 (@labels_last_loop _
             (@parse_procedure_inner_statement_label_end fuel)
             (@parse_procedure_inner_statement_at_label_end fuel)
             _ _ _ _ Hloop)).
  - intros t rest [Ht | Ht]; unfold parse_label_inner_statement;
      rewrite Ht; reflexivity.
Qed.

Lemma labels_come_last_witness :
  labels_last
    [raw_word 1; label_statement (ident "a") [raw_word 2];
     label_statement (ident "b") []] = true
  /\ make_tree 15
       (label_tokens "a" ++ procedure_tokens "f" (raw_tokens 1))
     = Throw (unexpected_error (punct keyword_proc_start)).
Proof.
  split.
  - apply (proj1 (labels_come_last 15 0)
             (raw_tokens 1 ++ label_tokens "a" ++ raw_tokens 2
                ++ label_tokens "b")).
    reflexivity.
  - reflexivity.
Defined.

(** ** The three dispatchers agree on what they share *)

Lemma parse_procedure_inner_statement_agrees (max_rows fuel : nat)
      (ts ts1 : list token) (s : statement) :
  parse_primary_statement max_rows fuel ts = Ok (Some s, ts1) ->
  no_sprite_no_procedure s = true ->
  parse_procedure_inner_statement fuel ts = Ok (Some s, ts1).
Proof.
  unfold parse_primary_statement, parse_procedure_inner_statement.
  intros H Hs. destruct ts as [|t ts]; [discriminate |].
  destruct (type t); try discriminate; try exact H.
  - apply present_ok in H. destruct H as [s0 [Hs0 H]]. inversion Hs0; subst.
    apply parse_sprite_ok in H. destruct H as [name [spr [-> _]]].
    discriminate.
  - apply present_ok in H. destruct H as [s0 [Hs0 H]]. inversion Hs0; subst.
    apply parse_procedure_ok in H.
    destruct H as [p [nb [body [e [ne [inner
      [_ [_ [_ [_ [_ [_ [_ ->]]]]]]]]]]]]].
    discriminate.
Qed.

Lemma parse_label_inner_statement_agrees (max_rows fuel : nat)
      (ts ts1 : list token) (s : statement) :
  parse_primary_statement max_rows fuel ts = Ok (Some s, ts1) ->
  is_simple s = true ->
  parse_label_inner_statement fuel ts = Ok (Some s, ts1).
Proof.
  unfold parse_primary_statement, parse_label_inner_statement.
  intros H Hs. destruct ts as [|t ts]; [discriminate |].
  destruct (type t); try discriminate; try exact H;
    apply present_ok in H; destruct H as [s0 [Hs0 H]]; inversion Hs0; subst.
  - apply parse_sprite_ok in H. destruct H as [name [spr [-> _]]].
    discriminate.
  - apply parse_procedure_ok in H.
    destruct H as [p [nb [body [e [ne [inner
      [_ [_ [_ [_ [_ [_ [_ ->]]]]]]]]]]]]].
    discriminate.
  - apply parse_label_ok in H. destruct H as [name [inner [-> _]]].
    discriminate.
Qed.

Lemma procedure_body_runs_out (max_rows fuel loop_fuel : nat)
      (ts rest : list token) (l : list statement) :
  parse_statements loop_fuel (parse_primary_statement max_rows fuel) ts
    = Ok (l, rest) ->
  forallb no_sprite_no_procedure l = true ->
  parse_statements loop_fuel (parse_procedure_inner_statement fuel) ts
    = Throw unexpected_eof_in_procedure.
Proof.
  revert ts l. induction loop_fuel as [|n IH]; intros ts l H Hl;
    simpl in H; [discriminate |].
  run_bind H as o ts1 E1. destruct o as [s|].
  - run_bind H as more ts2 E2. inversion H; subst.
    simpl in Hl. apply andb_true_iff in Hl. destruct Hl as [Hs Hmore].
    simpl. unfold bind.
    rewrite (parse_procedure_inner_statement_agrees _ _ _ E1 Hs).
    rewrite (IH _ _ E2 Hmore). reflexivity.
  - apply parse_primary_statement_none in E1. destruct E1 as [-> _].
    reflexivity.
Qed.

Lemma label_body_is_the_rest (max_rows fuel loop_fuel : nat)
      (ts rest : list token) (l : list statement) :
  parse_statements loop_fuel (parse_primary_statement max_rows fuel) ts
    = Ok (l, rest) ->
  forallb is_simple l = true ->
  parse_statements loop_fuel (parse_label_inner_statement fuel) ts
    = Ok (l, []).
Proof.
  revert ts l. induction loop_fuel as [|n IH]; intros ts l H Hl;
    simpl in H; [discriminate |].
  run_bind H as o ts1 E1. destruct o as [s|].
  - run_bind H as more ts2 E2. inversion H; subst.
    simpl in Hl. apply andb_true_iff in Hl. destruct Hl as [Hs Hmore].
    simpl. unfold bind.
    rewrite (parse_label_inner_statement_agrees _ _ _ E1 Hs).
    rewrite (IH _ _ E2 Hmore). reflexivity.
  - apply parse_primary_statement_none in E1. destruct E1 as [-> _].
    inversion H; subst. reflexivity.
Qed.

(** The statements of [make_tree] under any greater iteration bound. *)
(** X3: a procedure that is never closed fails with the exception for the
    end of file inside a procedure: when the tokens behind [proc name] parse
    as a program without sprites and procedures and no [endp] follows,
    [make_tree] throws [unexpected_eof_in_procedure]. *)
Theorem unclosed_procedure_runs_into_eof
        (max_rows : nat) (p name : token) (body : list token)
        (l : list statement) :
  type p = keyword_proc_start -> type name = identifier ->
  make_tree max_rows body = Ok l ->
  forallb no_sprite_no_procedure l = true ->
  make_tree max_rows (p :: name :: body) = Throw unexpected_eof_in_procedure.
Proof.
  intros Hp Hname Hbody Hl.
  pose proof (@make_tree_at_fuel max_rows (S (length (p :: name :: body)))
                body l Hbody ltac:(simpl; lia)) as Hloop.
  apply procedure_body_runs_out in Hloop; [| exact Hl].
  unfold make_tree, make_tree_fuel.
  remember (S (length (p :: name :: body))) as fuel eqn:Hfuel.
  rewrite Hfuel at 1. cbn [parse_statements]. unfold bind at 1.
  unfold parse_primary_statement at 1. rewrite Hp.
  unfold present, bind at 1. unfold parse_procedure, bind at 1.
  rewrite (expect_one _ Hp). unfold bind at 1.
  rewrite (expect_one _ Hname). unfold bind at 1.
  rewrite Hloop. reflexivity.
Qed.

Lemma unclosed_procedure_runs_into_eof_witness :
  make_tree 15
    (punct keyword_proc_start :: ident "f"
       :: raw_tokens 1 ++ label_tokens "l" ++ raw_tokens 2)
  = Throw unexpected_eof_in_procedure.
Proof.
  apply (@unclosed_procedure_runs_into_eof 15
           (punct keyword_proc_start) (ident "f")
           (raw_tokens 1 ++ label_tokens "l" ++ raw_tokens 2)
           [raw_word 1; label_statement (ident "l") [raw_word 2]]);
    reflexivity.
Defined.

(** X4: a label takes everything behind it: when the tokens behind
    [.name:] parse as a program of defines, configs, raw words and
    instructions, [make_tree] returns the one label that holds exactly
    those statements. *)
Theorem label_takes_the_rest
        (max_rows : nat) (dot name col : token) (body : list token)
        (l : list statement) :
  type dot = dot_label -> type name = identifier -> type col = colon ->
  make_tree max_rows body = Ok l ->
  forallb is_simple l = true ->
  make_tree max_rows (dot :: name :: col :: body)
    = Ok [label_statement name l].
Proof.
  intros Hd Hname Hc Hbody Hl.
  pose proof (@make_tree_at_fuel max_rows
                (S (length (dot :: name :: col :: body)))
                body l Hbody ltac:(simpl; lia)) as Hloop.
  apply label_body_is_the_rest in Hloop; [| exact Hl].
  unfold make_tree, make_tree_fuel.
  remember (S (length (dot :: name :: col :: body))) as fuel eqn:Hfuel.
  rewrite Hfuel at 1. cbn [length parse_statements]. unfold bind at 1.
  unfold parse_primary_statement at 1. rewrite Hd.
  unfold present, bind at 1. unfold parse_label, bind at 1.
  rewrite (expect_one _ Hd). unfold bind at 1.
  rewrite (expect_one _ Hname). unfold bind at 1.
  rewrite (expect_one _ Hc). unfold bind at 1.
  rewrite Hloop. reflexivity.
Qed.

Lemma label_takes_the_rest_witness :
  make_tree 15 (label_tokens "a" ++ raw_tokens 1 ++ raw_tokens 2)
  = Ok [label_statement (ident "a") [raw_word 1; raw_word 2]].
Proof.
  apply (@label_takes_the_rest 15 (punct dot_label) (ident "a")
           (punct colon) (raw_tokens 1 ++ raw_tokens 2)
           [raw_word 1; raw_word 2]); reflexivity.
Defined.

(** ** A label behind a label *)

Lemma labels_hold_no_procedure (l : list statement) :
  forallb is_label l = true -> forallb no_sprite_no_procedure l = true.
Proof.
  induction l as [|s l IH]; [reflexivity |].
  cbn [forallb]. intros H. apply andb_true_iff in H. destruct H as [Hs Hl].
  rewrite (IH Hl), andb_true_r. destruct s; try discriminate. reflexivity.
Qed.

(** The statements of a program without sprites and procedures are the
    body of a procedure once the closing keyword stands behind them. *)
Lemma procedure_body_closed (max_rows fuel loop_fuel : nat)
      (ts rest : list token) (e : token) (l : list statement) :
  parse_statements loop_fuel (parse_primary_statement max_rows fuel) ts
    = Ok (l, []) ->
  forallb no_sprite_no_procedure l = true ->
  type e = keyword_proc_end ->
  parse_statements loop_fuel (parse_procedure_inner_statement fuel)
    (ts ++ e :: rest) = Ok (l, e :: rest).
Proof.
  intros H Hl He. revert ts l H Hl.
  induction loop_fuel as [|n IH]; intros ts l H Hl; [discriminate |].
  rewrite parse_statements_step in H. rewrite parse_statements_step.
  destruct (parse_primary_statement max_rows fuel ts)
    as [[[s|] ts1] | x |] eqn:E1; try discriminate.
  - destruct (parse_statements n (parse_primary_statement max_rows fuel) ts1)
      as [[more ts2] | x |] eqn:E2; try discriminate.
    inversion H; subst.
    cbn [forallb] in Hl. apply andb_true_iff in Hl. destruct Hl as [Hs Hmore].
    pose proof (parse_procedure_inner_statement_agrees _ _ _ E1 Hs)
      as Hstep.
    apply (@carries_parse_procedure_inner_statement fuel ts (Some s) ts1
             (e :: rest)) in Hstep; [| intros _; right; exact He].
    rewrite Hstep, (IH _ _ E2 Hmore). reflexivity.
  - inversion H; subst.
    apply parse_primary_statement_none in E1. destruct E1 as [-> _].
    cbn [app]. unfold parse_procedure_inner_statement. rewrite He.
    reflexivity.
Qed.

Lemma procedure_around (max_rows : nat) (body : list token)
      (p name_beg e name_end : token) (l : list statement) :
  make_tree max_rows body = Ok l ->
  forallb no_sprite_no_procedure l = true ->
  type p = keyword_proc_start -> type name_beg = identifier ->
  type e = keyword_proc_end -> type name_end = identifier ->
  token_data_eqb (data name_end) (data name_beg) = true ->
  make_tree max_rows (p :: name_beg :: body ++ [e; name_end])
    = Ok [procedure_statement name_beg name_end l].
Proof.
  intros Hbody Hl Hp Hnb He Hne Hdata.
  pose proof (@make_tree_at_fuel max_rows (S (length body)) body l Hbody
                ltac:(lia)) as Hloop.
  apply (@procedure_body_closed max_rows (S (length body))
           (S (length body)) body [name_end] e l) in Hloop;
    [| exact Hl | exact He].
  apply (@make_tree_cons max_rows (S (length body))
           (p :: name_beg :: body ++ [e; name_end]) []);
    [| reflexivity].
  unfold parse_primary_statement. rewrite Hp.
  unfold present, parse_procedure, bind.
  rewrite (expect_one _ Hp), (expect_one _ Hnb), Hloop.
  rewrite (expect_one _ He), (expect_one _ Hne), Hdata. reflexivity.
Qed.

(** C2, as the code has it: the nested list of a label, whatever tokens it
    is parsed from, holds defines, configs, raw words and instructions only,
    never a label, and a label that follows a label ends it. When [ts1] is
    the tokens of one label and [ts2], which starts with the [.] of a label,
    parses to the statements [tree2], then [tree2] starts with a label and
    holds labels only; on [ts1] followed by [ts2] [parse_label] returns the
    first label and leaves [ts2]; at the top level [make_tree] returns the
    first label followed by [tree2]; and between [proc name] and
    [endp name] the procedure holds the first label followed by [tree2]. *)
Theorem label_ends_at_next_label
        (max_rows : nat) (ts1 ts2 : list token) (l1 : statement)
        (tree2 : list statement) :
  make_tree max_rows ts1 = Ok [l1] -> is_label l1 = true ->
  make_tree max_rows ts2 = Ok tree2 ->
  (exists t ts2', ts2 = t :: ts2' /\ type t = dot_label) ->
  (forall fuel ts s rest,
     parse_label fuel ts = Ok (s, rest) ->
     exists name inner,
       s = label_statement name inner /\
       Forall (fun x => is_simple x = true /\ is_label x = false) inner) /\
  ((exists l2 more, tree2 = l2 :: more) /\
   forallb is_label tree2 = true) /\
  (forall fuel,
     length ts1 < fuel -> parse_label fuel (ts1 ++ ts2) = Ok (l1, ts2)) /\
  make_tree max_rows (ts1 ++ ts2) = Ok (l1 :: tree2) /\
  (forall p name_beg e name_end,
     type p = keyword_proc_start -> type name_beg = identifier ->
     type e = keyword_proc_end -> type name_end = identifier ->
     token_data_eqb (data name_end) (data name_beg) = true ->
     make_tree max_rows (p :: name_beg :: ts1 ++ ts2 ++ [e; name_end])
       = Ok [procedure_statement name_beg name_end (l1 :: tree2)]).
Proof.
  intros H1 Hl1 H2 [t [ts2' [-> Ht]]].
  assert (Hend : at_label_end (t :: ts2')) by (left; exact Ht).
  (* the first label, alone, is what [parse_label] returns on [ts1] *)
  assert (Hlabel : forall fuel,
    length ts1 < fuel -> parse_label fuel ts1 = Ok (l1, [])).
  { intros fuel Hfuel.
    pose proof (@make_tree_at_fuel max_rows fuel ts1 [l1] H1 Hfuel) as Hloop.
    destruct fuel as [|k]; [lia |]. remember (S k) as fuel eqn:Ek.
    rewrite Ek in Hloop at 1. rewrite parse_statements_step in Hloop.
    destruct (parse_primary_statement max_rows fuel ts1)
      as [[[s|] ts1'] | x |] eqn:E; try discriminate.
    destruct (parse_statements k
                (parse_primary_statement max_rows fuel) ts1')
      as [[more rest] | x |] eqn:E2; try discriminate.
    inversion Hloop; subst s more rest.
    assert (Hnil : ts1' = []).
    { destruct k as [|n]; [discriminate |].
      rewrite parse_statements_step in E2.
      destruct (parse_primary_statement max_rows fuel ts1')
        as [[[s|] ts3] | x |] eqn:E3; try discriminate.
      - destruct (parse_statements n
                    (parse_primary_statement max_rows fuel) ts3)
          as [[more rest] | x |]; discriminate.
      - apply parse_primary_statement_none in E3. tauto. }
    subst ts1'.
    destruct (make_tree_starts _ _ H1) as [_ Hstart].
    cbn [forallb] in Hstart. rewrite Hl1 in Hstart.
    specialize (Hstart eq_refl).
    unfold parse_primary_statement in E.
    destruct ts1 as [|x ts1]; [discriminate |]. simpl in Hstart.
    destruct Hstart as [Hx | Hx]; rewrite Hx in E; [| discriminate].
    apply present_ok in E. destruct E as [s [Hs E]].
    inversion Hs; subst s. exact E. }
  assert (Hall : forallb is_label tree2 = true).
  { apply make_tree_ok in H2.
    apply (proj2 (@labels_last_loop _
             (@parse_primary_statement_label_end max_rows _)
             (@parse_primary_statement_at_label_end max_rows _)
             _ _ _ _ H2) Hend). }
  assert (Htop : make_tree max_rows (ts1 ++ t :: ts2') = Ok (l1 :: tree2)).
  { apply (make_tree_app H1 H2).
    cbn [app labels_last]. rewrite Hl1. exact Hall. }
  split; [| split; [| split; [| split]]].
  - intros fuel ts s rest H.
    apply parse_label_ok in H. destruct H as [name [inner [-> [Hsimple _]]]].
    exists name, inner. split; [reflexivity |].
    eapply Forall_impl; [| exact Hsimple].
    intros x Hx. split; [exact Hx | apply simple_not_label; exact Hx].
  - split; [| exact Hall].
    apply make_tree_statements_read in H2.
    inversion H2 as [|fuel ts rest l2 more Hl2 Hmore]; subst.
    exists l2, more. reflexivity.
  - intros fuel Hfuel.
    apply (@carries_parse_label fuel ts1 l1 [] (t :: ts2')
             (Hlabel fuel Hfuel)).
    intros _. exact Hend.
  - exact Htop.
  - intros p name_beg e name_end Hp Hnb He Hne Hdata.
    rewrite app_assoc.
    apply (@procedure_around max_rows (ts1 ++ t :: ts2') p name_beg e
             name_end (l1 :: tree2) Htop); try assumption.
    cbn [forallb]. rewrite (labels_hold_no_procedure _ Hall), andb_true_r.
    destruct l1; try discriminate. reflexivity.
Qed.

Lemma label_ends_at_next_label_witness :
  parse_label 9
    ((label_tokens "a" ++ raw_tokens 1) ++ label_tokens "b" ++ raw_tokens 2)
    = Ok (label_statement (ident "a") [raw_word 1],
          label_tokens "b" ++ raw_tokens 2)
  /\ make_tree 15
       ((label_tokens "a" ++ raw_tokens 1)
          ++ label_tokens "b" ++ raw_tokens 2)
     = Ok [label_statement (ident "a") [raw_word 1];
           label_statement (ident "b") [raw_word 2]]
  /\ make_tree 15
       (punct keyword_proc_start :: ident "f"
          :: (label_tokens "a" ++ raw_tokens 1)
          ++ (label_tokens "b" ++ raw_tokens 2)
          ++ [punct keyword_proc_end; ident "f"])
     = Ok [procedure_statement (ident "f") (ident "f")
             [label_statement (ident "a") [raw_word 1];
              label_statement (ident "b") [raw_word 2]]].
Proof.
  destruct (@label_ends_at_next_label 15
              (label_tokens "a" ++ raw_tokens 1)
              (label_tokens "b" ++ raw_tokens 2)
              (label_statement (ident "a") [raw_word 1])
              [label_statement (ident "b") [raw_word 2]]
              eq_refl eq_refl eq_refl
              (ex_intro _ (punct dot_label)
                 (ex_intro _ (ident "b" :: punct colon :: raw_tokens 2)
                    (conj eq_refl eq_refl))))
    as [_ [_ [Hlabel [Htop Hproc]]]].
  split; [| split].
  - apply (Hlabel 9). simpl. lia.
  - exact Htop.
  - apply (Hproc (punct keyword_proc_start) (ident "f")
             (punct keyword_proc_end) (ident "f")); reflexivity.
Defined.

(** ** Moving a top-level statement *)

Lemma stable_sort_moved {A} (key : A -> Z) (s : A)
      (mid l l' : list A) :
  moved_across [s] mid l l' ->
  (Forall (fun m => key m <> key s) mid ->
   stable_sort (by_key_desc key) l = stable_sort (by_key_desc key) l') /\
  ((exists m, In m mid /\ key m = key s /\ m <> s) ->
   stable_sort (by_key_desc key) l <> stable_sort (by_key_desc key) l').
Proof.
  intros Hmoved. destruct Hmoved as [pre post | pre post]; cbn [app]; split.
  - apply stable_sort_move.
  - apply stable_sort_move_equal.
  - intros H. symmetry. apply stable_sort_move. exact H.
  - intros H Heq. symmetry in Heq. revert Heq.
    apply stable_sort_move_equal. exact H.
Qed.

(** The parts of a program that parses, put in another order in which,
    too, only labels stand behind a label. *)
Lemma moved_program_parses (max_rows : nat) (program : list token)
      (s : statement) (mid tree tree' : list statement) :
  make_tree max_rows program = Ok tree ->
  moved_across [s] mid tree tree' ->
  labels_last tree' = true ->
  exists moved across program',
    make_tree max_rows moved = Ok [s] /\
    make_tree max_rows across = Ok mid /\
    moved_across moved across program program' /\
    make_tree max_rows program' = Ok tree'.
Proof.
  assert (Hsuffix : forall l1 l2,
    labels_last (l1 ++ l2) = true -> labels_last l2 = true).
  { intros l1 l2 H. apply (proj1 (labels_last_app l1 l2 H)). }
  intros Hprogram Hmoved Hlast.
  destruct Hmoved as [pre post | pre post].
  - destruct (@make_tree_split max_rows program pre ([s] ++ mid ++ post)
                Hprogram) as [front [rest1 [-> [Hfront H1]]]].
    destruct (@make_tree_split max_rows rest1 [s] (mid ++ post) H1)
      as [moved [rest2 [-> [Hmoved H2]]]].
    destruct (@make_tree_split max_rows rest2 mid post H2)
      as [across [back [-> [Hacross Hback]]]].
    exists moved, across, (front ++ across ++ moved ++ back).
    split; [exact Hmoved |]. split; [exact Hacross |].
    split; [apply moved_behind |].
    apply (make_tree_app Hfront); [| exact Hlast].
    apply (make_tree_app Hacross);
      [| apply (Hsuffix pre); exact Hlast].
    apply (make_tree_app Hmoved Hback).
    apply (Hsuffix (pre ++ mid)). rewrite <- app_assoc. exact Hlast.
  - destruct (@make_tree_split max_rows program pre (mid ++ [s] ++ post)
                Hprogram) as [front [rest1 [-> [Hfront H1]]]].
    destruct (@make_tree_split max_rows rest1 mid ([s] ++ post) H1)
      as [across [rest2 [-> [Hacross H2]]]].
    destruct (@make_tree_split max_rows rest2 [s] post H2)
      as [moved [back [-> [Hmoved Hback]]]].
    exists moved, across, (front ++ moved ++ across ++ back).
    split; [exact Hmoved |]. split; [exact Hacross |].
    split; [apply moved_in_front |].
    apply (make_tree_app Hfront); [| exact Hlast].
    apply (make_tree_app Hmoved);
      [| apply (Hsuffix pre); exact Hlast].
    apply (make_tree_app Hacross Hback).
    apply (Hsuffix (pre ++ [s])). rewrite <- app_assoc. exact Hlast.
Qed.

(** C7, as the code has it. In a program that parses, the tokens of one
    top-level statement are moved across the tokens of the top-level
    statements next to it, behind them or in front of them. When in the new
    order, too, no statement other than a label stands behind a label, the
    new program parses, to the same statements with the moved one at its
    new place. When also every statement moved across has a priority that
    differs from the moved statement's, the sorted sequence handed to the
    generator is the same, and so is the result of [generate] when the
    symbol pass accepts both orders. Statements of one priority keep their
    source order through the sort, so across a different statement of its
    own priority the move changes the sequence handed to the generator. A
    program that differs from the new program in the source locations of
    its tokens only, as the moved text gives when it is lexed, parses to
    the same statements up to the locations, and when the priority, the
    symbol pass and the generator do not depend on the locations, the
    sorted sequence is the same up to them and the result of [generate] is
    the same. *)
Theorem moving_across_other_priorities
        (max_rows : nat) (priority : statement -> Z)
        (sanitizer_traverse : list statement -> option exception)
        (generator_generate : list statement -> exception + list Z)
        (program : list token) (s : statement)
        (mid tree tree' : list statement) :
  make_tree max_rows program = Ok tree ->
  moved_across [s] mid tree tree' ->
  labels_last tree' = true ->
  exists moved across program',
    make_tree max_rows moved = Ok [s] /\
    make_tree max_rows across = Ok mid /\
    moved_across moved across program program' /\
    make_tree max_rows program' = Ok tree' /\
    (Forall (fun m => priority m <> priority s) mid ->
     sorted_statements priority tree = sorted_statements priority tree' /\
     (sanitizer_traverse tree = None ->
      sanitizer_traverse tree' = None ->
      generate priority sanitizer_traverse generator_generate tree =
      generate priority sanitizer_traverse generator_generate tree')) /\
    (forall p l,
       with_key priority p (sorted_statements priority l) =
       with_key priority p l) /\
    ((exists m, In m mid /\ priority m = priority s /\ m <> s) ->
     sorted_statements priority tree <> sorted_statements priority tree') /\
    (forall relocated,
       map unlocated relocated = map unlocated program' ->
       exists relocated_tree,
         make_tree max_rows relocated = Ok relocated_tree /\
         map unlocated_statement relocated_tree
           = map unlocated_statement tree' /\
         ((forall a, priority (unlocated_statement a) = priority a) ->
          Forall (fun m => priority m <> priority s) mid ->
          map unlocated_statement
            (sorted_statements priority relocated_tree) =
          map unlocated_statement (sorted_statements priority tree) /\
          (blind_stage sanitizer_traverse ->
           blind_stage generator_generate ->
           sanitizer_traverse tree = None ->
           sanitizer_traverse tree' = None ->
           generate priority sanitizer_traverse generator_generate
             relocated_tree =
           generate priority sanitizer_traverse generator_generate
             tree))).
Proof.
  intros Hprogram Hmoved Hlast.
  destruct (@moved_program_parses max_rows program s mid tree tree'
              Hprogram Hmoved Hlast)
    as [moved [across [program' [Hs [Hmid [Htokens Hthere]]]]]].
  exists moved, across, program'.
  split; [exact Hs |]. split; [exact Hmid |].
  split; [exact Htokens |]. split; [exact Hthere |].
  destruct (@stable_sort_moved _ priority s mid tree tree' Hmoved)
    as [Hsame Hdiffer].
  split; [| split; [| split]].
  - intros Hother. pose proof (Hsame Hother) as Hsort.
    split; [exact Hsort |]. intros Hs1 Hs2.
    unfold generate, sanitize.
    unfold sorted_statements, priority_greater in *.
    unfold by_key_desc in Hsort.
    rewrite Hs1, Hs2, Hsort. reflexivity.
  - intros p l. apply (stable_sort_stable priority).
  - exact Hdiffer.
  - intros relocated Htext.
    destruct (@make_tree_same_text max_rows _ relocated _ Htext Hthere)
      as [relocated_tree [Htree Hstatements]].
    exists relocated_tree.
    split; [exact Htree |]. split; [exact Hstatements |].
    intros Hp Hother.
    assert (Hsorted :
      map unlocated_statement (sorted_statements priority relocated_tree) =
      map unlocated_statement (sorted_statements priority tree)).
    { rewrite <- !(@sorted_statements_unlocated priority _ Hp), Hstatements.
      rewrite !(@sorted_statements_unlocated priority _ Hp). f_equal.
      symmetry. apply (Hsame Hother). }
    split; [exact Hsorted |]. intros Hsan Hgen Hs1 Hs2.
    unfold generate, sanitize.
    rewrite (Hsan _ _ Hstatements), Hs1, Hs2.
    rewrite (Hgen _ _ Hsorted). reflexivity.
Qed.

Lemma moving_across_other_priorities_witness :
  exists moved across program',
    make_tree 15 moved = Ok [define_statement (ident "X") (num 5)] /\
    make_tree 15 across = Ok [raw_word 1] /\
    moved_across moved across
      ([punct keyword_define; ident "X"; num 5] ++ raw_tokens 1
         ++ label_tokens "a" ++ raw_tokens 2)
      program' /\
    make_tree 15 program'
      = Ok [raw_word 1; define_statement (ident "X") (num 5);
            label_statement (ident "a") [raw_word 2]] /\
    generate
      (fun s => match kind_of s with kind_define => 2 | _ => 1 end)%Z
      (fun _ => None)
      (spec_generator (fun _ _ _ => inl (chasm_exception "opcode"))
                      (fun _ _ => [])
                      (fun _ _ => inl (chasm_exception "symbol")))
      [define_statement (ident "X") (num 5); raw_word 1;
       label_statement (ident "a") [raw_word 2]] =
    generate
      (fun s => match kind_of s with kind_define => 2 | _ => 1 end)%Z
      (fun _ => None)
      (spec_generator (fun _ _ _ => inl (chasm_exception "opcode"))
                      (fun _ _ => [])
                      (fun _ _ => inl (chasm_exception "symbol")))
      [raw_word 1; define_statement (ident "X") (num 5);
       label_statement (ident "a") [raw_word 2]].
Proof.
  destruct (@moving_across_other_priorities 15
              (fun s => match kind_of s with kind_define => 2 | _ => 1 end)%Z
              (fun _ => None)
              (spec_generator (fun _ _ _ => inl (chasm_exception "opcode"))
                              (fun _ _ => [])
                              (fun _ _ => inl (chasm_exception "symbol")))
              ([punct keyword_define; ident "X"; num 5] ++ raw_tokens 1
                 ++ label_tokens "a" ++ raw_tokens 2)
              (define_statement (ident "X") (num 5))
              [raw_word 1]
              [define_statement (ident "X") (num 5); raw_word 1;
               label_statement (ident "a") [raw_word 2]]
              [raw_word 1; define_statement (ident "X") (num 5);
               label_statement (ident "a") [raw_word 2]]
              eq_refl
              (@moved_behind statement
                 [define_statement (ident "X") (num 5)] [raw_word 1] []
                 [label_statement (ident "a") [raw_word 2]])
              eq_refl)
    as [moved [across [program'
         [Hmoved [Hacross [Htokens [Hthere [Hsame _]]]]]]]].
  exists moved, across, program'.
  split; [exact Hmoved |]. split; [exact Hacross |].
  split; [exact Htokens |]. split; [exact Hthere |].
  apply Hsame.
  - constructor; [simpl; discriminate | constructor].
  - reflexivity.
  - reflexivity.
Defined.

(** ** Operand lists *)

Lemma parse_operand_starts (ts rest : list token) (op : instruction_operand) :
  parse_operand ts = Ok (op, rest) -> starts_operand ts = true.
Proof.
  destruct ts as [|t ts]; [discriminate |].
  rewrite parse_operand_cons. simpl.
  destruct (type t); simpl; try discriminate; reflexivity.
Qed.

Lemma next_any_of_starts (ts : list token) :
  next_any_of operand_starters ts = Ok (starts_operand ts, ts).
Proof. destruct ts; reflexivity. Qed.

Lemma parse_operands_none (fuel : nat) (ts : list token) :
  starts_operand ts = false -> parse_operands (S fuel) ts = Ok ([], ts).
Proof.
  intros Hs. simpl. unfold bind. rewrite next_any_of_starts, Hs. reflexivity.
Qed.

Lemma parse_operands_one (fuel : nat) (ts rest : list token)
      (op : instruction_operand) :
  parse_operand ts = Ok (op, rest) ->
  parse_operands (S fuel) ts =
  match advance_if comma rest with
  | Ok (true, rest') =>
      match parse_operands fuel rest' with
      | Ok (more, rest'') => Ok (op :: more, rest'')
      | Throw e => Throw e
      | OutOfFuel => OutOfFuel
      end
  | Ok (false, rest') => Ok ([op], rest')
  | Throw e => Throw e
  | OutOfFuel => OutOfFuel
  end.
Proof.
  intros Hop. simpl. unfold bind.
  rewrite next_any_of_starts, (@parse_operand_starts _ _ _ Hop), Hop.
  destruct (advance_if comma rest) as [[[|] rest'] | e |]; reflexivity.
Qed.

Lemma dispatchers_refuse_operand (max_rows fuel : nat) (t : token)
      (rest : list token) :
  starts_operand (t :: rest) = true \/ type t = comma ->
  parse_primary_statement max_rows fuel (t :: rest)
    = Throw (unexpected_error t) /\
  parse_label_inner_statement fuel (t :: rest)
    = Throw (unexpected_error t) /\
  parse_procedure_inner_statement fuel (t :: rest)
    = Throw (unexpected_error t).
Proof.
  unfold parse_primary_statement, parse_label_inner_statement,
    parse_procedure_inner_statement. simpl.
  intros [Hs | Hc].
  - destruct (type t); simpl in Hs; try discriminate; auto.
  - rewrite Hc. auto.
Qed.

(** X5: a comma behind the last operand is taken and forgotten: when an
    operand is followed by a comma and what follows the comma cannot start
    an operand, the operand list ends there with the comma consumed, and
    the instruction is returned as if the comma were not written. *)
Theorem trailing_comma_is_taken
        (fuel : nat) (mnemonic sep : token) (ts rest : list token)
        (op : instruction_operand) :
  type mnemonic = instruction ->
  parse_operand ts = Ok (op, sep :: rest) ->
  type sep = comma ->
  starts_operand rest = false ->
  parse_operands (S (S fuel)) ts = Ok ([op], rest) /\
  parse_instruction (S (S fuel)) (mnemonic :: ts)
    = Ok (instruction_statement mnemonic [op], rest).
Proof.
  intros Hm Hop Hsep Hrest.
  assert (Hops : parse_operands (S (S fuel)) ts = Ok ([op], rest)).
  { rewrite (@parse_operands_one _ _ _ _ Hop), (advance_if_same _ Hsep).
    rewrite (@parse_operands_none _ _ Hrest). reflexivity. }
  split; [exact Hops |].
  unfold parse_instruction, bind. rewrite (expect_one _ Hm), Hops.
  reflexivity.
Qed.

Lemma trailing_comma_is_taken_witness :
  parse_operands 2 [punct register_name; punct comma; punct instruction]
    = Ok ([make_reg (punct register_name)], [punct instruction])
  /\ parse_instruction 2
       [punct instruction; punct register_name; punct comma;
        punct instruction]
     = Ok (instruction_statement (punct instruction)
             [make_reg (punct register_name)],
           [punct instruction]).
Proof.
  apply (@trailing_comma_is_taken 0 (punct instruction) (punct comma)
           [punct register_name; punct comma; punct instruction]
           [punct instruction] (make_reg (punct register_name)));
    reflexivity.
Defined.

(** X6: operands need the comma: when an operand is not followed by a
    comma the operand list ends behind it, whatever follows; a second
    operand written without the comma is left for the statement
    dispatchers, and each of them throws it back as unexpected. An
    instruction in front of a token that cannot start an operand has no
    operands and leaves the tokens as they are. *)
Theorem operands_need_commas
        (max_rows fuel : nat) (ts rest : list token)
        (op : instruction_operand) :
  parse_operand ts = Ok (op, rest) ->
  match rest with [] => True | t :: _ => type t <> comma end ->
  parse_operands (S fuel) ts = Ok ([op], rest) /\
  (forall t rest',
     rest = t :: rest' -> starts_operand rest = true ->
     parse_primary_statement max_rows fuel rest
       = Throw (unexpected_error t) /\
     parse_label_inner_statement fuel rest = Throw (unexpected_error t) /\
     parse_procedure_inner_statement fuel rest
       = Throw (unexpected_error t)) /\
  (forall mnemonic,
     type mnemonic = instruction -> starts_operand rest = false ->
     parse_instruction (S fuel) (mnemonic :: rest)
       = Ok (instruction_statement mnemonic [], rest)).
Proof.
  intros Hop Hrest. split; [| split].
  - rewrite (@parse_operands_one _ _ _ _ Hop).
    destruct rest as [|t rest']; [reflexivity |].
    rewrite (@advance_if_other comma _ _ Hrest). reflexivity.
  - intros t rest' -> Hs. apply dispatchers_refuse_operand. left. exact Hs.
  - intros mnemonic Hm Hs. unfold parse_instruction, bind.
    rewrite (expect_one _ Hm), (@parse_operands_none _ _ Hs). reflexivity.
Qed.

Lemma operands_need_commas_witness :
  parse_operands 1 [punct register_name; num 3]
    = Ok ([make_reg (punct register_name)], [num 3])
  /\ make_tree 15 [punct instruction; punct register_name; num 3]
     = Throw (unexpected_error (num 3)).
Proof.
  split.
  - apply (proj1 (@operands_need_commas 15 0
                    [punct register_name; num 3] [num 3]
                    (make_reg (punct register_name)) eq_refl
                    ltac:(simpl; discriminate))).
  - reflexivity.
Defined.

(** ** Every loop of the parser ends *)

(** X7: the loops of the parser end: run with more iterations than there
    are tokens, the operand loop, the row loop of a sprite, the statement
    loops of a label, of a procedure and of [make_tree] never use up their
    iterations, since an iteration that does not end its loop consumes a
    token; so [make_tree] returns a tree or throws, for every token
    sequence, and any greater bound gives the same result. *)
Theorem parser_loops_end (max_rows fuel : nat) (ts : list token) :
  length ts < fuel ->
  parse_operands fuel ts <> OutOfFuel /\
  parse_instruction fuel ts <> OutOfFuel /\
  parse_sprite max_rows fuel ts <> OutOfFuel /\
  parse_label fuel ts <> OutOfFuel /\
  parse_procedure fuel ts <> OutOfFuel /\
  make_tree_fuel max_rows fuel ts <> OutOfFuel /\
  make_tree_fuel max_rows fuel ts
    = make_tree_fuel max_rows (S (length ts)) ts /\
  make_tree max_rows ts <> OutOfFuel.
Proof.
  intros Hlen.
  assert (Hle : length ts <= fuel) by lia.
  split; [apply finishes_parse_operands; exact Hlen |].
  split; [apply finishes_parse_instruction; exact Hle |].
  split; [apply finishes_parse_sprite; exact Hle |].
  split; [apply finishes_parse_label; exact Hle |].
  split; [apply finishes_parse_procedure; exact Hle |].
  split; [apply finishes_make_tree_fuel; exact Hlen |].
  split; [apply make_tree_fuel_enough; exact Hlen |].
  destruct (make_tree_total max_rows ts) as [[tree H] | [e H]];
    rewrite H; discriminate.
Qed.

Lemma parser_loops_end_witness :
  parse_operands 4 [punct register_name; punct comma; num 1] <> OutOfFuel /\
  parse_instruction 4 [punct register_name; punct comma; num 1]
    <> OutOfFuel /\
  parse_sprite 15 4 [punct register_name; punct comma; num 1]
    <> OutOfFuel /\
  parse_label 4 [punct register_name; punct comma; num 1] <> OutOfFuel /\
  parse_procedure 4 [punct register_name; punct comma; num 1]
    <> OutOfFuel /\
  make_tree_fuel 15 4 [punct register_name; punct comma; num 1]
    <> OutOfFuel /\
  make_tree_fuel 15 4 [punct register_name; punct comma; num 1]
    = make_tree_fuel 15 (S (length [punct register_name; punct comma; num 1]))
        [punct register_name; punct comma; num 1] /\
  make_tree 15 [punct register_name; punct comma; num 1] <> OutOfFuel.
Proof.
  apply (@parser_loops_end 15 4 [punct register_name; punct comma; num 1]).
  simpl. lia.
Defined.

(** ** The tree after [generate] *)

Lemma stable_sort_of_descending {A} (key : A -> Z) (l : list A) :
  descending key l -> stable_sort (by_key_desc key) l = l.
Proof.
  intros Hd. symmetry. apply stable_sort_unique; [exact Hd |].
  intros p. reflexivity.
Qed.

(** X8: a statement sequence that is already in descending order of
    priority is handed to the generator as it is, so sorting twice is
    sorting once, and statements that all have one priority keep their
    source order. *)
Theorem sorted_statements_stay (priority : statement -> Z)
        (statements : list statement) :
  (descending priority statements ->
   sorted_statements priority statements = statements) /\
  sorted_statements priority (sorted_statements priority statements)
    = sorted_statements priority statements /\
  (forall p,
     Forall (fun s => priority s = p) statements ->
     sorted_statements priority statements = statements).
Proof.
  split; [| split].
  - apply (@stable_sort_of_descending _ priority).
  - apply (@stable_sort_of_descending _ priority).
    apply (stable_sort_descending priority).
  - intros p Hall. apply (@stable_sort_of_descending _ priority).
    induction Hall as [|s l Hs Hall IH]; constructor; [| exact IH].
    eapply Forall_impl; [| exact Hall]. simpl. intros a Ha. lia.
Qed.

Lemma sorted_statements_stay_witness :
  sorted_statements
    (fun s => match kind_of s with kind_define => 2 | _ => 1 end)%Z
    [define_statement (ident "X") (num 5); raw_word 2; raw_word 1]
  = [define_statement (ident "X") (num 5); raw_word 2; raw_word 1].
Proof.
  apply (proj1 (sorted_statements_stay
                  (fun s => match kind_of s with
                            | kind_define => 2
                            | _ => 1
                            end)%Z
                  [define_statement (ident "X") (num 5); raw_word 2;
                   raw_word 1])).
  repeat constructor; simpl; lia.
Defined.

(** X9: [generate] sorts the tree it is called on. When the symbol pass
    throws, the tree is left as it was. When it accepts, [branches] returns
    the sorted statements afterwards, whether or not the generator throws,
    and a second call, whose symbol pass accepts the sorted order, returns
    what the first call returned and leaves the tree as the first call left
    it. *)
Theorem generate_sorts_in_place
        (priority : statement -> Z)
        (sanitizer_traverse : list statement -> option exception)
        (generator_generate : list statement -> exception + list Z)
        (tree : abstract_tree) :
  fst (generate_tree priority sanitizer_traverse generator_generate tree)
    = generate priority sanitizer_traverse generator_generate
        (branches tree) /\
  (forall e,
     sanitizer_traverse (branches tree) = Some e ->
     generate_tree priority sanitizer_traverse generator_generate tree
       = (Throw e, tree)) /\
  (sanitizer_traverse (branches tree) = None ->
   branches
     (snd (generate_tree priority sanitizer_traverse generator_generate
             tree))
     = sorted_statements priority (branches tree) /\
   (sanitizer_traverse (sorted_statements priority (branches tree))
      = None ->
    generate_tree priority sanitizer_traverse generator_generate
      (snd (generate_tree priority sanitizer_traverse generator_generate
              tree))
    = generate_tree priority sanitizer_traverse generator_generate tree)).
Proof.
  unfold generate_tree, generate, sanitize, branches, sorted_statements.
  split; [| split].
  - destruct (sanitizer_traverse (statements tree)); reflexivity.
  - intros e He. rewrite He. reflexivity.
  - intros Hs. rewrite Hs. simpl. split; [reflexivity |].
    intros Hs2. rewrite Hs2.
    change (stable_sort (priority_greater priority)
              (stable_sort (priority_greater priority) (statements tree)))
      with (stable_sort (by_key_desc priority)
              (stable_sort (by_key_desc priority) (statements tree))).
    rewrite (@stable_sort_of_descending _ priority _
               (stable_sort_descending priority (statements tree))).
    reflexivity.
Qed.

Lemma generate_sorts_in_place_witness :
  branches
    (snd (generate_tree
            (fun s => match kind_of s with kind_define => 2 | _ => 1 end)%Z
            (fun _ => None) (fun _ => inl (chasm_exception "opcode"))
            (new_abstract_tree
               [raw_word 1; define_statement (ident "X") (num 5)])))
  = sorted_statements
      (fun s => match kind_of s with kind_define => 2 | _ => 1 end)%Z
      (branches
         (new_abstract_tree
            [raw_word 1; define_statement (ident "X") (num 5)])).
Proof.
  apply (proj1 (proj2 (proj2
           (generate_sorts_in_place
              (fun s => match kind_of s with kind_define => 2 | _ => 1 end)%Z
              (fun _ => None) (fun _ => inl (chasm_exception "opcode"))
              (new_abstract_tree
                 [raw_word 1; define_statement (ident "X") (num 5)])))
         eq_refl)).
Defined.

(** ** Printing tokens *)

(** X10: [to_string] names seventeen kinds of token, each with a name of
    its own, and prints the seven kinds it has no case for (config, default,
    sprite, proc, endp, the sprite sigil and the equals sign) as
    [undefined]: two kinds print alike only when they are the same kind or
    both among those seven. *)
Theorem to_string_names (a b : token_type) :
  (to_string a = "undefined"%string <-> In a unnamed_kinds) /\
  (to_string a = to_string b ->
   a = b \/ (In a unnamed_kinds /\ In b unnamed_kinds)) /\
  to_string a <> ""%string.
Proof.
  split; [| split].
  - split.
    + destruct a; simpl; intros H; try discriminate; tauto.
    + intros H. simpl in H.
      repeat (destruct H as [<- | H]; [reflexivity |]). contradiction.
  - destruct a, b; simpl; intros H; try discriminate H;
      first [left; reflexivity | right; split; tauto].
  - destruct a; discriminate.
Qed.

Lemma string_append_assoc (a b c : string) :
  ((a ++ b) ++ c = a ++ (b ++ c))%string.
Proof.
  induction a as [|x a IH]; simpl; [reflexivity | rewrite IH; reflexivity].
Qed.

Lemma string_append_nil (a : string) : (a ++ "")%string = a.
Proof.
  induction a as [|x a IH]; simpl; [reflexivity | rewrite IH; reflexivity].
Qed.

Lemma string_append_nonempty (a b : string) :
  b <> ""%string -> (a ++ b)%string <> ""%string.
Proof. destruct a; simpl; [auto | discriminate]. Qed.

Lemma to_string_nonempty (ty : token_type) : to_string ty <> ""%string.
Proof. destruct ty; discriminate. Qed.

Lemma concat_empty_cons (x : string) (l : list string) :
  String.concat "" (x :: l) = (x ++ String.concat "" l)%string.
Proof.
  destruct l as [|y l]; simpl; [| reflexivity].
  rewrite string_append_nil. reflexivity.
Qed.

Lemma join_types_from (types : list token_type) (joined : string) :
  joined <> ""%string ->
  fold_left join_type types joined =
  (joined
     ++ String.concat "" (map (fun ty => ", " ++ to_string ty) types))%string.
Proof.
  revert joined. induction types as [|ty types IH]; intros joined Hne.
  - simpl. rewrite string_append_nil. reflexivity.
  - cbn [fold_left]. unfold join_type at 2.
    rewrite (proj2 (String.eqb_neq joined "") Hne).
    rewrite IH.
    + cbn [map]. rewrite concat_empty_cons.
      rewrite !string_append_assoc. reflexivity.
    + apply string_append_nonempty, to_string_nonempty.
Qed.

Lemma concat_separator (x : string) (l : list string) :
  String.concat ", " (x :: l) =
  (x ++ String.concat "" (map (fun s => ", " ++ s) l))%string.
Proof.
  revert x. induction l as [|y l IH]; intros x.
  - simpl. rewrite string_append_nil. reflexivity.
  - change (String.concat ", " (x :: y :: l))
      with (x ++ ", " ++ String.concat ", " (y :: l))%string.
    rewrite IH. cbn [map]. rewrite concat_empty_cons.
    rewrite !string_append_assoc. reflexivity.
Qed.

(** X11: the printed list of expected kinds is the names of the kinds, in
    order, with a comma and a blank between neighbours, in parentheses; the
    test for the empty string that places the separators is right because
    no kind has an empty name. *)
Theorem to_string_types_joins (types : list token_type) :
  to_string_types types =
  ("(" ++ String.concat ", " (map to_string types) ++ ")")%string.
Proof.
  unfold to_string_types. f_equal. f_equal.
  destruct types as [|ty types]; [reflexivity |].
  cbn [fold_left map]. unfold join_type at 2. cbn [String.eqb].
  change ("" ++ to_string ty)%string with (to_string ty).
  rewrite (join_types_from types (to_string_nonempty ty)).
  rewrite concat_separator. rewrite map_map. reflexivity.
Qed.

(** X12: [token::to_string] gives the string of a token that holds a
    string, and the decimal numeral of a token that holds a number: the
    numeral is not empty and reads back as the number. *)
Theorem token_to_string_reads_back (t : token) :
  (forall s, data t = string_data s -> token_to_string t = s) /\
  (forall n,
     data t = uint16_data n -> (0 <= n)%Z ->
     token_to_string t <> ""%string /\
     read_decimal (token_to_string t) = Some n).
Proof.
  unfold token_to_string, read_decimal. split.
  - intros s Hd. rewrite Hd. reflexivity.
  - intros n Hd Hn. rewrite Hd.
    assert (Hnil : N.to_uint (Z.to_N n) <> Decimal.Nil).
    { destruct (Z.to_N n); [discriminate |].
      apply DecimalPos.Unsigned.to_uint_nonnil. }
    split.
    + intros Hempty.
      pose proof (NilZero.usu _ Hnil) as Hread. rewrite Hempty in Hread.
      discriminate.
    + rewrite (NilZero.usu _ Hnil). simpl.
      rewrite DecimalN.Unsigned.of_to, Z2N.id by exact Hn. reflexivity.
Qed.

Lemma token_to_string_reads_back_witness :
  token_to_string (num 1234) = "1234"%string
  /\ read_decimal (token_to_string (num 1234)) = Some 1234%Z.
Proof.
  split; [reflexivity |].
  apply (proj2 (proj2 (token_to_string_reads_back (num 1234)) 1234%Z
                  eq_refl ltac:(lia))).
Defined.

(** ** Statements without nested statements *)

Lemma expect_any (types : list token_type) (t : token) (ts : list token) :
  any_of (type t) types = true -> expect types (t :: ts) = Ok (t, ts).
Proof. intros H. rewrite expect_cons, H. reflexivity. Qed.

Arguments expect_any {types t} ts _.

Lemma any_of_two (a b : token_type) (t : token) :
  any_of (type t) [a; b] = true <-> type t = a \/ type t = b.
Proof.
  rewrite any_of_In. simpl. intuition congruence.
Qed.

(** X13: [parse_define], [parse_config] and [parse_raw] return exactly on
    their token shapes and take exactly those tokens: [define] name value,
    [config] name [=] value, with a number or [default] as the value, never
    an identifier, and [raw] [(] word [)] with a number or an identifier as
    the word. *)
Theorem simple_statement_shapes (ts rest : list token) (s : statement) :
  (parse_define ts = Ok (s, rest) <->
   exists k name value,
     ts = k :: name :: value :: rest /\
     type k = keyword_define /\ type name = identifier /\
     (type value = numerical \/ type value = keyword_default) /\
     s = define_statement name value) /\
  (parse_config ts = Ok (s, rest) <->
   exists k name eq value,
     ts = k :: name :: eq :: value :: rest /\
     type k = keyword_config /\ type name = identifier /\
     type eq = equal /\
     (type value = numerical \/ type value = keyword_default) /\
     s = config_statement name value) /\
  (parse_raw ts = Ok (s, rest) <->
   exists k open word close,
     ts = k :: open :: word :: close :: rest /\
     type k = keyword_raw /\ type open = parenthesis_open /\
     (type word = numerical \/ type word = identifier) /\
     type close = parenthesis_close /\
     s = raw_statement word).
Proof.
  split; [| split]; split.
  - unfold parse_define. intros H.
    run_bind H as k ts1 E1. run_bind H as name ts2 E2.
    run_bind H as value ts3 E3. inversion H; subst.
    apply expect_ok in E1, E2, E3.
    destruct E1 as [-> E1], E2 as [-> E2], E3 as [-> E3].
    rewrite any_of_one in E1, E2. apply token_type_beq_eq in E1, E2.
    apply any_of_two in E3. exists k, name, value. auto.
  - intros [k [name [value [-> [Hk [Hn [Hv ->]]]]]]].
    unfold parse_define, bind.
    rewrite (expect_one _ Hk), (expect_one _ Hn).
    rewrite (expect_any _ (proj2 (any_of_two _ _ _) Hv)). reflexivity.
  - unfold parse_config. intros H.
    run_bind H as k ts1 E1. run_bind H as name ts2 E2.
    run_bind H as eq ts3 E3. run_bind H as value ts4 E4.
    inversion H; subst. apply expect_ok in E1, E2, E3, E4.
    destruct E1 as [-> E1], E2 as [-> E2], E3 as [-> E3], E4 as [-> E4].
    rewrite any_of_one in E1, E2, E3.
    apply token_type_beq_eq in E1, E2, E3.
    apply any_of_two in E4. exists k, name, eq, value. auto 10.
  - intros [k [name [eq [value [-> [Hk [Hn [He [Hv ->]]]]]]]]].
    unfold parse_config, bind.
    rewrite (expect_one _ Hk), (expect_one _ Hn), (expect_one _ He).
    rewrite (expect_any _ (proj2 (any_of_two _ _ _) Hv)). reflexivity.
  - unfold parse_raw. intros H.
    run_bind H as k ts1 E1. run_bind H as open ts2 E2.
    run_bind H as word ts3 E3. run_bind H as close ts4 E4.
    inversion H; subst. apply expect_ok in E1, E2, E3, E4.
    destruct E1 as [-> E1], E2 as [-> E2], E3 as [-> E3], E4 as [-> E4].
    rewrite any_of_one in E1, E2, E4.
    apply token_type_beq_eq in E1, E2, E4.
    apply any_of_two in E3. exists k, open, word, close. auto 10.
  - intros [k [open [word [close [-> [Hk [Ho [Hw [Hc ->]]]]]]]]].
    unfold parse_raw, bind.
    rewrite (expect_one _ Hk), (expect_one _ Ho).
    rewrite (expect_any _ (proj2 (any_of_two _ _ _) Hw)).
    rewrite (expect_one _ Hc). reflexivity.
Qed.

Lemma simple_statement_shapes_witness :
  parse_define [punct keyword_define; ident "X"; punct keyword_default]
    = Ok (define_statement (ident "X") (punct keyword_default), [])
  /\ ~ (exists s rest,
          parse_define [punct keyword_define; ident "X"; ident "Y"]
            = Ok (s, rest)).
Proof.
  split.
  - apply (proj2 (proj1 (simple_statement_shapes
             [punct keyword_define; ident "X"; punct keyword_default] []
             (define_statement (ident "X") (punct keyword_default))))).
    exists (punct keyword_define), (ident "X"), (punct keyword_default).
    repeat split; auto.
  - intros [s [rest H]].
    apply (proj1 (proj1 (simple_statement_shapes _ _ _))) in H.
    destruct H as [k [name [value [Hts [_ [_ [Hv _]]]]]]].
    inversion Hts; subst. destruct Hv as [Hv | Hv]; discriminate.
Defined.

(** ** Which exception a sprite throws *)

Lemma store_rows_app (max_rows : nat) (name : token) (spr : sprite)
      (front back : list Z) :
  store_rows max_rows name spr (front ++ back) =
  match store_rows max_rows name spr front with
  | inl e => inl e
  | inr spr' => store_rows max_rows name spr' back
  end.
Proof.
  revert spr. induction front as [|v front IH]; intros spr; simpl;
    [reflexivity |].
  destruct (max_rows <=? row_count spr); [reflexivity |].
  destruct (negb (imm_matches_format v fmt_imm8)); [reflexivity |].
  apply IH.
Qed.

Lemma store_rows_front (max_rows : nat) (name : token) (front : list Z) :
  Forall (fun v => imm_matches_format v fmt_imm8 = true) front ->
  length front <= max_rows ->
  store_rows max_rows name (empty_sprite max_rows) front =
  inr {| sprite_data := front ++ repeat 0%Z (max_rows - length front);
         row_count := length front |}.
Proof.
  intros Hfit Hlen.
  pose proof (@store_rows_fits max_rows name front [] Hfit) as Hs.
  simpl in Hs. rewrite Nat.sub_0_r in Hs. apply Hs. lia.
Qed.

Lemma parse_sprite_separated (max_rows fuel : nat)
      (keyword name open sep close : token)
      (items rest : list token) (values : list Z) :
  type keyword = keyword_sprite -> type name = identifier ->
  type open = bracket_open -> type sep = comma ->
  type close = bracket_close ->
  Forall2 is_number items values -> items <> [] ->
  length items <= fuel ->
  parse_sprite max_rows fuel
    (keyword :: name :: open :: separated sep items ++ close :: rest) =
  match store_rows max_rows name (empty_sprite max_rows) values with
  | inl e => Throw e
  | inr spr => Ok (sprite_statement name spr, rest)
  end.
Proof.
  intros Hk Hn Ho Hsep Hclose Hnum Hne Hlen.
  unfold parse_sprite, bind.
  rewrite (expect_one _ Hk), (expect_one _ Hn), (expect_one _ Ho).
  rewrite (@parse_sprite_rows_separated max_rows name sep close rest
             Hsep Hclose items values Hnum Hne fuel
             (empty_sprite max_rows) Hlen).
  destruct (store_rows max_rows name (empty_sprite max_rows) values);
    [reflexivity |].
  rewrite (expect_one _ Hclose). reflexivity.
Qed.

(** X14: the rows of a sprite are checked one after the other, the count
    before the value, whatever tokens the commas between them are. The
    first row that does not fit the 8-bit format, when it is among the first
    [MAX_SPRITE_ROWS] rows, throws the exception for the digits; when the
    first [MAX_SPRITE_ROWS] rows all fit, one row more throws the exception
    for too many rows, whether or not the later rows fit. *)
Theorem sprite_exception_order
        (max_rows fuel : nat) (keyword name open close first : token)
        (more : list (token * token)) (rest : list token)
        (values : list Z) :
  type keyword = keyword_sprite -> type name = identifier ->
  type open = bracket_open -> type close = bracket_close ->
  Forall (fun c => type c = comma) (row_commas more) ->
  Forall2 is_number (row_items first more) values ->
  length more < fuel ->
  (forall front bad back,
     values = front ++ bad :: back ->
     Forall (fun v => imm_matches_format v fmt_imm8 = true) front ->
     imm_matches_format bad fmt_imm8 = false ->
     length front < max_rows ->
     parse_sprite max_rows fuel
       (keyword :: name :: open :: row_list first more ++ close :: rest)
       = Throw sprite_digit_out_of_range) /\
  (Forall (fun v => imm_matches_format v fmt_imm8 = true)
     (firstn max_rows values) ->
   max_rows < length values ->
   parse_sprite max_rows fuel
     (keyword :: name :: open :: row_list first more ++ close :: rest)
     = Throw (sprite_too_much_pixels name max_rows max_rows)).
Proof.
  intros Hk Hn Ho Hclose Hcommas Hnum Hlen.
  rewrite (@parse_sprite_listed max_rows fuel keyword name open close
             first more rest values Hk Hn Ho Hclose Hcommas Hnum Hlen).
  split.
  - intros front bad back -> Hfit Hbad Hfront.
    rewrite store_rows_app, (store_rows_front _ Hfit) by lia.
    simpl. destruct (Nat.leb_spec max_rows (length front)); [lia |].
    rewrite Hbad. reflexivity.
  - intros Hfit Hmany.
    rewrite <- (firstn_skipn max_rows values) at 1.
    assert (Hfirst : length (firstn max_rows values) = max_rows).
    { rewrite length_firstn. lia. }
    rewrite store_rows_app, (store_rows_front _ Hfit) by lia.
    destruct (skipn max_rows values) as [|v back] eqn:Eskip.
    + pose proof (length_skipn max_rows values) as Hs.
      rewrite Eskip in Hs. simpl in Hs. lia.
    + simpl. rewrite Hfirst, Nat.leb_refl. reflexivity.
Qed.

Lemma sprite_exception_order_witness :
  parse_sprite 2 3
    (located 1 0 (punct keyword_sprite) :: located 1 7 (ident "s")
       :: located 1 9 (punct bracket_open)
       :: row_list (located 1 10 (num 1))
            [(located 1 11 (punct comma), located 1 13 (num 300));
             (located 1 16 (punct comma), located 2 0 (num 2))]
       ++ located 2 1 (punct bracket_close) :: [])
    = Throw sprite_digit_out_of_range
  /\ parse_sprite 2 3
       (located 1 0 (punct keyword_sprite) :: located 1 7 (ident "s")
          :: located 1 9 (punct bracket_open)
          :: row_list (located 1 10 (num 1))
               [(located 1 11 (punct comma), located 1 13 (num 2));
                (located 1 14 (punct comma), located 2 0 (num 300))]
          ++ located 2 3 (punct bracket_close) :: [])
     = Throw (sprite_too_much_pixels (located 1 7 (ident "s")) 2 2).
Proof.
  split.
  - refine (proj1
      (@sprite_exception_order 2 3 (located 1 0 (punct keyword_sprite))
         (located 1 7 (ident "s")) (located 1 9 (punct bracket_open))
         (located 2 1 (punct bracket_close)) (located 1 10 (num 1))
         [(located 1 11 (punct comma), located 1 13 (num 300));
          (located 1 16 (punct comma), located 2 0 (num 2))]
         [] [1; 300; 2]%Z
         eq_refl eq_refl eq_refl eq_refl _ _ _)
      [1%Z] 300%Z [2%Z] eq_refl _ eq_refl _).
    + repeat constructor.
    + repeat constructor.
    + simpl. lia.
    + repeat constructor.
    + simpl. lia.
  - refine (proj2
      (@sprite_exception_order 2 3 (located 1 0 (punct keyword_sprite))
         (located 1 7 (ident "s")) (located 1 9 (punct bracket_open))
         (located 2 3 (punct bracket_close)) (located 1 10 (num 1))
         [(located 1 11 (punct comma), located 1 13 (num 2));
          (located 1 14 (punct comma), located 2 0 (num 300))]
         [] [1; 2; 300]%Z
         eq_refl eq_refl eq_refl eq_refl _ _ _) _ _).
    + repeat constructor.
    + repeat constructor.
    + simpl. lia.
    + repeat constructor.
    + simpl. lia.
Defined.

(** ** The tokens the entry point keeps *)



(** ** Every well-formed tree is parsed from its tokens *)

Lemma is_kind_eq (ty : token_type) (t : token) :
  is_kind ty t = true -> type t = ty.
Proof. unfold is_kind. apply token_type_beq_eq. Qed.

Lemma parse_tokens_of_operand (o : instruction_operand) (rest : list token) :
  operand_well_formed o = true ->
  parse_operand (tokens_of_operand o ++ rest) = Ok (o, rest).
Proof.
  destruct o as [t | t | t | t | t | t]; cbn [operand_well_formed];
    intros H; cbn [tokens_of_operand app]; rewrite parse_operand_cons.
  - apply is_kind_eq in H. rewrite H. reflexivity.
  - apply any_of_two in H. destruct H as [H | H]; rewrite H; reflexivity.
  - apply is_kind_eq in H. simpl. unfold bind.
    rewrite (expect_one _ H). reflexivity.
  - apply is_kind_eq in H. simpl. unfold bind.
    rewrite (expect_one _ H). reflexivity.
  - apply is_kind_eq in H. simpl. unfold bind.
    rewrite (expect_one _ H). reflexivity.
  - simpl. unfold bind. rewrite (expect_any _ H). reflexivity.
Qed.

Lemma tokens_of_operands_cons (o o' : instruction_operand)
      (ops : list instruction_operand) :
  tokens_of_operands (o :: o' :: ops) =
  tokens_of_operand o ++ punct comma :: tokens_of_operands (o' :: ops).
Proof. reflexivity. Qed.

Lemma tokens_of_operand_length (o : instruction_operand) :
  1 <= length (tokens_of_operand o).
Proof. destruct o; simpl; lia. Qed.

Lemma tokens_of_operands_length (ops : list instruction_operand) :
  length ops <= length (tokens_of_operands ops).
Proof.
  induction ops as [|o ops IH]; [simpl; lia |].
  destruct ops as [|o' ops].
  - simpl. pose proof (tokens_of_operand_length o). lia.
  - rewrite tokens_of_operands_cons, length_app.
    pose proof (tokens_of_operand_length o). simpl in *. lia.
Qed.

Lemma parse_tokens_of_operands (ops : list instruction_operand)
      (rest : list token) (fuel : nat) :
  forallb operand_well_formed ops = true ->
  stops_operands rest = true ->
  length ops < fuel ->
  parse_operands fuel (tokens_of_operands ops ++ rest) = Ok (ops, rest).
Proof.
  revert fuel. induction ops as [|o ops IH]; intros fuel Hwf Hrest Hfuel;
    (destruct fuel as [|fuel]; [simpl in Hfuel; lia |]).
  - apply parse_operands_none, stops_operands_starts, Hrest.
  - cbn [forallb] in Hwf. apply andb_true_iff in Hwf.
    destruct Hwf as [Ho Hops]. destruct ops as [|o' ops].
    + cbn [tokens_of_operands].
      rewrite (@parse_operands_one fuel _ _ _
                 (parse_tokens_of_operand o rest Ho)).
      rewrite (stops_operands_comma _ Hrest). reflexivity.
    + rewrite tokens_of_operands_cons, <- app_assoc.
      cbn [app].
      rewrite (@parse_operands_one fuel _ _ _
                 (parse_tokens_of_operand o _ Ho)).
      rewrite (advance_if_same _ (eq_refl : type (punct comma) = comma)).
      rewrite IH; [reflexivity | exact Hops | exact Hrest |].
      simpl in Hfuel. simpl. lia.
Qed.

Lemma parse_tokens_of_simple (fuel : nat) (s : statement)
      (rest : list token) :
  simple_well_formed s = true ->
  stops_operands rest = true ->
  length (tokens_of_simple s) <= fuel ->
  parse_label_inner_statement fuel (tokens_of_simple s ++ rest)
    = Ok (Some s, rest).
Proof.
  intros Hwf Hrest Hfuel.
  destruct s as [name value | name value | | t | | | mnemonic ops];
    cbn [simple_well_formed] in Hwf; try discriminate.
  - apply andb_true_iff in Hwf. destruct Hwf as [Hn Hv].
    apply is_kind_eq in Hn.
    unfold parse_label_inner_statement. simpl.
    unfold present, parse_define, bind.
    rewrite (expect_one _ (eq_refl : type (punct keyword_define) = _)).
    rewrite (expect_one _ Hn), (expect_any _ Hv). reflexivity.
  - apply andb_true_iff in Hwf. destruct Hwf as [Hn Hv].
    apply is_kind_eq in Hn.
    unfold parse_label_inner_statement. simpl.
    unfold present, parse_config, bind.
    rewrite (expect_one _ (eq_refl : type (punct keyword_config) = _)).
    rewrite (expect_one _ Hn).
    rewrite (expect_one _ (eq_refl : type (punct equal) = _)).
    rewrite (expect_any _ Hv). reflexivity.
  - unfold parse_label_inner_statement. simpl.
    unfold present, parse_raw, bind.
    rewrite (expect_one _ (eq_refl : type (punct keyword_raw) = _)).
    rewrite (expect_one _ (eq_refl : type (punct parenthesis_open) = _)).
    rewrite (expect_any _ Hwf).
    rewrite (expect_one _ (eq_refl : type (punct parenthesis_close) = _)).
    reflexivity.
  - apply andb_true_iff in Hwf. destruct Hwf as [Hm Hops].
    apply is_kind_eq in Hm.
    unfold parse_label_inner_statement. cbn [tokens_of_simple app].
    rewrite Hm. unfold present, parse_instruction, bind.
    rewrite (expect_one _ Hm).
    rewrite parse_tokens_of_operands; [reflexivity | exact Hops | exact Hrest |].
    pose proof (tokens_of_operands_length ops).
    cbn [tokens_of_simple length] in Hfuel. lia.
Qed.

(** What the dispatcher of a label takes, the other two take alike. *)
Lemma label_statement_elsewhere (max_rows fuel : nat) (ts rest : list token)
      (s : statement) :
  parse_label_inner_statement fuel ts = Ok (Some s, rest) ->
  parse_procedure_inner_statement fuel ts = Ok (Some s, rest) /\
  parse_primary_statement max_rows fuel ts = Ok (Some s, rest).
Proof.
  unfold parse_label_inner_statement, parse_procedure_inner_statement,
    parse_primary_statement.
  intros H. destruct ts as [|t ts]; [discriminate |].
  destruct (type t); try discriminate; auto.
Qed.

Lemma tokens_of_simple_stop (s : statement) (rest : list token) :
  simple_well_formed s = true ->
  stops_operands (tokens_of_simple s ++ rest) = true.
Proof.
  destruct s as [| | | | | | mnemonic ops]; cbn [simple_well_formed];
    intros H; try discriminate; try reflexivity.
  apply andb_true_iff in H. destruct H as [Hm _]. apply is_kind_eq in Hm.
  cbn [tokens_of_simple app stops_operands]. rewrite Hm. reflexivity.
Qed.

Lemma tokens_of_simple_length (s : statement) :
  simple_well_formed s = true -> 1 <= length (tokens_of_simple s).
Proof. destruct s; simpl; intros H; try discriminate; lia. Qed.

Lemma flat_map_simple_stop (l : list statement) (rest : list token) :
  forallb simple_well_formed l = true ->
  stops_operands rest = true ->
  stops_operands (flat_map tokens_of_simple l ++ rest) = true.
Proof.
  destruct l as [|s l]; [intros _ H; exact H |].
  cbn [forallb flat_map]. intros H _.
  apply andb_true_iff in H. destruct H as [Hs _].
  rewrite <- app_assoc. apply tokens_of_simple_stop. exact Hs.
Qed.

Lemma flat_map_simple_length (l : list statement) :
  forallb simple_well_formed l = true ->
  length l <= length (flat_map tokens_of_simple l).
Proof.
  induction l as [|s l IH]; [simpl; lia |].
  cbn [forallb flat_map]. intros H.
  apply andb_true_iff in H. destruct H as [Hs Hl].
  rewrite length_app. pose proof (tokens_of_simple_length _ Hs).
  specialize (IH Hl). simpl. lia.
Qed.

Lemma parse_tokens_of_label_body (inner : list statement)
      (rest : list token) (loop_fuel fuel : nat) :
  forallb simple_well_formed inner = true ->
  at_label_end rest ->
  length inner < loop_fuel ->
  length (flat_map tokens_of_simple inner) <= fuel ->
  parse_statements loop_fuel (parse_label_inner_statement fuel)
    (flat_map tokens_of_simple inner ++ rest) = Ok (inner, rest).
Proof.
  revert loop_fuel.
  induction inner as [|s inner IH]; intros n Hwf Hrest Hn Hfuel;
    (destruct n as [|n]; [simpl in Hn; lia |]).
  - simpl. unfold bind.
    rewrite (parse_label_inner_statement_at_end fuel _ Hrest). reflexivity.
  - cbn [forallb] in Hwf. apply andb_true_iff in Hwf.
    destruct Hwf as [Hs Hinner].
    cbn [flat_map] in *. rewrite length_app in Hfuel.
    rewrite <- app_assoc. cbn [parse_statements]. unfold bind.
    rewrite parse_tokens_of_simple;
      [| exact Hs
       | apply flat_map_simple_stop;
         [exact Hinner | apply at_label_end_stops; exact Hrest]
       | lia].
    rewrite IH; [reflexivity | exact Hinner | exact Hrest | | lia].
    simpl in Hn. lia.
Qed.

Lemma parse_tokens_of_label (fuel : nat) (s : statement)
      (rest : list token) :
  label_well_formed s = true ->
  at_label_end rest ->
  length (tokens_of_label s) <= fuel ->
  parse_label fuel (tokens_of_label s ++ rest) = Ok (s, rest).
Proof.
  destruct s as [| | | | name inner | |]; cbn [label_well_formed];
    intros Hwf Hrest Hfuel; try discriminate.
  apply andb_true_iff in Hwf. destruct Hwf as [Hn Hinner].
  apply is_kind_eq in Hn.
  cbn [tokens_of_label app length] in *.
  unfold parse_label, bind.
  rewrite (expect_one _ (eq_refl : type (punct dot_label) = _)).
  rewrite (expect_one _ Hn).
  rewrite (expect_one _ (eq_refl : type (punct colon) = _)).
  rewrite parse_tokens_of_label_body;
    [reflexivity | exact Hinner | exact Hrest | | lia].
  pose proof (flat_map_simple_length _ Hinner). lia.
Qed.

Lemma tokens_of_inner_simple (s : statement) :
  simple_well_formed s = true -> tokens_of_inner s = tokens_of_simple s.
Proof. destruct s; simpl; intros H; try discriminate; reflexivity. Qed.

Lemma tokens_of_inner_label (s : statement) :
  is_label s = true -> tokens_of_inner s = tokens_of_label s.
Proof. destruct s; simpl; intros H; try discriminate; reflexivity. Qed.

Lemma simple_is_no_label (s : statement) :
  simple_well_formed s = true -> is_label s = false.
Proof. destruct s; simpl; intros H; try discriminate; reflexivity. Qed.

Lemma label_is_label (s : statement) :
  label_well_formed s = true -> is_label s = true.
Proof. destruct s; simpl; intros H; try discriminate; reflexivity. Qed.

Lemma tokens_of_label_head (s : statement) :
  is_label s = true ->
  exists ts, tokens_of_label s = punct dot_label :: ts.
Proof.
  destruct s; simpl; intros H; try discriminate. eexists. reflexivity.
Qed.

Lemma tokens_of_inner_length (s : statement) :
  simple_well_formed s || label_well_formed s = true ->
  1 <= length (tokens_of_inner s).
Proof. destruct s; simpl; intros H; try discriminate; lia. Qed.

Lemma flat_map_inner_length (l : list statement) :
  forallb (fun x => simple_well_formed x || label_well_formed x) l = true ->
  length l <= length (flat_map tokens_of_inner l).
Proof.
  induction l as [|s l IH]; [simpl; lia |].
  cbn [forallb flat_map]. intros H.
  apply andb_true_iff in H. destruct H as [Hs Hl].
  rewrite length_app. pose proof (tokens_of_inner_length _ Hs).
  specialize (IH Hl). simpl. lia.
Qed.

Lemma tokens_of_inner_stop (s : statement) (rest : list token) :
  simple_well_formed s || label_well_formed s = true ->
  stops_operands (tokens_of_inner s ++ rest) = true.
Proof.
  intros H. apply orb_true_iff in H. destruct H as [H | H].
  - rewrite (tokens_of_inner_simple _ H). apply tokens_of_simple_stop, H.
  - apply label_is_label in H.
    rewrite (tokens_of_inner_label _ H).
    destruct (tokens_of_label_head _ H) as [ts ->]. reflexivity.
Qed.

Lemma flat_map_inner_stop (l : list statement) (rest : list token) :
  forallb (fun x => simple_well_formed x || label_well_formed x) l = true ->
  stops_operands rest = true ->
  stops_operands (flat_map tokens_of_inner l ++ rest) = true.
Proof.
  destruct l as [|s l]; [intros _ H; exact H |].
  cbn [forallb flat_map]. intros H _.
  apply andb_true_iff in H. destruct H as [Hs _].
  rewrite <- app_assoc. apply tokens_of_inner_stop. exact Hs.
Qed.

Lemma flat_map_labels_end (l : list statement) (rest : list token) :
  forallb is_label l = true ->
  at_label_end rest ->
  at_label_end (flat_map tokens_of_inner l ++ rest).
Proof.
  destruct l as [|s l]; [intros _ H; exact H |].
  cbn [forallb flat_map]. intros H _.
  apply andb_true_iff in H. destruct H as [Hs _].
  rewrite (tokens_of_inner_label _ Hs).
  destruct (tokens_of_label_head _ Hs) as [ts ->].
  simpl. left. reflexivity.
Qed.

Lemma label_in_procedure (fuel : nat) (s : statement) (rest : list token) :
  is_label s = true ->
  parse_procedure_inner_statement fuel (tokens_of_label s ++ rest) =
  present (parse_label fuel) (tokens_of_label s ++ rest).
Proof. destruct s; simpl; intros H; try discriminate; reflexivity. Qed.

Lemma label_at_top (max_rows fuel : nat) (s : statement)
      (rest : list token) :
  is_label s = true ->
  parse_primary_statement max_rows fuel (tokens_of_label s ++ rest) =
  present (parse_label fuel) (tokens_of_label s ++ rest).
Proof. destruct s; simpl; intros H; try discriminate; reflexivity. Qed.

Lemma parse_tokens_of_procedure_body (inner : list statement)
      (e : token) (rest : list token) (loop_fuel fuel : nat) :
  forallb (fun x => simple_well_formed x || label_well_formed x) inner
    = true ->
  labels_last inner = true ->
  type e = keyword_proc_end ->
  length inner < loop_fuel ->
  length (flat_map tokens_of_inner inner) <= fuel ->
  parse_statements loop_fuel (parse_procedure_inner_statement fuel)
    (flat_map tokens_of_inner inner ++ e :: rest) = Ok (inner, e :: rest).
Proof.
  intros Hwf Hlast He. revert loop_fuel Hwf Hlast.
  assert (Hend : at_label_end (e :: rest)) by (right; exact He).
  induction inner as [|s inner IH]; intros n Hwf Hlast Hn Hfuel;
    (destruct n as [|n]; [simpl in Hn; lia |]).
  - simpl. unfold bind, parse_procedure_inner_statement.
    rewrite He. reflexivity.
  - cbn [forallb] in Hwf. apply andb_true_iff in Hwf.
    destruct Hwf as [Hs Hinner].
    cbn [flat_map] in *. rewrite length_app in Hfuel.
    rewrite <- app_assoc. cbn [parse_statements]. unfold bind.
    cbn [labels_last] in Hlast.
    apply orb_true_iff in Hs. destruct Hs as [Hs | Hs].
    + rewrite (simple_is_no_label _ Hs) in Hlast.
      rewrite (tokens_of_inner_simple _ Hs) in *.
      rewrite (proj1 (@label_statement_elsewhere 0 fuel _ _ _
        (@parse_tokens_of_simple fuel s _ Hs
           (flat_map_inner_stop inner _ Hinner (at_label_end_stops _ Hend))
           ltac:(lia)))).
      rewrite IH; [reflexivity | exact Hinner | exact Hlast | | lia].
      simpl in Hn. lia.
    + pose proof (label_is_label _ Hs) as Hl. rewrite Hl in Hlast.
      rewrite (tokens_of_inner_label _ Hl) in *.
      rewrite (label_in_procedure fuel _ _ Hl). unfold present, bind.
      rewrite parse_tokens_of_label;
        [| exact Hs | apply flat_map_labels_end; assumption | lia].
      unfold ret. cbv beta iota.
      rewrite IH;
        [reflexivity | exact Hinner | apply labels_are_last, Hlast | | lia].
      simpl in Hn. lia.
Qed.

Lemma parse_tokens_of_procedure (fuel : nat) (name_beg name_end : token)
      (inner : list statement) (rest : list token) :
  well_formed 0 (procedure_statement name_beg name_end inner) = true ->
  length (flat_map tokens_of_inner inner) < fuel ->
  parse_procedure fuel
    (tokens_of_statement (procedure_statement name_beg name_end inner)
       ++ rest)
    = Ok (procedure_statement name_beg name_end inner, rest).
Proof.
  cbn [well_formed]. intros Hwf Hfuel.
  apply andb_true_iff in Hwf. destruct Hwf as [Hwf Hlast].
  apply andb_true_iff in Hwf. destruct Hwf as [Hwf Hinner].
  apply andb_true_iff in Hwf. destruct Hwf as [Hwf Hsame].
  apply andb_true_iff in Hwf. destruct Hwf as [Hb He].
  apply is_kind_eq in Hb. apply is_kind_eq in He.
  cbn [tokens_of_statement app]. rewrite <- app_assoc. cbn [app].
  unfold parse_procedure, bind.
  rewrite (expect_one _ (eq_refl : type (punct keyword_proc_start) = _)).
  rewrite (expect_one _ Hb).
  rewrite parse_tokens_of_procedure_body;
    [| exact Hinner | exact Hlast | reflexivity | | lia].
  - rewrite (expect_one _ (eq_refl : type (punct keyword_proc_end) = _)).
    rewrite (expect_one _ He). rewrite Hsame. reflexivity.
  - pose proof (flat_map_inner_length _ Hinner). lia.
Qed.

Lemma separated_length (sep : token) (items : list token) :
  length items <= length (separated sep items).
Proof.
  induction items as [|x items IH]; [simpl; lia |].
  destruct items as [|y items]; [simpl; lia |].
  change (separated sep (x :: y :: items))
    with (x :: sep :: separated sep (y :: items)).
  simpl in *. lia.
Qed.

Lemma num_is_number (rows : list Z) : Forall2 is_number (map num rows) rows.
Proof.
  induction rows as [|v rows IH]; constructor; [| exact IH].
  split; reflexivity.
Qed.

Lemma all_zero_repeat (l : list Z) :
  forallb (Z.eqb 0) l = true -> l = repeat 0%Z (length l).
Proof.
  induction l as [|v l IH]; [reflexivity |].
  cbn [forallb]. intros H. apply andb_true_iff in H. destruct H as [Hv Hl].
  apply Z.eqb_eq in Hv. subst v. simpl. f_equal. apply IH, Hl.
Qed.

Lemma is_byte_fits (rows : list Z) :
  forallb is_byte rows = true ->
  Forall (fun v => imm_matches_format v fmt_imm8 = true) rows.
Proof.
  intros H. apply Forall_forall. intros v Hv.
  rewrite forallb_forall in H. exact (H v Hv).
Qed.

Lemma parse_tokens_of_sprite (max_rows fuel : nat) (name : token)
      (spr : sprite) (rest : list token) :
  is_kind identifier name = true ->
  sprite_well_formed max_rows spr = true ->
  length (tokens_of_sprite name spr) <= fuel ->
  parse_sprite max_rows fuel (tokens_of_sprite name spr ++ rest)
    = Ok (sprite_statement name spr, rest).
Proof.
  intros Hn Hwf Hfuel. apply is_kind_eq in Hn.
  unfold sprite_well_formed, rows_in_range in Hwf.
  destruct spr as [pixels k]. cbn [sprite_data row_count] in *.
  apply andb_true_iff in Hwf. destruct Hwf as [Hwf Hzero].
  apply andb_true_iff in Hwf. destruct Hwf as [Hwf Hbytes].
  apply andb_true_iff in Hwf. destruct Hwf as [Hk Hlen].
  apply andb_true_iff in Hk. destruct Hk as [Hk1 Hk2].
  apply Nat.leb_le in Hk1. apply Nat.leb_le in Hk2.
  apply Nat.eqb_eq in Hlen.
  assert (Hrows : length (firstn k pixels) = k)
    by (apply firstn_length_le; lia).
  unfold tokens_of_sprite in *. cbn [sprite_data row_count] in *.
  cbn [app length] in *. rewrite <- app_assoc. cbn [app].
  rewrite length_app in Hfuel.
  pose proof (separated_length (punct comma) (map num (firstn k pixels)))
    as Hsep.
  rewrite length_map in Hsep.
  rewrite (@parse_sprite_separated max_rows fuel (punct keyword_sprite) name
             (punct bracket_open) (punct comma) (punct bracket_close)
             (map num (firstn k pixels)) rest (firstn k pixels)
             eq_refl Hn eq_refl eq_refl eq_refl (num_is_number _)).
  - rewrite (store_rows_front name (is_byte_fits _ Hbytes)) by lia.
    rewrite Hrows. do 4 f_equal.
    transitivity (firstn k pixels ++ skipn k pixels);
      [| apply firstn_skipn].
    f_equal. rewrite (all_zero_repeat _ Hzero), length_skipn, Hlen.
    reflexivity.
  - destruct (firstn k pixels); [simpl in Hrows; lia | discriminate].
  - rewrite length_map. lia.
Qed.

Lemma tokens_of_statement_stop (max_rows : nat) (s : statement)
      (rest : list token) :
  well_formed max_rows s = true ->
  stops_operands (tokens_of_statement s ++ rest) = true.
Proof.
  destruct s as [| | | | | | mnemonic ops]; cbn [well_formed];
    intros H; try reflexivity;
    apply (tokens_of_inner_stop _ rest); rewrite H; reflexivity.
Qed.

Lemma tokens_of_statement_length (max_rows : nat) (s : statement) :
  well_formed max_rows s = true -> 1 <= length (tokens_of_statement s).
Proof.
  destruct s; cbn [well_formed]; intros H;
    try (apply tokens_of_inner_length; rewrite H; reflexivity);
    simpl; lia.
Qed.

Lemma tokens_of_tree_length (max_rows : nat) (tree : list statement) :
  forallb (well_formed max_rows) tree = true ->
  length tree <= length (tokens_of_tree tree).
Proof.
  unfold tokens_of_tree.
  induction tree as [|s tree IH]; [simpl; lia |].
  cbn [forallb flat_map]. intros H.
  apply andb_true_iff in H. destruct H as [Hs Htree].
  rewrite length_app. pose proof (tokens_of_statement_length _ _ Hs).
  specialize (IH Htree). simpl. lia.
Qed.

Lemma tokens_of_tree_stop (max_rows : nat) (tree : list statement) :
  forallb (well_formed max_rows) tree = true ->
  stops_operands (tokens_of_tree tree) = true.
Proof.
  unfold tokens_of_tree.
  destruct tree as [|s tree]; [reflexivity |].
  cbn [forallb flat_map]. intros H.
  apply andb_true_iff in H. destruct H as [Hs _].
  apply (tokens_of_statement_stop _ _ _ Hs).
Qed.

Lemma tokens_of_labels_end (tree : list statement) :
  forallb is_label tree = true -> at_label_end (tokens_of_tree tree).
Proof.
  unfold tokens_of_tree.
  destruct tree as [|s tree]; [intros _; exact I |].
  cbn [forallb flat_map]. intros H.
  apply andb_true_iff in H. destruct H as [Hs _].
  destruct s; try discriminate. simpl. left. reflexivity.
Qed.

Lemma parse_tokens_of_statement (max_rows fuel : nat) (s : statement)
      (rest : list token) :
  well_formed max_rows s = true ->
  (is_label s = true -> at_label_end rest) ->
  stops_operands rest = true ->
  length (tokens_of_statement s) <= fuel ->
  parse_primary_statement max_rows fuel (tokens_of_statement s ++ rest)
    = Ok (Some s, rest).
Proof.
  intros Hwf Hlabel Hrest Hfuel.
  destruct s as [name value | name value | name spr | t | name inner
                 | name_beg name_end inner | mnemonic ops].
  - apply (proj2 (@label_statement_elsewhere max_rows fuel _ _ _
      (@parse_tokens_of_simple fuel _ _ Hwf Hrest Hfuel))).
  - apply (proj2 (@label_statement_elsewhere max_rows fuel _ _ _
      (@parse_tokens_of_simple fuel _ _ Hwf Hrest Hfuel))).
  - cbn [well_formed] in Hwf. apply andb_true_iff in Hwf.
    destruct Hwf as [Hn Hspr].
    cbn [tokens_of_statement] in *.
    unfold parse_primary_statement, tokens_of_sprite at 1.
    cbn [app type punct tk]. unfold present, bind.
    change (punct keyword_sprite :: name
              :: punct bracket_open
              :: (separated (punct comma)
                    (map num (firstn (row_count spr) (sprite_data spr)))
                  ++ [punct bracket_close]) ++ rest)
      with (tokens_of_sprite name spr ++ rest).
    rewrite (@parse_tokens_of_sprite max_rows fuel name spr rest Hn Hspr Hfuel).
    reflexivity.
  - apply (proj2 (@label_statement_elsewhere max_rows fuel _ _ _
      (@parse_tokens_of_simple fuel _ _ Hwf Hrest Hfuel))).
  - change (tokens_of_statement (label_statement name inner))
      with (tokens_of_label (label_statement name inner)) in *.
    rewrite (label_at_top max_rows fuel (label_statement name inner) rest
               eq_refl).
    unfold present, bind.
    rewrite (@parse_tokens_of_label fuel _ rest Hwf (Hlabel eq_refl) Hfuel).
    reflexivity.
  - assert (Hp : parse_procedure fuel
        (tokens_of_statement (procedure_statement name_beg name_end inner)
           ++ rest)
        = Ok (procedure_statement name_beg name_end inner, rest)).
    { apply parse_tokens_of_procedure; [exact Hwf |].
      cbn [tokens_of_statement length] in Hfuel.
      rewrite length_app in Hfuel. simpl in Hfuel. lia. }
    unfold parse_primary_statement.
    cbn [tokens_of_statement app type punct tk] in *.
    unfold present, bind. rewrite Hp. reflexivity.
  - apply (proj2 (@label_statement_elsewhere max_rows fuel _ _ _
      (@parse_tokens_of_simple fuel _ _ Hwf Hrest Hfuel))).
Qed.

Lemma parse_tokens_of_tree (max_rows : nat) (tree : list statement)
      (loop_fuel fuel : nat) :
  forallb (well_formed max_rows) tree = true ->
  labels_last tree = true ->
  length tree < loop_fuel ->
  length (tokens_of_tree tree) <= fuel ->
  parse_statements loop_fuel (parse_primary_statement max_rows fuel)
    (tokens_of_tree tree) = Ok (tree, []).
Proof.
  unfold tokens_of_tree. revert loop_fuel.
  induction tree as [|s tree IH]; intros n Hwf Hlast Hn Hfuel;
    (destruct n as [|n]; [simpl in Hn; lia |]).
  - reflexivity.
  - cbn [forallb] in Hwf. apply andb_true_iff in Hwf.
    destruct Hwf as [Hs Htree].
    cbn [flat_map] in *. rewrite length_app in Hfuel.
    cbn [parse_statements]. unfold bind.
    cbn [labels_last] in Hlast.
    rewrite (@parse_tokens_of_statement max_rows fuel s _ Hs);
      [| | apply (tokens_of_tree_stop _ _ Htree) | lia].
    + rewrite IH; [reflexivity | exact Htree | | simpl in Hn; lia | lia].
      destruct (is_label s); [apply labels_are_last |]; exact Hlast.
    + intros Hl. rewrite Hl in Hlast.
      apply tokens_of_labels_end, Hlast.
Qed.

(** X16: the parser accepts every tree it can build.  A list of statements
    that is well formed (the token kinds [expect] asks for, sprite rows
    that fit, matching procedure names) and whose labels come behind the
    other statements of their sequence is what [make_tree] returns for the
    tokens the statements are written with, so [make_tree] reaches every
    such tree and loses nothing of the tokens it reads. *)
Theorem make_tree_reads_back (max_rows : nat) (tree : list statement) :
  forallb (well_formed max_rows) tree = true ->
  labels_last tree = true ->
  make_tree max_rows (tokens_of_tree tree) = Ok tree.
Proof.
  intros Hwf Hlast. unfold make_tree, make_tree_fuel.
  rewrite (@parse_tokens_of_tree max_rows tree _ _ Hwf Hlast);
    [reflexivity | | lia].
  pose proof (tokens_of_tree_length _ _ Hwf). lia.
Qed.

Lemma make_tree_reads_back_witness :
  make_tree 3
    (tokens_of_tree
       [sprite_statement (ident "s")
          {| sprite_data := [1; 2; 0]%Z; row_count := 2 |};
        procedure_statement (ident "f") (ident "f")
          [instruction_statement (punct instruction)
             [make_reg (punct register_name); make_indirect (num 3)];
           label_statement (ident "l") [raw_word 1];
           label_statement (ident "m") []];
        label_statement (ident "n") [config_statement (ident "x") (num 1)]])
  = Ok [sprite_statement (ident "s")
          {| sprite_data := [1; 2; 0]%Z; row_count := 2 |};
        procedure_statement (ident "f") (ident "f")
          [instruction_statement (punct instruction)
             [make_reg (punct register_name); make_indirect (num 3)];
           label_statement (ident "l") [raw_word 1];
           label_statement (ident "m") []];
        label_statement (ident "n") [config_statement (ident "x") (num 1)]].
Proof.
  apply (@make_tree_reads_back 3
           [sprite_statement (ident "s")
              {| sprite_data := [1; 2; 0]%Z; row_count := 2 |};
            procedure_statement (ident "f") (ident "f")
              [instruction_statement (punct instruction)
                 [make_reg (punct register_name); make_indirect (num 3)];
               label_statement (ident "l") [raw_word 1];
               label_statement (ident "m") []];
            label_statement (ident "n")
              [config_statement (ident "x") (num 1)]]);
    reflexivity.
Defined.

(** ** Source locations *)

(** X17: the parser does not look at the source locations of the tokens.
    On a token vector with the locations taken out, [make_tree] returns the
    tree it returns on the vector, with the locations taken out, or throws
    the exception it throws there, with the locations taken out of the
    tokens it carries; so two token vectors that differ in the locations
    only parse to trees that differ in the locations only, or both
    throw. *)
Theorem make_tree_ignores_locations (max_rows : nat) (ts ts' : list token) :
  map unlocated ts' = map unlocated ts ->
  make_tree max_rows (map unlocated ts)
    = unlocated_tree (make_tree max_rows ts) /\
  unlocated_tree (make_tree max_rows ts')
    = unlocated_tree (make_tree max_rows ts) /\
  (forall tree,
     make_tree max_rows ts = Ok tree ->
     exists tree',
       make_tree max_rows ts' = Ok tree' /\
       map unlocated_statement tree' = map unlocated_statement tree) /\
  (forall e,
     make_tree max_rows ts = Throw e ->
     exists e',
       make_tree max_rows ts' = Throw e' /\
       unlocated_exception e' = unlocated_exception e).
Proof.
  intros Hsame.
  assert (Hboth :
    unlocated_tree (make_tree max_rows ts')
      = unlocated_tree (make_tree max_rows ts)).
  { rewrite <- !make_tree_unlocated, Hsame. reflexivity. }
  split; [apply make_tree_unlocated |]. split; [exact Hboth |]. split.
  - intros tree H.
    apply (@make_tree_same_text max_rows ts ts' tree Hsame H).
  - intros e H. rewrite H in Hboth. cbn [unlocated_tree] in Hboth.
    destruct (make_tree max_rows ts') as [tree' | e' |]; try discriminate.
    exists e'. split; [reflexivity |].
    cbn [unlocated_tree] in Hboth. inversion Hboth. reflexivity.
Qed.

Lemma make_tree_ignores_locations_witness :
  unlocated_tree
    (make_tree 15
       [located 3 0 (punct dot_label); located 3 1 (ident "a");
        located 3 2 (punct colon); located 4 0 (punct keyword_raw);
        located 4 3 (punct parenthesis_open); located 4 4 (num 2);
        located 4 5 (punct parenthesis_close); located 5 0 (punct colon)])
  = unlocated_tree
      (make_tree 15 (label_tokens "a" ++ raw_tokens 2 ++ [punct colon])).
Proof.
  apply (proj1 (proj2
    (@make_tree_ignores_locations 15
       (label_tokens "a" ++ raw_tokens 2 ++ [punct colon])
       [located 3 0 (punct dot_label); located 3 1 (ident "a");
        located 3 2 (punct colon); located 4 0 (punct keyword_raw);
        located 4 3 (punct parenthesis_open); located 4 4 (num 2);
        located 4 5 (punct parenthesis_close); located 5 0 (punct colon)]
       eq_refl))).
Defined.
